(** * Gear-tooth wear analysis: segmentation order, matching, resolution,
      monotonicity and tabulation

    A shallow embedding of the decision and post-processing logic of the
    wear-analysis scripts.  A floating-point value is held as the rational
    number it denotes ([Q]).  Where the rounding of an operation bears on
    the result (the rounding of the tables, the statistics), the operation
    rounds to the nearest double ([binary64]); elsewhere the arithmetic is
    exact.  What OpenCV and NumPy compute from pixels (contour area, arc
    length, moments, square roots, angles, random draws) enters through an
    interface, so that the Python control flow around it is modelled as
    written.

    The first part holds the definitions, module by module as in the
    sources; the second part holds the lemmas and theorems. *)

From Stdlib Require Import ZArith QArith Qround Qabs Qpower Lqa Lia.
From Stdlib Require Import Ascii String Decimal DecimalString DecimalZ DecimalPos.
From Stdlib Require Floats.
From stdpp Require Import base option list gmap strings.

Local Open Scope Q_scope.

(** * Part I: definitions *)

(** ** Python built-ins used by the scripts *)

Module Py.

(** [a < b] on floats, as a boolean. *)
Definition ltb (a b : Q) : bool := negb (Qle_bool b a).

Definition leb (a b : Q) : bool := Qle_bool a b.

(** [max(a, b)]: the first argument is kept unless the second is strictly
    greater. *)
Definition max (a b : Q) : Q := if ltb a b then b else a.

(** [min(a, b)]: the first argument is kept unless the second is strictly
    smaller. *)
Definition min (a b : Q) : Q := if ltb b a then b else a.

(** [abs(x)]. *)
Definition abs (x : Q) : Q := if ltb x 0 then - x else x.

(** Insertion of [x] in front of the first element that may follow it;
    [x] is the element that came first in the original list. *)
Fixpoint insert_by {A} (le : A → A → bool) (x : A) (l : list A) : list A :=
  match l with
  | [] => [x]
  | y :: l' => if le x y then x :: y :: l' else y :: insert_by le x l'
  end.

(** The stable sort behind [sorted(l, key=...)] and [l.sort(key=...)]:
    elements that compare equal keep their original relative order. *)
Fixpoint sort_by {A} (le : A → A → bool) (l : list A) : list A :=
  match l with
  | [] => []
  | x :: l' => insert_by le x (sort_by le l')
  end.

(** [sorted(l, key=key)] for an integer key. *)
Definition sorted {A} (key : A → Z) (l : list A) : list A :=
  sort_by (λ x y, (key x <=? key y)%Z) l.

(** [sorted(l, key=key)] for a float key. *)
Definition sorted_float {A} (key : A → Q) (l : list A) : list A :=
  sort_by (λ x y, leb (key x) (key y)) l.

(** [sorted(l, key=key, reverse=True)] for a float key; the reversed sort
    is stable as well. *)
Definition sorted_float_reverse {A} (key : A → Q) (l : list A) : list A :=
  sort_by (λ x y, leb (key y) (key x)) l.

(** [min(l, key=key)] on a non-empty list: the first element whose key is
    minimal. *)
Fixpoint min_by_from {A} (key : A → Q) (best : A) (l : list A) : A :=
  match l with
  | [] => best
  | x :: l' => min_by_from key (if ltb (key x) (key best) then x else best) l'
  end.

Definition min_by {A} (key : A → Q) (l : list A) : option A :=
  match l with
  | [] => None
  | x :: l' => Some (min_by_from key x l')
  end.

(** [enumerate(l)] starting at [start]. *)
Fixpoint enumerate_from {A} (start : nat) (l : list A) : list (nat * A) :=
  match l with
  | [] => []
  | x :: l' => (start, x) :: enumerate_from (S start) l'
  end.

Definition enumerate {A} (l : list A) : list (nat * A) := enumerate_from 0 l.

End Py.

(** Non-decreasing sequences of depths. *)
Fixpoint nondecreasing (l : list Q) : Prop :=
  match l with
  | [] => True
  | x :: l' => match l' with [] => True | y :: _ => x <= y end ∧ nondecreasing l'
  end.

(** ** Multi-tooth measurement records and monotonicity enforcement
    ([data_utils.enforce_monotonicity_for_all_teeth]) *)

Module AllTeeth.

Record result := mk_result {
  wear_case : Z;
  tooth_number : Z;
  wear_depth_um : Q;
  method : string
}.

#[export] Instance result_inhabited : Inhabited result :=
  populate (mk_result 0 0 0 "").

Definition set_wear_depth_um (r : result) (d : Q) : result :=
  mk_result (wear_case r) (tooth_number r) d (method r).

(** The result list holds references to dictionaries; a dictionary is
    identified with its position in [results], and [teeth_data] groups these
    references, so that an update made through a group is seen in [results]. *)
Abbreviation store := (list result).

(** [teeth_data[tooth_num].append(result)], creating the group on first
    use; the dictionary keeps its keys in insertion order. *)
Fixpoint group_append (tooth_num : Z) (i : nat) (teeth_data : list (Z * list nat))
  : list (Z * list nat) :=
  match teeth_data with
  | [] => [(tooth_num, [i])]
  | (t, refs) :: rest =>
      if (t =? tooth_num)%Z then (t, refs ++ [i]) :: rest
      else (t, refs) :: group_append tooth_num i rest
  end.

Definition group_by_tooth (results : store) : list (Z * list nat) :=
  fold_left (fun teeth_data ir => group_append (tooth_number ir.2) ir.1 teeth_data)
            (Py.enumerate results) [].

(** [teeth_data[tooth_num].sort(key=lambda x: x["wear_case"])]. *)
Definition sort_group (results : store) (refs : list nat) : list nat :=
  Py.sorted (fun i => wear_case (results !!! i)) refs.

(** One step of the inner loop: the record behind reference [i] is clamped
    up to the running maximum, or becomes the new maximum. *)
Definition walk_step (st : store * Q) (i : nat) : store * Q :=
  let '(results, max_wear) := st in
  match results !! i with
  | Some r =>
      let current_wear := wear_depth_um r in
      if Py.ltb current_wear max_wear
      then (<[i := set_wear_depth_um r max_wear]> results, max_wear)
      else (results, current_wear)
  | None => st
  end.

(** The inner loop for one tooth, starting from [max_wear = 0.0]. *)
Definition walk_group (results : store) (refs : list nat) : store :=
  (fold_left walk_step refs (results, 0)).1.

Definition enforce_monotonicity_for_all_teeth (results : store) : store :=
  match results with
  | [] => results
  | _ =>
      let teeth_data := group_by_tooth results in
      let teeth_data := (λ g, (g.1, sort_group results g.2)) <$> teeth_data in
      fold_left (fun res g => walk_group res g.2) teeth_data results
  end.

(** The depths of one tooth in ascending wear-case order. *)
Definition tooth_history (t : Z) (results : store) : list Q :=
  wear_depth_um <$>
    Py.sorted wear_case (filter (λ r, tooth_number r = t) results).

(** *** Auxiliary notions for the proofs about the pass *)

(** The flat clamp in the words of the contract: a depth below the running
    maximum is replaced by it, any other depth becomes the maximum. *)
Fixpoint flat_clamp (max_wear : Q) (depths : list Q) : list Q :=
  match depths with
  | [] => []
  | d :: rest =>
      if Py.ltb d max_wear then max_wear :: flat_clamp max_wear rest
      else d :: flat_clamp d rest
  end.

(** The records with their depths erased: what the pass never changes. *)
Definition skeleton (st : store) : list result :=
  (λ r, set_wear_depth_um r 0) <$> st.

(** The depth behind a reference. *)
Definition depth_at (st : store) (i : nat) : Q := wear_depth_um (st !!! i).

(** The tooth number behind a reference. *)
Definition tooth_at (st : store) (i : nat) : Z := tooth_number (st !!! i).

(** The references to the records of tooth [t], in list order. *)
Definition tooth_refs (t : Z) (st : store) : list nat :=
  filter (λ i, tooth_at st i = t) (seq 0 (length st)).

(** The group of tooth [t] after its sort by wear case. *)
Definition sorted_refs (l : store) (t : Z) : list nat :=
  sort_group l (tooth_refs t l).

End AllTeeth.

(** ** Configuration ([config.AnalysisConfig]) *)

Module Config.

Definition MAX_THEORETICAL_WEAR : Q := 1500.0.

Definition EXPECTED_TOOTH_COUNT : nat := 35.

(** The hard-coded fallback of [load_ground_truth_data]. *)
Definition hardcoded_measurements : gmap Z Q :=
  list_to_map
    [(1%Z, 40); (2%Z, 81); (3%Z, 115); (4%Z, 159); (5%Z, 175); (6%Z, 195);
     (7%Z, 227); (8%Z, 256); (9%Z, 276); (10%Z, 294); (11%Z, 305);
     (12%Z, 323); (13%Z, 344); (14%Z, 378); (15%Z, 400); (16%Z, 417);
     (17%Z, 436); (18%Z, 450); (19%Z, 466); (20%Z, 488); (21%Z, 510);
     (22%Z, 524); (23%Z, 557); (24%Z, 579); (25%Z, 608); (26%Z, 637);
     (27%Z, 684); (28%Z, 720); (29%Z, 744); (30%Z, 769); (31%Z, 797);
     (32%Z, 825); (33%Z, 853); (34%Z, 890); (35%Z, 932)].

(** [load_ground_truth_data]: the table read from
    [ground_truth_measurements.csv] when that file exists and loads, the
    hard-coded values otherwise.  The file content is an input. *)
Definition load_ground_truth_data (csv : option (gmap Z Q)) : gmap Z Q :=
  match csv with
  | Some measurements => measurements
  | None => hardcoded_measurements
  end.

(** Manual adjustments for problematic early wear cases. *)
Definition manual_adjustments : gmap Z Q :=
  list_to_map
    [(1%Z, 38.0); (2%Z, 77.0); (4%Z, 152.0); (5%Z, 166.0); (6%Z, 185.0)].

(** The optimized results from W7 onwards. *)
Definition optimized_results_w7_plus : gmap Z Q :=
  list_to_map
    [(7%Z, 258.7); (8%Z, 271.6); (9%Z, 285.2); (10%Z, 299.5); (11%Z, 314.4);
     (12%Z, 330.1); (13%Z, 346.7); (14%Z, 364.0); (15%Z, 382.2);
     (16%Z, 401.3); (17%Z, 421.4); (18%Z, 442.4); (19%Z, 464.6);
     (20%Z, 487.8); (21%Z, 512.2); (22%Z, 537.8); (23%Z, 564.7);
     (24%Z, 592.9); (25%Z, 622.5); (26%Z, 653.7); (27%Z, 686.4);
     (28%Z, 720.7); (29%Z, 756.7); (30%Z, 794.5); (31%Z, 834.3);
     (32%Z, 876.0); (33%Z, 919.8); (34%Z, 965.8); (35%Z, 1000.0)].

(** The lookup tables consulted by the single-tooth pipeline. *)
Record tables := mk_tables {
  tbl_manual_adjustments : gmap Z Q;
  tbl_optimized_results_w7_plus : gmap Z Q;
  tbl_actual_measurements : gmap Z Q
}.

(** [get_config("tooth1")]. *)
Definition tooth1_config (csv : option (gmap Z Q)) : tables :=
  mk_tables manual_adjustments optimized_results_w7_plus
            (load_ground_truth_data csv).

End Config.

(** ** Single-tooth records: resolution and monotonicity
    ([tooth1_analyzer.analyze_tooth1_wear_depth],
     [data_utils.enforce_monotonicity_for_tooth1]) *)

Module Tooth1.

(** A single-tooth record has no tooth number, and the monotonicity pass
    tests whether it carries a [method] key. *)
Record result := mk_result {
  wear_case : Z;
  wear_depth_um : Q;
  method : option string
}.

#[export] Instance result_inhabited : Inhabited result :=
  populate (mk_result 0 0 None).

(** The body of the per-image loop that turns a wear case and the features
    of the matched tooth into a record. *)
Definition resolve_wear_depth (cfg : Config.tables) (wear_num : Z)
    (features : gmap string Q) : result :=
  let '(predicted_depth, method) :=
    match Config.tbl_manual_adjustments cfg !! wear_num with
    | Some d => (d, "manual_adjustment")
    | None =>
        match Config.tbl_optimized_results_w7_plus cfg !! wear_num with
        | Some d => (d, "optimized")
        | None =>
            match Config.tbl_actual_measurements cfg !! wear_num with
            | Some d => (d, "actual_measurement")
            | None =>
                let area_loss := default 0 (features !! "area_loss") in
                (area_loss * 1000, "feature_based")
            end
        end
    end in
  let predicted_depth :=
    Py.max 0 (Py.min predicted_depth Config.MAX_THEORETICAL_WEAR) in
  mk_result wear_num predicted_depth (Some method).

(** The body of the loop of [enforce_monotonicity_for_tooth1] at index [i];
    [sorted_results[i-1]] is read after its own adjustment. *)
Definition adjust_at (sorted_results : list result) (i : nat) : list result :=
  match sorted_results !! i, sorted_results !! (i - 1)%nat with
  | Some cur, Some prev =>
      let current_wear := Py.max 0 (wear_depth_um cur) in
      let previous_wear := Py.max 0 (wear_depth_um prev) in
      if Py.ltb current_wear previous_wear then
        let adjusted_wear := previous_wear * 1.02 in
        let adjusted_wear := Py.min adjusted_wear Config.MAX_THEORETICAL_WEAR in
        let adjusted_wear := Py.max 0 adjusted_wear in
        <[i := mk_result (wear_case cur) adjusted_wear
                 ((λ m, m +:+ "_monotonic") <$> method cur)]> sorted_results
      else sorted_results
  | _, _ => sorted_results
  end.

Definition enforce_monotonicity_for_tooth1 (results : list result) : list result :=
  match results with
  | [] => results
  | _ =>
      let sorted_results := Py.sorted wear_case results in
      fold_left adjust_at (seq 1 (length sorted_results - 1)) sorted_results
  end.

(** *** Auxiliary notions for the proofs about the single-tooth pass *)

(** What one loop iteration leaves at index [i], given the (already
    adjusted) record before it. *)
Definition adjust (prev cur : result) : result :=
  let current_wear := Py.max 0 (wear_depth_um cur) in
  let previous_wear := Py.max 0 (wear_depth_um prev) in
  if Py.ltb current_wear previous_wear then
    mk_result (wear_case cur)
      (Py.max 0 (Py.min (previous_wear * 1.02) Config.MAX_THEORETICAL_WEAR))
      ((λ m, m +:+ "_monotonic") <$> method cur)
  else cur.

Fixpoint walk (prev : result) (rest : list result) : list result :=
  match rest with
  | [] => []
  | cur :: rest' => adjust prev cur :: walk (adjust prev cur) rest'
  end.

Definition in_range (r : result) : Prop :=
  0 <= wear_depth_um r ∧ wear_depth_um r <= Config.MAX_THEORETICAL_WEAR.

(** The property of one adjacent pair of the output: [prev] and [cur] are
    the output records at [i-1] and [i], [orig] is the record at [i] before
    the pass. *)
Definition pair_ok (prev cur orig : result) : Prop :=
  wear_depth_um prev <= wear_depth_um cur
  ∧ (Py.max 0 (wear_depth_um orig) < Py.max 0 (wear_depth_um prev) →
       wear_depth_um cur
       = Py.max 0 (Py.min (Py.max 0 (wear_depth_um prev) * 1.02)
                          Config.MAX_THEORETICAL_WEAR)
       ∧ method cur = (λ m, m +:+ "_monotonic") <$> method orig
       ∧ ∀ m, method cur = Some m → ∃ m0, m = m0 +:+ "_monotonic").

Definition monotone_after_enforcement (results : list result) : Prop :=
  let sorted_results := Py.sorted wear_case results in
  let out := enforce_monotonicity_for_tooth1 results in
  length out = length results
  ∧ ∀ i prev cur orig,
      out !! i = Some prev → out !! S i = Some cur →
      sorted_results !! S i = Some orig →
      pair_ok prev cur orig.

(** The final clamp of the resolved depth. *)
Definition clamp_depth (v : Q) : Q :=
  Py.max 0 (Py.min v Config.MAX_THEORETICAL_WEAR).

End Tooth1.

(** ** Multi-tooth depth prediction
    ([wear_analyzer.predict_wear_depth_from_features]) *)

Module WearAnalyzer.

Definition tooth1_ground_truth : gmap Z Q :=
  list_to_map
    [(1%Z, 38.0); (2%Z, 77.0); (3%Z, 115.0); (4%Z, 152.0); (5%Z, 166.0);
     (6%Z, 185.0); (7%Z, 258.7); (8%Z, 271.6); (9%Z, 285.2); (10%Z, 299.5);
     (11%Z, 314.4); (12%Z, 330.1); (13%Z, 346.7); (14%Z, 364.0);
     (15%Z, 382.2); (16%Z, 401.3); (17%Z, 421.4); (18%Z, 442.4);
     (19%Z, 464.6); (20%Z, 487.8); (21%Z, 512.2); (22%Z, 537.8);
     (23%Z, 564.7); (24%Z, 592.9); (25%Z, 622.5); (26%Z, 653.7);
     (27%Z, 686.4); (28%Z, 720.7); (29%Z, 756.7); (30%Z, 794.5);
     (31%Z, 834.3); (32%Z, 876.0); (33%Z, 919.8); (34%Z, 965.8);
     (35%Z, 1000.0)].

Section predict.
(** The state of NumPy's global generator, and [np.random.normal(loc,
    scale)] as a draw that advances it. *)
Context {rng : Type} (np_random_normal : Q → Q → rng → Q * rng).

Definition predict_wear_depth_from_features (features : list Q)
    (wear_case tooth_number : Z) (g : rng) : Q * rng :=
  match tooth1_ground_truth !! wear_case with
  | Some base_depth =>
      if (tooth_number =? 1)%Z then (base_depth, g)
      else
        let '(tooth_variation, g') := np_random_normal 1.0 0.05 g in
        let predicted_depth := base_depth * tooth_variation in
        let predicted_depth :=
          Py.max 0 (Py.min predicted_depth Config.MAX_THEORETICAL_WEAR) in
        (predicted_depth, g')
  | None =>
      let base_wear := inject_Z wear_case * 25.0 in
      let tooth_factor := 1.0 + (inject_Z tooth_number - 1) * 0.02 in
      (Py.min (base_wear * tooth_factor) Config.MAX_THEORETICAL_WEAR, g)
  end.
End predict.

End WearAnalyzer.

(** ** Exceptions and float division *)

Module Exn.

Inductive exn := ZeroDivisionError.

(** A computation that returns a value or raises. *)
Definition M (A : Type) : Type := exn + A.

#[export] Instance M_ret : MRet M := λ A x, inr x.
#[export] Instance M_bind : MBind M := λ A B f m,
  match m with
  | inl e => inl e
  | inr x => f x
  end.

(** [x / y] on Python floats and integers: raises on a zero divisor. *)
Definition truediv (x y : Q) : M Q :=
  if Qeq_bool y 0 then inl ZeroDivisionError else inr (x / y).

End Exn.

(** ** The OpenCV / NumPy primitives, as an interface over an abstract
    contour type *)

Class Vision (contour : Type) := {
  (** [cv2.contourArea(c)] *)
  cv2_contourArea : contour → Q;
  (** [cv2.arcLength(c, True)] *)
  cv2_arcLength : contour → Q;
  (** [cv2.boundingRect(c)], as [(x, y, w, h)] *)
  cv2_boundingRect : contour → Z * Z * Z * Z;
  (** [cv2.convexHull(c)] *)
  cv2_convexHull : contour → contour;
  (** [cv2.moments(c)], restricted to [(m00, m10, m01)] *)
  cv2_moments : contour → Q * Q * Q;
  (** [np.max], [np.mean], [np.median] and [np.std] of
      [cv2.distanceTransform] of the contour filled on a 512 x 512 mask *)
  dt_max : contour → Q;
  dt_mean : contour → Q;
  dt_median : contour → Q;
  dt_std : contour → Q;
  (** [np.sum(cv2.Canny(mask, 50, 150))] of the filled mask *)
  canny_edge_sum : contour → Q;
  (** [np.sqrt] *)
  np_sqrt : Q → Q;
  (** [np.degrees(np.arctan2(y, x))] *)
  np_arctan2_degrees : Q → Q → Q;
  (** [math.pi] *)
  math_pi : Q
}.

(** ** Gear geometry ([gear_parameters]) *)

Module GearParameters.
Section gear.
Context {contour : Type} `{!Vision contour}.

Definition GEAR_MODULE : Q := 3.0.
Definition TOOTH_COUNT : Z := 35.
Definition STANDARD_ADDENDUM : Q := 1.00 * GEAR_MODULE.
Definition STANDARD_DEDENDUM : Q := 1.25 * GEAR_MODULE.
Definition STANDARD_TOOTH_THICKNESS : Q := math_pi * GEAR_MODULE / 2.
Definition STANDARD_TOOTH_HEIGHT : Q := STANDARD_ADDENDUM + STANDARD_DEDENDUM.
End gear.
End GearParameters.

(** ** Image processing shared by both pipelines ([image_processor]) *)

Module ImageProcessor.

(** A candidate that passed the filters: [(contour, area, cx, cy)]. *)
Abbreviation valid_contour contour := (contour * Q * Q * Q)%type.

(** An entry of [teeth_with_angles]: [(angle_deg, contour, area)]. *)
Abbreviation tooth_with_angle contour := (Q * contour * Q)%type.

Section image_processor.
Context {contour : Type} `{!Vision contour}.

Definition calculate_contour_centroid (c : contour) : Q * Q :=
  let '(m00, m10, m01) := cv2_moments c in
  if Qeq_bool m00 0 then (0.0, 0.0) else (m10 / m00, m01 / m00).

(** [(np.degrees(np.arctan2(dy, dx)) + 360) % 360] *)
Definition angle_deg (dy dx : Q) : Q :=
  let a := np_arctan2_degrees dy dx + 360 in
  a - 360 * inject_Z (Qfloor (a / 360)).

Definition tooth_angle (t : tooth_with_angle contour) : Q := t.1.1.
Definition tooth_contour (t : tooth_with_angle contour) : contour := t.1.2.
Definition tooth_area (t : tooth_with_angle contour) : Q := t.2.

(** The three filters on one contour, with the bounds of the caller. *)
Definition filter_contour (shape : Z * Z)
    (min_area max_area min_distance max_distance min_ar max_ar : Q)
    (c : contour) : option (valid_contour contour) :=
  let center_y := (shape.1 / 2)%Z in
  let center_x := (shape.2 / 2)%Z in
  let area := cv2_contourArea c in
  if Py.leb min_area area && Py.leb area max_area then
    let '(cx, cy) := calculate_contour_centroid c in
    let distance_from_center :=
      np_sqrt ((cx - inject_Z center_x) ^ 2 + (cy - inject_Z center_y) ^ 2) in
    if Py.leb min_distance distance_from_center
       && Py.leb distance_from_center max_distance then
      let '(x, y, w, h) := cv2_boundingRect c in
      let aspect_ratio := if (0 <? h)%Z then inject_Z w / inject_Z h else 0 in
      if Py.leb min_ar aspect_ratio && Py.leb aspect_ratio max_ar
      then Some (c, area, cx, cy) else None
    else None
  else None.

Definition with_angle (shape : Z * Z) (v : valid_contour contour) : tooth_with_angle contour :=
  let '(c, area, cx, cy) := v in
  let center_y := (shape.1 / 2)%Z in
  let center_x := (shape.2 / 2)%Z in
  (angle_deg (cy - inject_Z center_y) (cx - inject_Z center_x), c, area).

(** [for i, (angle, contour, area) in enumerate(...)]: numbering from 1. *)
Definition index_teeth (teeth : list (tooth_with_angle contour)) : list (Z * contour) :=
  (λ it, (Z.of_nat it.1 + 1, tooth_contour it.2)%Z) <$> Py.enumerate teeth.

(** Reduction policy of the multi-tooth pipeline: keep the largest
    contours, then order them by angle again. *)
Definition keep_largest (teeth_with_angles : list (tooth_with_angle contour))
  : list (tooth_with_angle contour) :=
  if (Config.EXPECTED_TOOTH_COUNT <? length teeth_with_angles)%nat then
    let by_area := Py.sorted_float_reverse tooth_area teeth_with_angles in
    let kept := take Config.EXPECTED_TOOTH_COUNT by_area in
    Py.sorted_float tooth_angle kept
  else teeth_with_angles.

(** One thresholding attempt replaces the best so far only when it yields
    strictly more valid contours. *)
Definition best_step (shape : Z * Z) (best : list (valid_contour contour))
    (contours : list contour) : list (valid_contour contour) :=
  match contours with
  | [] => best
  | _ =>
      let valid_contours :=
        omap (filter_contour shape 20 15000 10 500 0.1 10.0) contours in
      if (length best <? length valid_contours)%nat then valid_contours
      else best
  end.

(** The candidates kept by [extract_teeth_from_gear_image], from the
    contour lists found under the three thresholding methods and the
    image shape [(rows, cols)]. *)
Definition best_contours (found : list (list contour)) (shape : Z * Z)
  : list (valid_contour contour) :=
  fold_left (best_step shape) found [].

(** [extract_teeth_from_gear_image] up to the numbering.  Each returned
    tooth image is the crop around its contour, so the contour stands
    for it. *)
Definition teeth_with_angles_of_gear_image (found : list (list contour))
    (shape : Z * Z) : list (tooth_with_angle contour) :=
  match best_contours found shape with
  | [] => []
  | best_contours =>
      let teeth_with_angles := with_angle shape <$> best_contours in
      let teeth_with_angles := Py.sorted_float tooth_angle teeth_with_angles in
      keep_largest teeth_with_angles
  end.

Definition extract_teeth_from_gear_image (found : list (list contour))
    (shape : Z * Z) : list (Z * contour) :=
  index_teeth (teeth_with_angles_of_gear_image found shape).
End image_processor.
End ImageProcessor.

(** ** Single-tooth image processing ([tooth1_image_processor]) *)

Module Tooth1ImageProcessor.
Import Exn ImageProcessor.

(** [sub in s] on strings. *)
Fixpoint contains (sub s : string) : bool :=
  String.prefix sub s
  || match s with
     | EmptyString => false
     | String _ s' => contains sub s'
     end.

(** The keys of the feature dictionary, in insertion order. *)
Definition feature_keys : list string :=
  ["area_ratio"; "area_loss"; "area_loss_squared"; "area_loss_cubic";
   "area_loss_sqrt"; "perimeter_ratio"; "perimeter_loss"; "height_ratio";
   "width_ratio"; "height_loss"; "width_loss"; "height_loss_squared";
   "hull_area_ratio"; "hull_area_loss"; "solidity_ratio"; "solidity_loss";
   "dt_max_diff"; "dt_mean_diff"; "dt_median_diff"; "dt_std_diff";
   "edge_density_ratio"; "edge_density_loss"].

(** Whether the scaling loop multiplies the value under [key]. *)
Definition is_scaled (key : string) : bool :=
  contains "loss" key || contains "diff" key.

(** The result of tooth matching: the pair [(None, None)] returned for an
    empty candidate list, [None] when no candidate passes the gates, or the
    best [(idx, contour)]. *)
Inductive match_result (contour : Type) :=
  | NonePair
  | NoMatch
  | Match (idx : Z) (c : contour).
Arguments NonePair {contour}.
Arguments NoMatch {contour}.
Arguments Match {contour} idx c.

Section tooth1_image_processor.
Context {contour : Type} `{!Vision contour}.

(** Reduction policy of the single-tooth pipeline: for each ideal slot
    the candidate whose angle is closest. *)
Definition closest_to_slots (teeth_with_angles : list (tooth_with_angle contour))
  : list (tooth_with_angle contour) :=
  if (Config.EXPECTED_TOOTH_COUNT <? length teeth_with_angles)%nat then
    let ideal_spacing := 360.0 / inject_Z (Z.of_nat Config.EXPECTED_TOOTH_COUNT) in
    match teeth_with_angles with
    | [] => []
    | first :: rest =>
        (λ i : nat,
           let ideal_angle := inject_Z (Z.of_nat i) * ideal_spacing in
           Py.min_by_from (λ x, Py.abs (tooth_angle x - ideal_angle)) first rest)
          <$> seq 0 Config.EXPECTED_TOOTH_COUNT
    end
  else teeth_with_angles.

(** The candidates kept by [extract_teeth_contours_improved], from the
    contours found in the cleaned binarization and the image shape
    [(rows, cols)]. *)
Definition valid_contours (contours : list contour) (shape : Z * Z)
  : list (valid_contour contour) :=
  omap (filter_contour shape 50 8000 30 300 0.2 5.0) contours.

(** [extract_teeth_contours_improved] up to the numbering. *)
Definition teeth_with_angles_improved (contours : list contour)
    (shape : Z * Z) : list (tooth_with_angle contour) :=
  match contours with
  | [] => []
  | _ =>
      match valid_contours contours shape with
      | [] => []
      | valid_contours =>
          let teeth_with_angles := with_angle shape <$> valid_contours in
          let teeth_with_angles :=
            Py.sorted_float tooth_angle teeth_with_angles in
          closest_to_slots teeth_with_angles
      end
  end.

Definition extract_teeth_contours_improved (contours : list contour)
    (shape : Z * Z) : list (Z * contour) :=
  index_teeth (teeth_with_angles_improved contours shape).

Definition estimate_scale_factor_from_gear (healthy_contour_area : Q) : M Q :=
  let expected_tooth_area_mm2 :=
    GearParameters.STANDARD_TOOTH_THICKNESS
    * GearParameters.STANDARD_TOOTH_HEIGHT in
  let expected_tooth_area_pixels := healthy_contour_area in
  if Py.ltb 0 expected_tooth_area_pixels then
    q ← truediv expected_tooth_area_mm2 expected_tooth_area_pixels;
    let scale_factor_mm_per_pixel := np_sqrt q in
    let scale_factor_um_per_pixel := scale_factor_mm_per_pixel * 1000 in
    let calibration_factor := 0.8 in
    let refined_scale_factor := scale_factor_um_per_pixel * calibration_factor in
    let refined_scale_factor := Py.max 4.0 (Py.min refined_scale_factor 10.0) in
    mret refined_scale_factor
  else mret 6.0.

(** The feature dictionary before the final scaling loop. *)
Definition unscaled_features (healthy_contour worn_contour : contour)
  : M (gmap string Q) :=
  let features : gmap string Q := ∅ in
  let healthy_area := cv2_contourArea healthy_contour in
  let worn_area := cv2_contourArea worn_contour in
  let healthy_perimeter := cv2_arcLength healthy_contour in
  let worn_perimeter := cv2_arcLength worn_contour in
  area_ratio ← truediv worn_area (Py.max healthy_area 1);
  let features := <["area_ratio" := area_ratio]> features in
  area_loss ← truediv (healthy_area - worn_area) (Py.max healthy_area 1);
  let features := <["area_loss" := area_loss]> features in
  let features := <["area_loss_squared" := area_loss ^ 2]> features in
  let features := <["area_loss_cubic" := area_loss ^ 3]> features in
  let features := <["area_loss_sqrt" := np_sqrt area_loss]> features in
  perimeter_ratio ← truediv worn_perimeter (Py.max healthy_perimeter 1);
  let features := <["perimeter_ratio" := perimeter_ratio]> features in
  perimeter_loss ←
    truediv (healthy_perimeter - worn_perimeter) (Py.max healthy_perimeter 1);
  let features := <["perimeter_loss" := perimeter_loss]> features in
  let '(_, _, healthy_w, healthy_h) := cv2_boundingRect healthy_contour in
  let '(_, _, worn_w, worn_h) := cv2_boundingRect worn_contour in
  let healthy_w := inject_Z healthy_w in
  let healthy_h := inject_Z healthy_h in
  let worn_w := inject_Z worn_w in
  let worn_h := inject_Z worn_h in
  height_ratio ← truediv worn_h (Py.max healthy_h 1);
  let features := <["height_ratio" := height_ratio]> features in
  width_ratio ← truediv worn_w (Py.max healthy_w 1);
  let features := <["width_ratio" := width_ratio]> features in
  height_loss ← truediv (healthy_h - worn_h) (Py.max healthy_h 1);
  let features := <["height_loss" := height_loss]> features in
  width_loss ← truediv (healthy_w - worn_w) (Py.max healthy_w 1);
  let features := <["width_loss" := width_loss]> features in
  let features := <["height_loss_squared" := height_loss ^ 2]> features in
  let healthy_hull := cv2_convexHull healthy_contour in
  let worn_hull := cv2_convexHull worn_contour in
  let healthy_hull_area := cv2_contourArea healthy_hull in
  let worn_hull_area := cv2_contourArea worn_hull in
  hull_area_ratio ← truediv worn_hull_area (Py.max healthy_hull_area 1);
  let features := <["hull_area_ratio" := hull_area_ratio]> features in
  hull_area_loss ←
    truediv (healthy_hull_area - worn_hull_area) (Py.max healthy_hull_area 1);
  let features := <["hull_area_loss" := hull_area_loss]> features in
  healthy_solidity ←
    truediv healthy_area (Py.max (cv2_contourArea healthy_hull) 1);
  worn_solidity ← truediv worn_area (Py.max (cv2_contourArea worn_hull) 1);
  solidity_ratio ← truediv worn_solidity (Py.max healthy_solidity 1);
  let features := <["solidity_ratio" := solidity_ratio]> features in
  let features :=
    <["solidity_loss" := healthy_solidity - worn_solidity]> features in
  let features :=
    <["dt_max_diff" := dt_max healthy_contour - dt_max worn_contour]> features in
  let features :=
    <["dt_mean_diff" := dt_mean healthy_contour - dt_mean worn_contour]> features in
  let features :=
    <["dt_median_diff" := dt_median healthy_contour - dt_median worn_contour]>
      features in
  let features :=
    <["dt_std_diff" := dt_std healthy_contour - dt_std worn_contour]> features in
  let healthy_edges := canny_edge_sum healthy_contour in
  let worn_edges := canny_edge_sum worn_contour in
  edge_density_ratio ← truediv worn_edges (Py.max healthy_edges 1);
  let features := <["edge_density_ratio" := edge_density_ratio]> features in
  edge_density_loss ←
    truediv (healthy_edges - worn_edges) (Py.max healthy_edges 1);
  let features := <["edge_density_loss" := edge_density_loss]> features in
  mret features.

(** [for key in features: if 'loss' in key or 'diff' in key:
    features[key] *= effective_scale_factor]. *)
Definition scale_features (effective_scale_factor : Q)
    (features : gmap string Q) : gmap string Q :=
  map_imap
    (λ key v,
       Some (if contains "loss" key || contains "diff" key
             then v * effective_scale_factor else v))
    features.

Definition effective_scale (target_um_per_px estimated_scale_factor : Q) : Q :=
  target_um_per_px * 0.3 + estimated_scale_factor * 0.7.

Definition extract_early_wear_features (healthy_contour worn_contour : contour)
    (target_um_per_px : Q) : M (gmap string Q) :=
  let healthy_area := cv2_contourArea healthy_contour in
  estimated_scale_factor ← estimate_scale_factor_from_gear healthy_area;
  let effective_scale_factor :=
    effective_scale target_um_per_px estimated_scale_factor in
  features ← unscaled_features healthy_contour worn_contour;
  mret (scale_features effective_scale_factor features).

(** [score < best_score], where [best_score] starts at [float('inf')]. *)
Definition improves (score : Q) (best_score : option Q) : bool :=
  match best_score with
  | None => true
  | Some b => Py.ltb score b
  end.

Definition centroid_distance (a b : contour) : Q :=
  let ca := calculate_contour_centroid a in
  let cb := calculate_contour_centroid b in
  np_sqrt ((ca.1 - cb.1) ^ 2 + (ca.2 - cb.2) ^ 2).

Definition match_score (healthy_contour worn_contour : contour)
    (max_distance_threshold : Q) : Q :=
  let healthy_area := cv2_contourArea healthy_contour in
  let healthy_perimeter := cv2_arcLength healthy_contour in
  let worn_area := cv2_contourArea worn_contour in
  let worn_perimeter := cv2_arcLength worn_contour in
  let w_distance := 0.2 in
  let w_area := 0.5 in
  let w_perimeter := 0.3 in
  let area_diff := Py.abs (worn_area - healthy_area) / Py.max healthy_area 1 in
  let perimeter_diff :=
    Py.abs (worn_perimeter - healthy_perimeter) / Py.max healthy_perimeter 1 in
  let distance_norm :=
    centroid_distance healthy_contour worn_contour / max_distance_threshold in
  w_distance * distance_norm + w_area * area_diff + w_perimeter * perimeter_diff.

(** The two gates of the loop body. *)
Definition passes_gates (healthy_contour worn_contour : contour)
    (max_distance_threshold : Q) : bool :=
  let worn_area := cv2_contourArea worn_contour in
  Py.leb 20 worn_area && Py.leb worn_area 5000
  && negb (Py.ltb max_distance_threshold
             (centroid_distance healthy_contour worn_contour)).

Definition match_step (healthy_contour : contour) (max_distance_threshold : Q)
    (st : option (Z * contour) * option Q) (cand : Z * contour)
  : option (Z * contour) * option Q :=
  let '(best_match, best_score) := st in
  let '(idx, worn_contour) := cand in
  if passes_gates healthy_contour worn_contour max_distance_threshold then
    let score := match_score healthy_contour worn_contour max_distance_threshold in
    if improves score best_score then (Some (idx, worn_contour), Some score)
    else st
  else st.

Definition find_most_similar_tooth_contour_early_wear
    (healthy_contour : contour) (worn_contours : list (Z * contour))
    (max_distance_threshold : Q) : match_result contour :=
  match worn_contours with
  | [] => NonePair
  | _ =>
      match (fold_left (match_step healthy_contour max_distance_threshold)
                       worn_contours (None, None)).1 with
      | None => NoMatch
      | Some (idx, c) => Match idx c
      end
  end.
(** The distance and area gates, in words. *)
Definition gated healthy (maxD : Q) c : Prop :=
  20 <= cv2_contourArea c ∧ cv2_contourArea c <= 5000
  ∧ centroid_distance healthy c <= maxD.

(** The invariant of the matching loop after a prefix of candidates. *)
Definition match_inv healthy (maxD : Q) (seen : list (Z * contour))
    (st : option (Z * contour) * option Q) : Prop :=
  match st.1 with
  | None => st.2 = None ∧ ∀ cand, cand ∈ seen → ¬ gated healthy maxD cand.2
  | Some best =>
      best ∈ seen ∧ gated healthy maxD best.2
      ∧ st.2 = Some (match_score healthy best.2 maxD)
      ∧ ∀ cand, cand ∈ seen → gated healthy maxD cand.2 →
          match_score healthy best.2 maxD <= match_score healthy cand.2 maxD
  end.

(** A candidate that coincides with the healthy tooth in position, area
    and perimeter. *)
Definition coincides healthy c : Prop :=
  centroid_distance healthy c == 0
  ∧ cv2_contourArea c == cv2_contourArea healthy
  ∧ cv2_arcLength c == cv2_arcLength healthy.
End tooth1_image_processor.
End Tooth1ImageProcessor.

(** ** A concrete instance of the interface

    A contour is represented by what OpenCV measures on it.  The square
    root is truncated to three decimals (so it is exact on squares of
    integers) and the angle is exact on the four half-axes, which is all
    the examples below use. *)

Module Measured.

Record contour := mk_contour {
  area : Q;
  perimeter : Q;
  rect : Z * Z * Z * Z;
  hull_area : Q;
  cx : Q;
  cy : Q
}.

Definition hull (c : contour) : contour :=
  mk_contour (hull_area c) (perimeter c) (rect c) (hull_area c) (cx c) (cy c).

Definition moments (c : contour) : Q * Q * Q :=
  (area c, area c * cx c, area c * cy c).

(** The square root truncated to three decimals. *)
Definition isqrt (x : Q) : Q :=
  inject_Z (Z.sqrt (Qfloor (x * 1000000))) / 1000.

Definition axis_angle (dy dx : Q) : Q :=
  if Qeq_bool dy 0 then (if Py.ltb dx 0 then 180 else 0)
  else if Py.ltb 0 dy then 90 else -90.

#[export] Instance measured_vision : Vision contour := {|
  cv2_contourArea := area;
  cv2_arcLength := perimeter;
  cv2_boundingRect := rect;
  cv2_convexHull := hull;
  cv2_moments := moments;
  dt_max := λ c, 0;
  dt_mean := λ c, 0;
  dt_median := λ c, 0;
  dt_std := λ c, 0;
  canny_edge_sum := λ c, 255 * perimeter c;
  np_sqrt := isqrt;
  np_arctan2_degrees := axis_angle;
  math_pi := 3.141592653589793
|}.

(** An axis-aligned [w] by [h] rectangle centred at [(x, y)]. *)
Definition rectangle (w h : Z) (x y : Z) : contour :=
  mk_contour (inject_Z (w * h)) (inject_Z (2 * (w + h)))
             ((x - w / 2)%Z, (y - h / 2)%Z, w, h)
             (inject_Z (w * h)) (inject_Z x) (inject_Z y).

(** Thirty-six 5 by 12 rectangles on the horizontal ray from the centre of
    a 512 by 512 image, 7 pixels apart, starting 30 pixels out. *)
Definition ray_contours : list contour :=
  (λ i : nat, rectangle 5 12 (256 + 30 + 7 * Z.of_nat i) 256) <$> seq 0 36.

(** Sample teeth for the examples. *)
Definition healthy_tooth : contour := rectangle 20 50 300 256.
Definition worn_tooth : contour := rectangle 20 45 300 256.
Definition healthy_square : contour := rectangle 10 10 100 100.
Definition same_area_tooth : contour := rectangle 5 20 100 100.
Definition shifted_tooth : contour := rectangle 9 11 103 104.

End Measured.

(** ** Tabulation: the table-format CSV and its loader
    ([data_utils.save_table_format], [data_loader.load_all_teeth_data])

    A CSV file is kept as its rows of cells: the cells written here hold
    digits, a sign, a dot and letters only, so the writer emits them
    unquoted and the reader splits them back unchanged. *)

Module Tabulation.
Import AllTeeth.

Abbreviation csv := (list (list string)).

(** [str(n)] and [int(s)] on decimal numerals. *)
Definition str (z : Z) : string := NilZero.string_of_int (Z.to_int z).

Definition int (s : string) : option Z := Z.of_int <$> NilZero.int_of_string s.

(** [numpy.rint]: rounding to the nearest integer, ties to even. *)
Definition rint (x : Q) : Z :=
  let f := Qfloor x in
  let r := x - inject_Z f in
  if Py.ltb r 0.5 then f
  else if Py.ltb 0.5 r then (f + 1)%Z
  else if Z.even f then f else (f + 1)%Z.

(** The exponent of [x]: the integer part of the binary logarithm of
    [|x|], for [x] other than 0. *)
Definition exponent (x : Q) : Z :=
  let a := Qabs x in
  let k := (Z.log2 (Qnum a) - Z.log2 (Z.pos (Qden a)))%Z in
  if Qle_bool (2 ^ k) a then k else (k - 1)%Z.

(** The double nearest to [x], ties to even: the rounding of IEEE 754
    binary64, with 53 significant bits and gradual underflow below
    [2^-1022].  Every arithmetic operation on doubles returns the exact
    result rounded this way.  Overflow to infinity is not modelled. *)
Definition binary64 (x : Q) : Q :=
  let x := Qred x in
  if Qeq_bool x 0 then 0
  else
    let e := Z.max (exponent x - 52) (-1074) in
    inject_Z (rint (x / 2 ^ e)) * 2 ^ e.

(** [round(1)] as NumPy computes it on doubles: the product with 10 is
    rounded to a double, [rint] is taken, and the result is divided by
    10.  [round1_tenths] is the integer that [rint] returns, the number
    of tenths of the rounded value. *)
Definition round1_tenths (x : Q) : Z := rint (binary64 (x * 10)).

Definition round1 (x : Q) : Q := binary64 (inject_Z (round1_tenths x) / 10).

(** The text of a value with one decimal, given in tenths. *)
Definition format_tenths (k : Z) : string :=
  (if (k <? 0)%Z then "-" else "")
  +:+ str (Z.abs k / 10) +:+ "." +:+ str (Z.abs k mod 10).

(** The cell of a float; [None] is NaN, written as the empty string. *)
Definition format_cell (v : option Q) : string :=
  match v with
  | None => ""
  | Some d => format_tenths (round1_tenths d)
  end.

(** Splitting at the first dot. *)
Fixpoint split_dot (s : string) : option (string * string) :=
  match s with
  | EmptyString => None
  | String a s' =>
      if Ascii.eqb a "."%char then Some (EmptyString, s')
      else '(ip, fp) ← split_dot s'; Some (String a ip, fp)
  end.

Definition nat_of_digits (s : string) : option Z :=
  Z.of_uint <$> NilZero.uint_of_string s.

(** The unsigned part of a float numeral, with or without a fraction. *)
Definition float_magnitude (body : string) : option Q :=
  match split_dot body with
  | Some (ip, fp) =>
      i ← nat_of_digits ip;
      f ← nat_of_digits fp;
      Some (inject_Z i + inject_Z f / inject_Z (10 ^ Z.of_nat (String.length fp)))
  | None => inject_Z <$> nat_of_digits body
  end.

(** The number that a plain decimal numeral denotes. *)
Definition decimal_value (s : string) : option Q :=
  match s with
  | String a s' =>
      if Ascii.eqb a "-" then Qopp <$> float_magnitude s'
      else float_magnitude s
  | EmptyString => None
  end.

(** [float(s)] on plain decimal numerals: the double nearest to the
    number denoted; [None] is a [ValueError]. *)
Definition float (s : string) : option Q := binary64 <$> decimal_value s.

(** Index and column labels of a pivot: the distinct values, ascending. *)
Definition sorted_unique (l : list Z) : list Z := Py.sorted id (remove_dups l).

(** The value of the pivot at row [t], column [c]. *)
Definition pivot_cell (results : store) (t c : Z) : option Q :=
  wear_depth_um <$>
    head (filter (λ r, tooth_number r = t ∧ wear_case r = c) results).

(** The label of the column of wear case [c]. *)
Definition column_label (c : Z) : string := "W" +:+ str c.

(** The row of tooth [t]: its number, then one cell per wear case. *)
Definition table_row (results : store) (cases : list Z) (t : Z) : list string :=
  str t :: ((λ c, format_cell (pivot_cell results t c)) <$> cases).

(** [save_table_format(results, filename, "all_teeth")]: the file written,
    or [None] when an exception is caught and nothing is written (an empty
    list, or a pivot over duplicate (tooth, case) pairs). *)
Definition save_table_format (results : store) : option csv :=
  match results with
  | [] => None
  | _ =>
      if bool_decide (NoDup ((λ r, (tooth_number r, wear_case r)) <$> results))
      then
        let teeth := sorted_unique (tooth_number <$> results) in
        let cases := sorted_unique (wear_case <$> results) in
        let header := "Tooth" :: (column_label <$> cases) in
        Some (header :: (table_row results cases <$> teeth))
      else None
  end.

(** Setting a key of an insertion-ordered dictionary. *)
Fixpoint dict_set {V} (k : string) (v : V) (d : list (string * V))
  : list (string * V) :=
  match d with
  | [] => [(k, v)]
  | (k', v') :: d' =>
      if String.eqb k' k then (k', v) :: d' else (k', v') :: dict_set k v d'
  end.

Fixpoint dict_get {V} (k : string) (d : list (string * V)) : option V :=
  match d with
  | [] => None
  | (k', v) :: d' => if String.eqb k' k then Some v else dict_get k d'
  end.

(** A row of [csv.DictReader]: the cells under the field names, [None]
    under the names a short row leaves out; a row longer than the header
    puts its surplus under the key [None], on which the loader raises. *)
Definition DictReader_row (fieldnames cells : list string)
  : option (list (string * option string)) :=
  if (length fieldnames <? length cells)%nat then None
  else
    let padded :=
      (Some <$> cells) ++ replicate (length fieldnames - length cells) None in
    Some (fold_left (λ d kv, dict_set kv.1 kv.2 d) (zip fieldnames padded) []).

(** [all_teeth_data[wear_case][tooth_number] = wear_depth], creating the
    inner dictionary on first use. *)
Definition assign (data : gmap Z (gmap Z Q)) (wear_case tooth_number : Z)
    (wear_depth : Q) : gmap Z (gmap Z Q) :=
  <[wear_case := <[tooth_number := wear_depth]> (default ∅ (data !! wear_case))]>
    data.

(** The inner loop over [row.items()]; [None] is a raised exception. *)
Definition load_cell (tooth_number : Z) (data : option (gmap Z (gmap Z Q)))
    (item : string * option string) : option (gmap Z (gmap Z Q)) :=
  data ← data;
  if String.prefix "W" item.1 then
    wear_case ← int (String.substring 1 (String.length item.1 - 1) item.1);
    value ← item.2;
    wear_depth ← float value;
    Some (assign data wear_case tooth_number wear_depth)
  else Some data.

Definition load_table_row (fieldnames : list string)
    (data : option (gmap Z (gmap Z Q))) (cells : list string)
  : option (gmap Z (gmap Z Q)) :=
  data ← data;
  row ← DictReader_row fieldnames cells;
  tooth_cell ← mjoin (dict_get "Tooth" row);
  tooth_number ← int tooth_cell;
  fold_left (load_cell tooth_number) row (Some data).

(** The old long format, one record per row. *)
Definition load_long_row (fieldnames : list string)
    (data : option (gmap Z (gmap Z Q))) (cells : list string)
  : option (gmap Z (gmap Z Q)) :=
  data ← data;
  row ← DictReader_row fieldnames cells;
  wear_case ← mjoin (dict_get "wear_case" row) ≫= int;
  tooth_number ← mjoin (dict_get "tooth_number" row) ≫= int;
  wear_depth ← mjoin (dict_get "wear_depth_um" row) ≫= float;
  Some (assign data wear_case tooth_number wear_depth).

(** [load_all_teeth_data]: [file] is the content of the results file, or
    [None] when it does not exist; any exception yields the empty
    dictionary. *)
Definition load_all_teeth_data (file : option csv) : gmap Z (gmap Z Q) :=
  match file with
  | None => ∅
  | Some [] => ∅
  | Some (fieldnames :: rows) =>
      let rows := filter (λ cells, cells ≠ []) rows in
      if (1 <? length fieldnames)%nat
         && bool_decide (head fieldnames = Some "Tooth")
      then default ∅ (fold_left (load_table_row fieldnames) rows (Some ∅))
      else default ∅ (fold_left (load_long_row fieldnames) rows (Some ∅))
  end.

(** The reloaded depth of a (tooth, case) pair. *)
Definition reloaded (data : gmap Z (gmap Z Q)) (t c : Z) : option Q :=
  data !! c ≫= (.!! t).

(** Exactly one record for every pair of a tooth number and a wear case
    that occur in the result set. *)
Definition one_record_per_pair (results : store) : Prop :=
  NoDup ((λ r, (tooth_number r, wear_case r)) <$> results)
  ∧ ∀ r1 r2, r1 ∈ results → r2 ∈ results →
      ∃ r, r ∈ results ∧ tooth_number r = tooth_number r1
           ∧ wear_case r = wear_case r2.

(** *** Auxiliary notions for the round trip *)

(** Strings made of decimal digits only. *)
Fixpoint digits_only (s : string) : Prop :=
  match s with
  | EmptyString => True
  | String a s' =>
      (a = "0" ∨ a = "1" ∨ a = "2" ∨ a = "3" ∨ a = "4" ∨ a = "5" ∨ a = "6"
       ∨ a = "7" ∨ a = "8" ∨ a = "9")%char
      ∧ digits_only s'
  end.

(** The number that the text of [k] tenths denotes. *)
Definition tenths_value (k : Z) : Q :=
  let magnitude :=
    inject_Z (Z.abs k / 10) + inject_Z (Z.abs k mod 10) / inject_Z (10 ^ 1) in
  if (k <? 0)%Z then - magnitude else magnitude.

(** The value that comes back for the cell of tooth [t] and case [c]. *)
Definition reloaded_value (results : store) (t c : Z) : Q :=
  round1 (default 0 (pivot_cell results t c)).

(** The double nearest to 0.35, and a result set that holds it. *)
Definition double_0_35 : Q := 3152519739159347 # 9007199254740992.

Definition double_results : store :=
  [mk_result 1 1 double_0_35 "single_image_analysis"].

(** A two-by-two result set. *)
Definition sample_results : store :=
  [mk_result 1 1 38.0 "single_image_analysis";
   mk_result 1 2 39.27 "single_image_analysis";
   mk_result 2 1 77.0 "single_image_analysis";
   mk_result 2 2 74.55 "single_image_analysis"].

End Tabulation.

(** ** The doubles of the kernel

    Rocq's primitive floats are IEEE 754 binary64 numbers; they serve to
    check [binary64] against a second implementation of the rounding. *)

Module KernelFloat.

(** The double of a natural number below [2^53]. *)
Definition of_Z (z : Z) : PrimFloat.float :=
  PrimFloat.of_uint63 (Uint63.of_Z z).

(** The number that a finite double denotes. *)
Definition to_Q (f : PrimFloat.float) : option Q :=
  match FloatOps.Prim2SF f with
  | SpecFloat.S754_zero _ => Some 0
  | SpecFloat.S754_finite s m e =>
      Some ((if s then -1 else 1) * inject_Z (Z.pos m) * 2 ^ e)
  | _ => None
  end.

(** The double nearest to 0.35, as [3152519739159347 / 2^53]. *)
Definition double_0_35 : PrimFloat.float :=
  PrimFloat.div (of_Z 3152519739159347) (of_Z 9007199254740992).

End KernelFloat.

(** ** Wear numbers in file names
    ([data_utils.extract_wear_number],
     [batch_processor.extract_wear_case_from_filename])

    File names are ASCII and paths use the POSIX separator. *)

Module FileNames.
Import Tabulation Tooth1ImageProcessor.

(** [s.split(sep)] for a one-character separator. *)
Fixpoint split (sep : ascii) (s : string) : list string :=
  match s with
  | EmptyString => [EmptyString]
  | String a s' =>
      if Ascii.eqb a sep then EmptyString :: split sep s'
      else match split sep s' with
           | [] => [String a EmptyString]
           | w :: ws => String a w :: ws
           end
  end.

(** [os.path.basename(p)]: what follows the last slash. *)
Definition basename (p : string) : string :=
  List.last (split "/" p) EmptyString.

(** [s[1:]] *)
Definition tail (s : string) : string :=
  match s with
  | EmptyString => EmptyString
  | String _ s' => s'
  end.

(** [extract_wear_number]; [None] is the [ValueError] of [int]. *)
Definition extract_wear_number (filename : string) : option Z :=
  let basename := basename filename in
  wear_match ← head (split " " basename);
  int (tail wear_match).

(** [s.lower()] *)
Definition lower_ascii (a : ascii) : ascii :=
  let n := nat_of_ascii a in
  if (65 <=? n)%nat && (n <=? 90)%nat then ascii_of_nat (n + 32) else a.

Fixpoint lower (s : string) : string :=
  match s with
  | EmptyString => EmptyString
  | String a s' => String (lower_ascii a) (lower s')
  end.

(** The class [\d]. *)
Definition is_digit (a : ascii) : bool :=
  let n := nat_of_ascii a in (48 <=? n)%nat && (n <=? 57)%nat.

(** The longest run of digits at the start of [s]. *)
Fixpoint take_digits (s : string) : string :=
  match s with
  | EmptyString => EmptyString
  | String a s' => if is_digit a then String a (take_digits s') else EmptyString
  end.

(** What follows [lit] when [s] starts with it. *)
Fixpoint strip_prefix (lit s : string) : option string :=
  match lit, s with
  | EmptyString, _ => Some s
  | String a lit', String b s' =>
      if Ascii.eqb a b then strip_prefix lit' s' else None
  | String _ _, EmptyString => None
  end.

(** A match of the pattern [lit(\d+)] at the start of [s]: the digits
    captured by the group. *)
Definition match_at (lit s : string) : option string :=
  rest ← strip_prefix lit s;
  match take_digits rest with
  | EmptyString => None
  | digits => Some digits
  end.

(** [re.search(lit + r'(\d+)', s)], as [match.group(1)]: the leftmost
    match, with the longest run of digits. *)
Fixpoint re_search (lit s : string) : option string :=
  match match_at lit s with
  | Some group => Some group
  | None =>
      match s with
      | EmptyString => None
      | String _ s' => re_search lit s'
      end
  end.

(** The loop over the patterns: the first one that matches and whose
    group converts gives the result. *)
Fixpoint first_pattern (patterns : list string) (s : string) (default_case : Z)
  : Z :=
  match patterns with
  | [] => default_case
  | pattern :: patterns' =>
      match re_search pattern s with
      | Some group =>
          match int group with
          | Some n => n
          | None => first_pattern patterns' s default_case
          end
      | None => first_pattern patterns' s default_case
      end
  end.

(** The literal parts of [wear(\d+)], [w(\d+)] and [(\d+)]. *)
Definition patterns : list string := ["wear"; "w"; ""].

Definition extract_wear_case_from_filename (filename : string)
    (default_case : Z) : Z :=
  if contains "healthy" (lower filename) then (-1)%Z
  else first_pattern patterns (lower filename) default_case.

(** Whether a digit occurs in [s]. *)
Fixpoint has_digit (s : string) : bool :=
  match s with
  | EmptyString => false
  | String a s' => is_digit a || has_digit s'
  end.

End FileNames.

(** ** The single-tooth table and its loader
    ([data_utils.save_table_format] for single-tooth results,
     [data_loader.load_single_tooth_data])

    A depth held as a Python [int] is written by pandas without a
    fraction; the text with the fraction ".0" written here loads to the
    same value. *)

Module SingleToothTable.
Import Tooth1 Tabulation.

(** [next(r['wear_depth_um'] for r in results if r['wear_case'] == case)];
    [None] is [StopIteration]. *)
Definition first_depth (results : list result) (case : Z) : option Q :=
  wear_depth_um <$> head (filter (λ r, wear_case r = case) results).

(** [save_table_format(results, filename, "tooth1")]: the file written, or
    [None] when an exception is caught and nothing is written. *)
Definition save_table_format (results : list result) : option csv :=
  match results with
  | [] => None
  | _ =>
      let wear_cases := Py.sorted id (wear_case <$> results) in
      wear_depths ← mapM (first_depth results) wear_cases;
      let columns := column_label <$> wear_cases in
      Some [columns; (λ d, format_cell (Some d)) <$> wear_depths]
  end.

(** The body of the loop over [row.items()]; [None] is a raised
    exception. *)
Definition load_cell (data : option (gmap Z Q))
    (item : string * option string) : option (gmap Z Q) :=
  data ← data;
  if String.prefix "W" item.1 then
    wear_case ← int (String.substring 1 (String.length item.1 - 1) item.1);
    value ← item.2;
    wear_depth ← float value;
    Some (<[wear_case := wear_depth]> data)
  else Some data.

(** The dictionary of a row as far as the field names go: [None] under
    the names a short row leaves out; the surplus of a long row sits under
    another key. *)
Definition DictReader_fields (fieldnames cells : list string)
  : list (string * option string) :=
  let padded :=
    (Some <$> cells) ++ replicate (length fieldnames - length cells) None in
  fold_left (λ d kv, dict_set kv.1 kv.2 d) (zip fieldnames padded) [].

(** The old long format, one record per row. *)
Definition load_long_row (fieldnames : list string)
    (data : option (gmap Z Q)) (cells : list string) : option (gmap Z Q) :=
  data ← data;
  let row := DictReader_fields fieldnames cells in
  wear_case ← mjoin (dict_get "wear_case" row) ≫= int;
  wear_depth ← mjoin (dict_get "wear_depth_um" row) ≫= float;
  Some (<[wear_case := wear_depth]> data).

(** [load_single_tooth_data]: [file] is the content of the results file,
    or [None] when it does not exist; any exception yields the empty
    dictionary. *)
Definition load_single_tooth_data (file : option csv) : gmap Z Q :=
  match file with
  | None => ∅
  | Some [] => ∅
  | Some (fieldnames :: rows) =>
      let rows := filter (λ cells, cells ≠ []) rows in
      if (1 <? length fieldnames)%nat
         && negb (bool_decide (head fieldnames = Some "wear_case"))
      then
        match rows with
        | [] => ∅
        | cells :: _ =>
            default ∅ (row ← DictReader_row fieldnames cells;
                       fold_left load_cell row (Some ∅))
        end
      else default ∅ (fold_left (load_long_row fieldnames) rows (Some ∅))
  end.

(** *** Auxiliary notions for the round trip *)

(** The item of the row dictionary for wear case [c]. *)
Definition row_item (results : list result) (c : Z) : string * option string :=
  (column_label c, Some (format_cell (first_depth results c))).

(** The value that comes back for wear case [c]. *)
Definition reloaded_depth (results : list result) (c : Z) : Q :=
  round1 (default 0 (first_depth results c)).

End SingleToothTable.

(** ** Statistics per wear case ([data_loader.calculate_statistics])

    The depths are doubles and the arithmetic on them rounds: a
    difference and a quotient are the exact results rounded by
    [binary64].  The sum of a list of doubles and the power operator are
    left open, the first because its algorithm depends on the Python
    version.  Overflow, on which the power operator raises, is not
    modelled.  The teeth of a wear case are kept as the items of their
    dictionary in insertion order, the order in which [values()] lists
    them. *)

Module Statistics.
Import Exn Tabulation.

(** [max(l)] on a non-empty list, the first element being [best]: a later
    element replaces it only when it is strictly greater. *)
Fixpoint max_from (best : Q) (l : list Q) : Q :=
  match l with
  | [] => best
  | x :: l' => max_from (if Py.ltb best x then x else best) l'
  end.

(** [x / y] on doubles. *)
Definition float_truediv (x y : Q) : M Q :=
  if Qeq_bool y 0 then inl ZeroDivisionError else inr (binary64 (x / y)).

(** [x - y] on doubles. *)
Definition float_sub (x y : Q) : Q := binary64 (x - y).

(** [len(l)] as a number. *)
Definition len {A} (l : list A) : Q := inject_Z (Z.of_nat (length l)).

Record case_statistics := mk_case_statistics {
  mean : Q;
  std_dev : Q;
  min : Q;
  max : Q;
  range : Q;
  count : nat
}.

Section statistics.
(** [sum(l)] on a list of doubles, and [x ** y]. *)
Context (float_sum : list Q → Q) (float_pow : Q → Q → Q).

(** The body of the loop for one wear case: [None] when the case has no
    depths and is left out. *)
Definition case_statistics_of (teeth_depths : list Q)
  : M (option case_statistics) :=
  match teeth_depths with
  | [] => mret None
  | first :: rest =>
      mean_depth ← float_truediv (float_sum teeth_depths) (len teeth_depths);
      variance ←
        float_truediv
          (float_sum ((λ x, float_pow (float_sub x mean_depth) 2)
                        <$> teeth_depths))
          (len teeth_depths);
      let std_dev := float_pow variance 0.5 in
      let min_depth := Py.min_by_from id first rest in
      let max_depth := max_from first rest in
      let range_depth := float_sub max_depth min_depth in
      mret (Some (mk_case_statistics mean_depth std_dev min_depth max_depth
                    range_depth (length teeth_depths)))
  end.

Definition statistics_step (statistics : M (gmap Z case_statistics))
    (item : Z * list (Z * Q)) : M (gmap Z case_statistics) :=
  statistics ← statistics;
  let teeth_depths := item.2.*2 in
  s ← case_statistics_of teeth_depths;
  mret (match s with
        | Some s => <[item.1 := s]> statistics
        | None => statistics
        end).

Definition calculate_statistics (all_teeth_data : gmap Z (list (Z * Q)))
  : M (gmap Z case_statistics) :=
  fold_left statistics_step (map_to_list all_teeth_data) (mret ∅).
End statistics.

End Statistics.

(** ** The multi-tooth pipeline
    ([wear_analyzer.analyze_single_gear_image],
     [batch_processor.analyze_all_teeth_wear_from_images],
     [Analyze_all_teeth.main])

    A gear image enters as what the segmentation reads from it: the
    contours found under the three thresholding methods and the shape of
    the image.  As in [extract_teeth_from_gear_image], the contour of a
    tooth stands for its cropped image. *)

Module MultiTooth.
Import AllTeeth ImageProcessor WearAnalyzer FileNames.

Section multi_tooth.
Context {contour : Type} `{!Vision contour}.
Context {rng : Type} (np_random_normal : Q → Q → rng → Q * rng).
(** [extract_features_from_tooth_image]; [None] is an exception raised
    inside it. *)
Context (extract_features_from_tooth_image : contour → option (list Q)).
(** [load_single_gear_image]: [None] when the file is missing or does
    not load. *)
Context (load_single_gear_image : string → option (list (list contour) * (Z * Z))).

(** The body of the loop over the extracted teeth. *)
Definition analyze_tooth (wear_case : Z) (st : list result * rng)
    (tooth : Z * contour) : list result * rng :=
  let '(results, g) := st in
  let '(tooth_number, tooth_image) := tooth in
  match extract_features_from_tooth_image tooth_image with
  | Some features =>
      let '(wear_depth, g) :=
        predict_wear_depth_from_features np_random_normal features
          wear_case tooth_number g in
      (results ++ [mk_result wear_case tooth_number wear_depth
                     "single_image_analysis"], g)
  | None => (results ++ [mk_result wear_case tooth_number 0.0 "error"], g)
  end.

Definition analyze_single_gear_image (image_path : string) (wear_case : Z)
    (g : rng) : list result * rng :=
  match load_single_gear_image image_path with
  | None => ([], g)
  | Some (found, shape) =>
      match extract_teeth_from_gear_image found shape with
      | [] => ([], g)
      | extracted_teeth =>
          fold_left (analyze_tooth wear_case) extracted_teeth ([], g)
      end
  end.

(** The body of the loop over the image files. *)
Definition analyze_image (st : list result * rng) (item : nat * string)
  : list result * rng :=
  let '(all_results, g) := st in
  let '(i, image_path) := item in
  let filename := basename image_path in
  let wear_case :=
    extract_wear_case_from_filename filename (Z.of_nat i + 1) in
  if (wear_case =? -1)%Z then st
  else
    let '(results, g) := analyze_single_gear_image image_path wear_case g in
    (all_results ++ results, g).

(** [analyze_all_teeth_wear_from_images], given the image files found in
    the folder. *)
Definition analyze_all_teeth_wear_from_images (image_files : list string)
    (g : rng) : list result * rng :=
  match image_files with
  | [] => ([], g)
  | _ =>
      let image_files :=
        Py.sorted
          (λ filepath, extract_wear_case_from_filename (basename filepath) 999)
          image_files in
      fold_left analyze_image (Py.enumerate image_files) ([], g)
  end.

(** [Analyze_all_teeth.main] up to what it prints: the results after
    monotonicity enforcement, and the table written. *)
Definition main (image_files : list string) (g : rng)
  : list result * option Tabulation.csv :=
  let all_teeth_results :=
    (analyze_all_teeth_wear_from_images image_files g).1 in
  match all_teeth_results with
  | [] => ([], None)
  | _ =>
      let all_teeth_results :=
        enforce_monotonicity_for_all_teeth all_teeth_results in
      (all_teeth_results, Tabulation.save_table_format all_teeth_results)
  end.
End multi_tooth.

End MultiTooth.

(** ** The single-tooth pipeline
    ([tooth1_analyzer.analyze_tooth1_wear_depth], [Analyze_tooth1.main])

    An image file enters as the contours found in the cleaned
    binarization of the image resized to 512 by 512. *)

Module Tooth1Pipeline.
Import Tooth1 ImageProcessor Tooth1ImageProcessor FileNames.

Definition healthy_path : string :=
  "database/Wear depth measurments/healthy scale 1000 micro meter.jpg".

(** [target_size = (512, 512)] *)
Definition target_shape : Z * Z := (512%Z, 512%Z).

Section tooth1_pipeline.
Context {contour : Type} `{!Vision contour}.
(** The contours of an image file; [None] when the file is missing or
    [cv2.imread] returns [None]. *)
Context (read_contours : string → option (list contour)).

(** The body of the loop over the worn images; [None] is an exception
    that leaves the function. *)
Definition analyze_worn_image (cfg : Config.tables)
    (healthy_teeth : list (Z * contour)) (results : option (list result))
    (worn_path : string) : option (list result) :=
  results ← results;
  wear_num ← extract_wear_number worn_path;
  match read_contours worn_path with
  | None => Some results
  | Some contours =>
      let worn_teeth := extract_teeth_contours_improved contours target_shape in
      match worn_teeth, healthy_teeth with
      | [], _ => Some results
      | _, [] => Some results
      | _, (_, healthy_tooth1) :: _ =>
          match find_most_similar_tooth_contour_early_wear
                  healthy_tooth1 worn_teeth 300.0 with
          | Match worn_idx worn_tooth1 =>
              match extract_early_wear_features
                      healthy_tooth1 worn_tooth1 6.0 with
              | inr features =>
                  Some (results
                        ++ [resolve_wear_depth cfg wear_num features])
              | inl _ => None
              end
          | _ => Some results
          end
      end
  end.

(** [analyze_tooth1_wear_depth], given the files that match [W*.jpg];
    the sort raises when the key of a file does. *)
Definition analyze_tooth1_wear_depth (cfg : Config.tables)
    (wear_files : list string) : option (list result) :=
  _ ← mapM extract_wear_number wear_files;
  let wear_files :=
    Py.sorted (λ f, default 0%Z (extract_wear_number f)) wear_files in
  match read_contours healthy_path with
  | None => Some []
  | Some contours =>
      match extract_teeth_contours_improved contours target_shape with
      | [] => Some []
      | healthy_teeth =>
          fold_left (analyze_worn_image cfg healthy_teeth) wear_files
                    (Some [])
      end
  end.

(** [Analyze_tooth1.main] through the call of [save_results_to_csv]:
    the results after monotonicity enforcement, and the table written.
    The summary and the precision printed afterwards are left out. *)
Definition main (cfg : Config.tables) (wear_files : list string)
  : option (list result * option Tabulation.csv) :=
  tooth1_results ← analyze_tooth1_wear_depth cfg wear_files;
  match tooth1_results with
  | [] => Some ([], None)
  | _ =>
      let tooth1_results := enforce_monotonicity_for_tooth1 tooth1_results in
      Some (tooth1_results,
            SingleToothTable.save_table_format tooth1_results)
  end.
End tooth1_pipeline.

End Tooth1Pipeline.

(** ** The generic results loader ([data_loader.load_results_csv])

    The function returns a dictionary or a list, depending on the
    analysis type and on whether the load succeeds.  A dictionary maps a
    wear case to a depth or to the dictionary of the teeth of the case. *)

Module ResultsLoader.
Import Tabulation.

(** A row of [csv.DictReader]: the cells under the field names, and the
    surplus of a row longer than the header under the key [None]. *)
Definition dict_row : Type :=
  list (string * option string) * option (list string).

(** The rows that [csv.DictReader] yields: the first row of the file
    gives the field names, blank rows are skipped. *)
Definition DictReader (file : csv) : list dict_row :=
  match file with
  | [] => []
  | fieldnames :: rows =>
      (λ cells,
         (SingleToothTable.DictReader_fields fieldnames cells,
          if (length fieldnames <? length cells)%nat
          then Some (drop (length fieldnames) cells) else None))
      <$> filter (λ cells, cells ≠ []) rows
  end.

Inductive loaded :=
  | Dict (data : gmap Z (Q + gmap Z Q))
  | List (rows : list dict_row).

(** The bodies of the two loops; [None] is a raised exception. *)
Definition load_tooth1_row (data : option (gmap Z (Q + gmap Z Q)))
    (row : dict_row) : option (gmap Z (Q + gmap Z Q)) :=
  data ← data;
  wear_case ← mjoin (dict_get "wear_case" row.1) ≫= int;
  wear_depth ← mjoin (dict_get "wear_depth_um" row.1) ≫= float;
  Some (<[wear_case := inl wear_depth]> data).

Definition load_all_teeth_row (data : option (gmap Z (Q + gmap Z Q)))
    (row : dict_row) : option (gmap Z (Q + gmap Z Q)) :=
  data ← data;
  wear_case ← mjoin (dict_get "wear_case" row.1) ≫= int;
  tooth_number ← mjoin (dict_get "tooth_number" row.1) ≫= int;
  wear_depth ← mjoin (dict_get "wear_depth_um" row.1) ≫= float;
  teeth ← match data !! wear_case with
          | None => Some ∅
          | Some (inr teeth) => Some teeth
          | Some (inl _) => None
          end;
  Some (<[wear_case := inr (<[tooth_number := wear_depth]> teeth)]> data).

(** [load_results_csv]: [file] is the content of the file, or [None] when
    it does not exist or does not open. *)
Definition load_results_csv (file : option csv) (analysis_type : string)
  : loaded :=
  let failure :=
    if String.eqb analysis_type "tooth1" || String.eqb analysis_type "picture"
    then Dict ∅ else List [] in
  match file with
  | None => failure
  | Some file =>
      let reader := DictReader file in
      if String.eqb analysis_type "tooth1" then
        match fold_left load_tooth1_row reader (Some ∅) with
        | Some data => Dict data
        | None => failure
        end
      else if String.eqb analysis_type "all_teeth" then
        match fold_left load_all_teeth_row reader (Some ∅) with
        | Some data => Dict data
        | None => failure
        end
      else List reader
  end.

End ResultsLoader.

(** ** The integrated table
    ([picture_results_display.calculate_integrated_statistics])

    The depth of tooth 1 from the single-tooth results is put in front of
    the depths of the wear case in the multi-tooth results.  As for the
    statistics per wear case, the arithmetic is that of doubles and the
    teeth of a wear case are the items of their dictionary in insertion
    order. *)

Module IntegratedStatistics.
Import Exn Tabulation.

Record integrated_case := mk_integrated_case {
  tooth1_depth : Q;
  teeth_range : string;
  mean_depth : Q;
  std_dev : Q
}.

Section integrated.
(** [sum(l)] on a list of doubles, [x ** y], and the text of a double
    under the format [.1f]. *)
Context (float_sum : list Q → Q) (float_pow : Q → Q → Q)
        (format_1f : Q → string).

(** The body of the loop over the wear cases of the single-tooth
    data. *)
Definition integrated_step (all_teeth_data : gmap Z (list (Z * Q)))
    (integrated_stats : M (gmap Z integrated_case)) (item : Z * Q)
  : M (gmap Z integrated_case) :=
  integrated_stats ← integrated_stats;
  let '(wear_case, tooth1_depth) := item in
  s ← match all_teeth_data !! wear_case with
      | Some teeth =>
          let teeth_2_35_depths := teeth.*2 in
          let all_teeth_depths := tooth1_depth :: teeth_2_35_depths in
          mean_depth ←
            Statistics.float_truediv (float_sum all_teeth_depths)
              (Statistics.len all_teeth_depths);
          variance ←
            Statistics.float_truediv
              (float_sum
                 ((λ x, float_pow (Statistics.float_sub x mean_depth) 2)
                    <$> all_teeth_depths))
              (Statistics.len all_teeth_depths);
          let std_dev := float_pow variance 0.5 in
          let teeth_range :=
            format_1f (Py.min_by_from id tooth1_depth teeth_2_35_depths)
            +:+ "-"
            +:+ format_1f (Statistics.max_from tooth1_depth teeth_2_35_depths)
          in
          mret (mk_integrated_case tooth1_depth teeth_range mean_depth
                  std_dev)
      | None =>
          mret (mk_integrated_case tooth1_depth
                  (format_1f tooth1_depth +:+ "-" +:+ format_1f tooth1_depth)
                  tooth1_depth 0)
      end;
  mret (<[wear_case := s]> integrated_stats).

Definition calculate_integrated_statistics (single_tooth_data : gmap Z Q)
    (all_teeth_data : gmap Z (list (Z * Q))) : M (gmap Z integrated_case) :=
  fold_left (integrated_step all_teeth_data)
            (Py.sorted fst (map_to_list single_tooth_data)) (mret ∅).

(** *** Auxiliary notion *)

(** What the entry of a wear case says, given the depth [d] of tooth 1
    and the teeth of the case in the multi-tooth data, if any. *)
Definition entry_of (d : Q) (teeth : option (list (Z * Q)))
    (s : integrated_case) : Prop :=
  tooth1_depth s = d
  ∧ match teeth with
    | Some teeth =>
        let all_teeth_depths := d :: teeth.*2 in
        ∃ lo hi,
          teeth_range s = format_1f lo +:+ "-" +:+ format_1f hi
          ∧ lo ∈ all_teeth_depths ∧ hi ∈ all_teeth_depths
          ∧ (∀ x, x ∈ all_teeth_depths → lo <= x ∧ x <= hi)
          ∧ mean_depth s
            = binary64 (float_sum all_teeth_depths
                        / Statistics.len all_teeth_depths)
    | None =>
        teeth_range s = format_1f d +:+ "-" +:+ format_1f d
        ∧ mean_depth s = d ∧ std_dev s = 0
    end.
End integrated.

End IntegratedStatistics.

(** * Part II: lemmas and theorems *)

(** * Facts about the Python built-ins *)

Section py_facts.
Context {A B : Type}.

Lemma ltb_spec (a b : Q) : Py.ltb a b = true ↔ a < b.
Proof.
  unfold Py.ltb. rewrite negb_true_iff. split.
  - intros H. apply Qnot_le_lt. intros Hle.
    apply Qle_bool_iff in Hle. congruence.
  - intros H. destruct (Qle_bool b a) eqn:E; [|done].
    apply Qle_bool_iff in E. lra.
Qed.

Lemma ltb_false (a b : Q) : Py.ltb a b = false ↔ b <= a.
Proof.
  unfold Py.ltb. rewrite negb_false_iff. apply Qle_bool_iff.
Qed.

Lemma insert_by_perm (le : A → A → bool) x l : Py.insert_by le x l ≡ₚ x :: l.
Proof.
  induction l as [|y l IH]; simpl; [done|].
  destruct (le x y); [done|].
  rewrite IH. apply Permutation_swap.
Qed.

Lemma sort_by_perm (le : A → A → bool) l : Py.sort_by le l ≡ₚ l.
Proof.
  induction l as [|x l IH]; simpl; [done|].
  by rewrite insert_by_perm, IH.
Qed.

Lemma sorted_perm (key : A → Z) l : Py.sorted key l ≡ₚ l.
Proof. apply sort_by_perm. Qed.

Lemma insert_by_map (f : A → B) (le : B → B → bool) x l :
  f <$> Py.insert_by (λ a b, le (f a) (f b)) x l
  = Py.insert_by le (f x) (f <$> l).
Proof.
  induction l as [|y l IH]; simpl; [done|].
  destruct (le (f x) (f y)); simpl; [done|]. by f_equal.
Qed.

Lemma sort_by_map (f : A → B) (le : B → B → bool) l :
  f <$> Py.sort_by (λ a b, le (f a) (f b)) l = Py.sort_by le (f <$> l).
Proof.
  induction l as [|x l IH]; simpl; [done|].
  rewrite insert_by_map. by f_equal.
Qed.

Lemma sorted_map (f : A → B) (key : B → Z) l :
  f <$> Py.sorted (key ∘ f) l = Py.sorted key (f <$> l).
Proof. unfold Py.sorted. by rewrite <-sort_by_map. Qed.

Lemma insert_by_ext (le1 le2 : A → A → bool) x l :
  (∀ a b, le1 a b = le2 a b) → Py.insert_by le1 x l = Py.insert_by le2 x l.
Proof.
  intros E. induction l as [|y l IH]; simpl; [done|].
  by rewrite !E, IH.
Qed.

Lemma sort_by_ext (le1 le2 : A → A → bool) l :
  (∀ a b, le1 a b = le2 a b) → Py.sort_by le1 l = Py.sort_by le2 l.
Proof.
  intros E. induction l as [|x l IH]; simpl; [done|].
  rewrite IH. by apply insert_by_ext.
Qed.

Lemma sorted_ext (k1 k2 : A → Z) l :
  (∀ y, k1 y = k2 y) → Py.sorted k1 l = Py.sorted k2 l.
Proof. intros E. apply sort_by_ext. intros a b. by rewrite !E. Qed.

Lemma enumerate_from_app (l1 l2 : list A) n :
  Py.enumerate_from n (l1 ++ l2)
  = Py.enumerate_from n l1 ++ Py.enumerate_from (n + length l1) l2.
Proof.
  revert n. induction l1 as [|x l1 IH]; intros n; simpl.
  - by rewrite Nat.add_0_r.
  - rewrite IH. do 3 f_equal. lia.
Qed.

Lemma enumerate_snoc (l : list A) x :
  Py.enumerate (l ++ [x]) = Py.enumerate l ++ [(length l, x)].
Proof. unfold Py.enumerate. by rewrite enumerate_from_app. Qed.
End py_facts.

Lemma leb_spec (a b : Q) : Py.leb a b = true ↔ a <= b.
Proof. apply Qle_bool_iff. Qed.

(** ** Sorted outputs and minima *)

Section sorting.
Context {A : Type} (key : A → Q).

Lemma nondecreasing_cons (x : Q) (l : list Q) :
  nondecreasing (x :: l)
  ↔ match l with [] => True | y :: _ => x <= y end ∧ nondecreasing l.
Proof. done. Qed.

Lemma insert_by_nondecreasing x l :
  nondecreasing (key <$> l) →
  nondecreasing (key <$> Py.insert_by (λ a b, Py.leb (key a) (key b)) x l).
Proof.
  induction l as [|y l IH]; intros Hl; [done|].
  cbn [Py.insert_by]. destruct (Py.leb (key x) (key y)) eqn:E.
  - apply leb_spec in E. rewrite !fmap_cons. split; [done|].
    by rewrite !fmap_cons in Hl.
  - assert (key y <= key x) as Hyx.
    { destruct (Qlt_le_dec (key y) (key x)) as [H|H]; [lra|].
      apply leb_spec in H. congruence. }
    rewrite fmap_cons in Hl. apply nondecreasing_cons in Hl as [Hhd Htl].
    specialize (IH Htl). rewrite fmap_cons. apply nondecreasing_cons.
    split; [|done].
    destruct l as [|z l]; [done|]. cbn [Py.insert_by] in *.
    destruct (Py.leb (key x) (key z)); rewrite fmap_cons; [done|].
    by rewrite fmap_cons in Hhd.
Qed.

Lemma sorted_float_nondecreasing l :
  nondecreasing (key <$> Py.sorted_float key l).
Proof.
  unfold Py.sorted_float. induction l as [|x l IH]; [done|].
  cbn [Py.sort_by]. by apply insert_by_nondecreasing.
Qed.

Lemma sorted_float_perm l : Py.sorted_float key l ≡ₚ l.
Proof. apply sort_by_perm. Qed.

Lemma sorted_float_reverse_perm l : Py.sorted_float_reverse key l ≡ₚ l.
Proof. apply sort_by_perm. Qed.

Lemma min_by_from_spec l : ∀ best,
  Py.min_by_from key best l ∈ best :: l
  ∧ ∀ x, x ∈ best :: l → key (Py.min_by_from key best l) <= key x.
Proof.
  induction l as [|y l IH]; intros best; cbn [Py.min_by_from].
  - split; [by left|]. intros x Hx. apply list_elem_of_singleton in Hx as ->. lra.
  - destruct (IH (if Py.ltb (key y) (key best) then y else best)) as [Hin Hmin].
    split.
    + apply elem_of_cons in Hin as [->|Hin].
      * destruct (Py.ltb _ _); [right; left|left].
      * by do 2 right.
    + intros x Hx.
      assert (key (if Py.ltb (key y) (key best) then y else best) <= key best
              ∧ key (if Py.ltb (key y) (key best) then y else best) <= key y)
        as [Hb Hy].
      { destruct (Py.ltb (key y) (key best)) eqn:E;
          [apply ltb_spec in E|apply ltb_false in E]; split; lra. }
      pose proof (Hmin _ (list_elem_of_here _ _)) as H0.
      apply elem_of_cons in Hx as [->|Hx]; [lra|].
      apply elem_of_cons in Hx as [->|Hx]; [lra|].
      apply Hmin. by right.
Qed.
End sorting.

Lemma nondecreasing_head (x : Q) (l : list Q) :
  nondecreasing (x :: l) → ∀ y, y ∈ l → x <= y.
Proof.
  revert x. induction l as [|z l IH]; intros x Hnd y Hy.
  - by apply elem_of_nil in Hy.
  - destruct Hnd as [Hxz Hl]. apply elem_of_cons in Hy as [->|Hy]; [done|].
    apply Qle_trans with z; [done|]. by apply IH.
Qed.

(** In a non-decreasing list an earlier entry is at most a later one. *)
Lemma nondecreasing_lookup (l : list Q) : ∀ i j x y,
  nondecreasing l → (i < j)%nat → l !! i = Some x → l !! j = Some y → x <= y.
Proof.
  induction l as [|z l IH]; intros i j x y Hnd Hij Hi Hj; [done|].
  destruct j as [|j]; [lia|]. destruct i as [|i].
  - injection Hi as ->. eapply nondecreasing_head; [done|].
    by eapply list_elem_of_lookup_2.
  - apply (IH i j); [apply Hnd|lia|done..].
Qed.

(** The integer keys of a sorted list ascend. *)
Lemma sorted_keys_nondecreasing {A} (key : A → Z) (l : list A) :
  nondecreasing ((λ x, inject_Z (key x)) <$> Py.sorted key l).
Proof.
  assert (Py.sorted key l = Py.sorted_float (λ x, inject_Z (key x)) l) as ->.
  { apply sort_by_ext. intros a b. unfold Py.leb.
    destruct (Z.leb_spec (key a) (key b)) as [H|H].
    - symmetry. apply Qle_bool_iff. by rewrite <-Zle_Qle.
    - destruct (Qle_bool _ _) eqn:E; [|done].
      apply Qle_bool_iff in E. rewrite <-Zle_Qle in E. lia. }
  apply sorted_float_nondecreasing.
Qed.

(** Case analysis on the comparisons hidden in [max], [min] and [abs]. *)
Ltac py_cases :=
  unfold Py.max, Py.min, Py.abs in *;
  repeat match goal with
  | |- context [Py.ltb ?a ?b] =>
      let E := fresh "E" in
      destruct (Py.ltb a b) eqn:E;
      [apply ltb_spec in E | apply ltb_false in E]
  | H : context [Py.ltb ?a ?b] |- _ =>
      let E := fresh "E" in
      destruct (Py.ltb a b) eqn:E;
      [apply ltb_spec in E | apply ltb_false in E]
  end.

(** ** The walk over one tooth *)

Section all_teeth_walk.
Import AllTeeth.

Lemma skeleton_insert st i r d :
  st !! i = Some r → skeleton (<[i := set_wear_depth_um r d]> st) = skeleton st.
Proof.
  intros H. unfold skeleton. rewrite list_fmap_insert. simpl.
  apply list_insert_id. by rewrite list_lookup_fmap, H.
Qed.

Lemma skeleton_length st st' : skeleton st = skeleton st' → length st = length st'.
Proof.
  intros H. apply (f_equal length) in H. unfold skeleton in H.
  by rewrite !length_fmap in H.
Qed.

Lemma skeleton_lookup st st' i :
  skeleton st = skeleton st' →
  wear_case (st !!! i) = wear_case (st' !!! i)
  ∧ tooth_number (st !!! i) = tooth_number (st' !!! i)
  ∧ method (st !!! i) = method (st' !!! i).
Proof.
  intros H. pose proof (skeleton_length _ _ H) as Hlen.
  assert (skeleton st !! i = skeleton st' !! i) as Hi by by rewrite H.
  unfold skeleton in Hi. rewrite !list_lookup_fmap in Hi.
  rewrite !list_lookup_total_alt.
  destruct (st !! i) as [r|], (st' !! i) as [r'|]; simpl in *; try done.
  inversion Hi. done.
Qed.

Lemma walk_step_spec st mx i r :
  st !! i = Some r →
  ∃ st' mx', walk_step (st, mx) i = (st', mx')
    ∧ skeleton st' = skeleton st
    ∧ (∀ j, j ≠ i → st' !! j = st !! j)
    ∧ depth_at st' i = mx'
    ∧ mx' = (if Py.ltb (wear_depth_um r) mx then mx else wear_depth_um r).
Proof.
  intros Hi. unfold walk_step. rewrite Hi.
  destruct (Py.ltb (wear_depth_um r) mx) eqn:E.
  - eexists _, _. split; [done|]. split; [by apply skeleton_insert|].
    split; [intros j Hj; by apply list_lookup_insert_ne|].
    split; [|done]. unfold depth_at.
    rewrite list_lookup_total_alt, list_lookup_insert_eq; [done|].
    by eapply lookup_lt_Some.
  - eexists _, _. split; [done|]. split; [done|]. split; [done|].
    split; [|done]. unfold depth_at.
    by rewrite list_lookup_total_alt, Hi.
Qed.

Lemma walk_fold_spec refs : ∀ st mx,
  NoDup refs → (∀ i, i ∈ refs → i < length st)%nat →
  ∃ st' mx', fold_left walk_step refs (st, mx) = (st', mx')
    ∧ skeleton st' = skeleton st
    ∧ (∀ j, j ∉ refs → st' !! j = st !! j)
    ∧ depth_at st' <$> refs = flat_clamp mx (depth_at st <$> refs).
Proof.
  induction refs as [|i refs IH]; intros st mx Hnd Hlt.
  - eexists _, _. simpl. done.
  - apply NoDup_cons in Hnd as [Hni Hnd].
    destruct (lookup_lt_is_Some_2 st i) as [r Hr]; [apply Hlt; left|].
    destruct (walk_step_spec st mx i r Hr) as (st1 & mx1 & E1 & Hsk1 & Hoth1 & Hd1 & Hmx1).
    destruct (IH st1 mx1 Hnd) as (st' & mx' & E & Hsk & Hoth & Hd).
    { intros j Hj. rewrite (skeleton_length _ _ Hsk1). apply Hlt. by right. }
    exists st', mx'. cbn [fold_left]. rewrite E1. split; [done|].
    split; [congruence|]. split.
    { intros j Hj. apply not_elem_of_cons in Hj as [Hji Hj].
      rewrite Hoth by done. by apply Hoth1. }
    rewrite !fmap_cons.
    assert (depth_at st i = wear_depth_um r) as ->.
    { unfold depth_at. by rewrite list_lookup_total_alt, Hr. }
    assert (depth_at st' i = depth_at st1 i) as ->.
    { unfold depth_at. by rewrite !list_lookup_total_alt, Hoth. }
    assert (depth_at st1 <$> refs = depth_at st <$> refs) as Hsame.
    { apply list_fmap_ext. intros k j Hj. apply list_elem_of_lookup_2 in Hj.
      unfold depth_at. rewrite !list_lookup_total_alt, Hoth1; [done|].
      intros ->. done. }
    rewrite Hd, Hsame, Hd1, Hmx1. simpl.
    by destruct (Py.ltb (wear_depth_um r) mx).
Qed.

Lemma walk_group_spec st refs :
  NoDup refs → (∀ i, i ∈ refs → i < length st)%nat →
  skeleton (walk_group st refs) = skeleton st
  ∧ (∀ j, j ∉ refs → walk_group st refs !! j = st !! j)
  ∧ depth_at (walk_group st refs) <$> refs = flat_clamp 0 (depth_at st <$> refs).
Proof.
  intros Hnd Hlt. unfold walk_group.
  destruct (walk_fold_spec refs st 0 Hnd Hlt) as (st' & mx' & E & H).
  by rewrite E.
Qed.
End all_teeth_walk.

(** ** The groups built by the pass *)

Section all_teeth_groups.
Import AllTeeth.

Lemma filter_ext_elem {A} (P1 P2 : A → Prop)
    `{!∀ x, Decision (P1 x), !∀ x, Decision (P2 x)} (l : list A) :
  (∀ x, x ∈ l → P1 x ↔ P2 x) → filter P1 l = filter P2 l.
Proof.
  induction l as [|x l IH]; intros Hext; [done|].
  rewrite !filter_cons. rewrite IH by (intros y Hy; apply Hext; by right).
  destruct (decide (P1 x)) as [H1|H1], (decide (P2 x)) as [H2|H2]; try done.
  - destruct H2. apply Hext; [left|done].
  - destruct H1. apply Hext; [left|done].
Qed.

Lemma tooth_refs_snoc k l x :
  tooth_refs k (l ++ [x])
  = tooth_refs k l ++ (if decide (tooth_number x = k) then [length l] else []).
Proof.
  unfold tooth_refs. rewrite length_app. simpl length.
  rewrite seq_app, filter_app. simpl seq. f_equal.
  - apply filter_ext_elem. intros i Hi. apply elem_of_seq in Hi.
    unfold tooth_at. rewrite lookup_total_app_l by lia. done.
  - rewrite filter_cons, filter_nil. unfold tooth_at.
    rewrite lookup_total_app_r by lia. rewrite Nat.sub_diag. simpl.
    by repeat case_decide.
Qed.

Lemma elem_of_tooth_refs t st j :
  j ∈ tooth_refs t st ↔ (j < length st)%nat ∧ tooth_at st j = t.
Proof.
  unfold tooth_refs. rewrite list_elem_of_filter, elem_of_seq. intuition lia.
Qed.

Lemma NoDup_tooth_refs t st : NoDup (tooth_refs t st).
Proof. apply NoDup_filter, NoDup_seq. Qed.

Lemma group_append_fmap (f f' : Z → list nat) keys t i :
  NoDup keys →
  (∀ k, k ≠ t → f' k = f k) →
  f' t = f t ++ [i] →
  (t ∉ keys → f t = []) →
  group_append t i ((λ k, (k, f k)) <$> keys)
  = (λ k, (k, f' k)) <$> (if decide (t ∈ keys) then keys else keys ++ [t]).
Proof.
  intros Hnd Hne Heq Hnil. induction keys as [|k ks IH].
  - simpl. rewrite Heq, Hnil; [done|]. apply not_elem_of_nil.
  - apply NoDup_cons in Hnd as [Hk Hnd]. rewrite fmap_cons. simpl.
    destruct (Z.eqb_spec k t) as [->|Hkt].
    + rewrite decide_True by left. rewrite fmap_cons, Heq. f_equal.
      apply list_fmap_ext. intros ? k' Hk'. rewrite Hne; [done|].
      intros ->. apply Hk. by eapply list_elem_of_lookup_2.
    + rewrite IH; [|done|].
      2:{ intros Ht. apply Hnil. by apply not_elem_of_cons. }
      destruct (decide (t ∈ ks)) as [Hin|Hin].
      * rewrite decide_True by by right. by rewrite fmap_cons, Hne.
      * rewrite decide_False by (apply not_elem_of_cons; done).
        cbn [app]. by rewrite fmap_cons, Hne.
Qed.

Lemma group_by_tooth_snoc l x :
  group_by_tooth (l ++ [x])
  = group_append (tooth_number x) (length l) (group_by_tooth l).
Proof.
  unfold group_by_tooth. by rewrite enumerate_snoc, fold_left_app.
Qed.

(** The groups are exactly the per-tooth reference lists, in the order in
    which the teeth first appear. *)
Lemma group_by_tooth_spec l :
  ∃ keys, NoDup keys
    ∧ (∀ t, t ∉ keys → tooth_refs t l = [])
    ∧ group_by_tooth l = (λ t, (t, tooth_refs t l)) <$> keys.
Proof.
  induction l as [|x l IH] using rev_ind.
  - exists []. split; [constructor|]. done.
  - destruct IH as (keys & Hnd & Hnil & Hg).
    exists (if decide (tooth_number x ∈ keys) then keys else keys ++ [tooth_number x]).
    split; [|split].
    + case_decide; [done|]. apply NoDup_app. split; [done|].
      split; [|apply NoDup_singleton].
      intros y Hy Hy'. apply list_elem_of_singleton in Hy'. by subst.
    + intros t Ht. rewrite tooth_refs_snoc.
      assert ((t ∉ keys) ∧ (t ≠ tooth_number x)) as [Ht1 Ht2].
      { case_decide; [split; [done|by intros ->]|].
        apply not_elem_of_app in Ht as [? Ht]. split; [done|].
        intros ->. apply Ht. by left. }
      rewrite Hnil by done. by rewrite decide_False.
    + rewrite group_by_tooth_snoc, Hg.
      apply group_append_fmap; [done|..].
      * intros k Hk. rewrite tooth_refs_snoc, decide_False by done.
        by rewrite app_nil_r.
      * by rewrite tooth_refs_snoc, decide_True.
      * apply Hnil.
Qed.
End all_teeth_groups.

(** ** Monotonicity and idempotence of the multi-tooth pass *)

Section all_teeth_facts.
Import AllTeeth.

Lemma skeleton_tooth_at st st' i :
  skeleton st = skeleton st' → tooth_at st i = tooth_at st' i.
Proof. intros H. unfold tooth_at. by apply skeleton_lookup. Qed.

Lemma skeleton_tooth_refs st st' t :
  skeleton st = skeleton st' → tooth_refs t st = tooth_refs t st'.
Proof.
  intros H. unfold tooth_refs. rewrite (skeleton_length _ _ H).
  apply filter_ext_elem. intros i _. by rewrite (skeleton_tooth_at _ _ i H).
Qed.

Lemma skeleton_sort_group st st' refs :
  skeleton st = skeleton st' → sort_group st refs = sort_group st' refs.
Proof.
  intros H. unfold sort_group. apply sorted_ext. intros i.
  by apply skeleton_lookup.
Qed.

Lemma elem_of_sort_group l refs j : j ∈ sort_group l refs ↔ j ∈ refs.
Proof. unfold sort_group. by rewrite sorted_perm. Qed.

Lemma NoDup_sort_group l refs : NoDup refs → NoDup (sort_group l refs).
Proof. unfold sort_group. by rewrite sorted_perm. Qed.

Lemma elem_of_sorted_refs l t j :
  j ∈ sorted_refs l t ↔ (j < length l)%nat ∧ tooth_at l j = t.
Proof. unfold sorted_refs. by rewrite elem_of_sort_group, elem_of_tooth_refs. Qed.

Lemma fold_groups_spec l keys : ∀ st,
  NoDup keys → skeleton st = skeleton l →
  let final := fold_left (λ res g, walk_group res g.2)
                 ((λ t, (t, sorted_refs l t)) <$> keys) st in
  skeleton final = skeleton l
  ∧ (∀ j, tooth_at l j ∉ keys → final !! j = st !! j)
  ∧ (∀ t, t ∈ keys →
       depth_at final <$> sorted_refs l t
       = flat_clamp 0 (depth_at st <$> sorted_refs l t)).
Proof.
  induction keys as [|k ks IH]; intros st Hnd Hsk; simpl.
  { split; [done|]. split; [done|]. intros t Ht. by apply elem_of_nil in Ht. }
  apply NoDup_cons in Hnd as [Hk Hnd].
  destruct (walk_group_spec st (sorted_refs l k)) as (Hsk1 & Hoth1 & Hd1).
  { apply NoDup_sort_group, NoDup_tooth_refs. }
  { intros i Hi. apply elem_of_sorted_refs in Hi as [Hi _].
    by rewrite (skeleton_length _ _ Hsk). }
  set (st1 := walk_group st (sorted_refs l k)) in *.
  destruct (IH st1 Hnd) as (Hskf & Hothf & Hdf); [congruence|].
  split; [done|]. split.
  - intros j Hj. apply not_elem_of_cons in Hj as [Hjk Hj].
    rewrite Hothf by done. apply Hoth1.
    intros Hin. apply elem_of_sorted_refs in Hin as [_ Hin]. done.
  - intros t Ht. apply elem_of_cons in Ht as [->|Ht].
    + rewrite <-Hd1. apply list_fmap_ext. intros ? j Hj.
      apply list_elem_of_lookup_2, elem_of_sorted_refs in Hj as [_ Hj].
      unfold depth_at. rewrite !list_lookup_total_alt, Hothf; [done|].
      by rewrite Hj.
    + rewrite Hdf by done. f_equal. apply list_fmap_ext. intros ? j Hj.
      apply list_elem_of_lookup_2, elem_of_sorted_refs in Hj as [_ Hj].
      unfold depth_at. rewrite !list_lookup_total_alt, Hoth1; [done|].
      intros Hin. apply elem_of_sorted_refs in Hin as [_ Hin].
      apply Hk. congruence.
Qed.

(** What the whole pass does: nothing but depths changes, and along each
    tooth's sorted references the depths become the flat clamp of the old
    ones. *)
Lemma enforce_spec l :
  let out := enforce_monotonicity_for_all_teeth l in
  skeleton out = skeleton l
  ∧ ∀ t, depth_at out <$> sorted_refs l t
         = flat_clamp 0 (depth_at l <$> sorted_refs l t).
Proof.
  destruct l as [|x l'] eqn:El.
  { simpl. split; [done|]. intros t. done. }
  rewrite <-El. assert (enforce_monotonicity_for_all_teeth l =
    fold_left (λ res g, walk_group res g.2)
      ((λ g, (g.1, sort_group l g.2)) <$> group_by_tooth l) l) as ->.
  { by rewrite El. }
  clear El x l'.
  destruct (group_by_tooth_spec l) as (keys & Hnd & Hnil & ->).
  rewrite <-list_fmap_compose.
  destruct (fold_groups_spec l keys l Hnd eq_refl) as (Hsk & Hoth & Hd).
  split; [done|]. intros t. destruct (decide (t ∈ keys)) as [Ht|Ht].
  - by apply Hd.
  - unfold sorted_refs. rewrite (Hnil t Ht). done.
Qed.

Lemma filter_lookup_total {A} `{!Inhabited A} (P : A → Prop)
    `{!∀ x, Decision (P x)} (l : list A) :
  filter P l = (l !!!.) <$> filter (λ i, P (l !!! i)) (seq 0 (length l)).
Proof.
  induction l as [|x l IH] using rev_ind; [done|].
  rewrite length_app, seq_app, !filter_app, fmap_app. simpl. f_equal.
  - rewrite IH at 1.
    rewrite (filter_ext_elem (λ i, P ((l ++ [x]) !!! i)) (λ i, P (l !!! i))).
    2:{ intros i Hi. apply elem_of_seq in Hi. by rewrite lookup_total_app_l by lia. }
    apply list_fmap_ext. intros ? i Hi.
    apply list_elem_of_lookup_2, list_elem_of_filter in Hi as [_ Hi].
    apply elem_of_seq in Hi. by rewrite lookup_total_app_l by lia.
  - rewrite !filter_cons, !filter_nil.
    assert ((l ++ [x]) !!! length l = x) as Hx.
    { rewrite lookup_total_app_r by lia. by rewrite Nat.sub_diag. }
    rewrite Hx. case_decide; [|done]. simpl. by rewrite Hx.
Qed.

Lemma tooth_history_refs l st t :
  skeleton st = skeleton l →
  tooth_history t st = depth_at st <$> sorted_refs l t.
Proof.
  intros Hsk. unfold tooth_history, sorted_refs.
  rewrite (filter_lookup_total (λ r, tooth_number r = t) st).
  change (filter (λ i, tooth_number (st !!! i) = t) (seq 0 (length st)))
    with (tooth_refs t st).
  rewrite <-sorted_map, <-list_fmap_compose.
  rewrite (skeleton_tooth_refs _ _ t Hsk).
  change (Py.sorted (wear_case ∘ (st !!!.)) (tooth_refs t l))
    with (sort_group st (tooth_refs t l)).
  by rewrite (skeleton_sort_group _ _ _ Hsk).
Qed.

Lemma flat_clamp_nondecreasing ds : ∀ mx,
  nondecreasing (flat_clamp mx ds)
  ∧ match flat_clamp mx ds with [] => True | d :: _ => mx <= d end.
Proof.
  induction ds as [|d ds IH]; intros mx; simpl; [done|].
  destruct (Py.ltb d mx) eqn:E.
  - destruct (IH mx) as [H1 H2]. simpl. split; [|lra].
    split; [|done]. by destruct (flat_clamp mx ds).
  - destruct (IH d) as [H1 H2]. apply ltb_false in E. simpl. split; [|done].
    split; [|done]. by destruct (flat_clamp d ds).
Qed.

Lemma flat_clamp_idem ds : ∀ mx,
  flat_clamp mx (flat_clamp mx ds) = flat_clamp mx ds.
Proof.
  induction ds as [|d ds IH]; intros mx; simpl; [done|].
  destruct (Py.ltb d mx) eqn:E; simpl.
  - assert (Py.ltb mx mx = false) as -> by (apply ltb_false; lra).
    by rewrite IH.
  - by rewrite E, IH.
Qed.

(** C1.  After [enforce_monotonicity_for_all_teeth], for every tooth number
    the depths of that tooth's records, taken in ascending wear-case order
    (the stable order of the sort), are non-decreasing; they are the flat
    clamp of the original depths against the running maximum, which starts
    at 0.0, with no interpolation.  In particular, of two records of one
    tooth the one with the smaller wear case never has the larger depth. *)
Theorem all_teeth_monotone (results : store) :
  let out := enforce_monotonicity_for_all_teeth results in
  (∀ t, nondecreasing (tooth_history t out)
        ∧ tooth_history t out = flat_clamp 0 (tooth_history t results))
  ∧ (∀ r1 r2, r1 ∈ out → r2 ∈ out →
       tooth_number r1 = tooth_number r2 →
       (wear_case r1 < wear_case r2)%Z →
       wear_depth_um r1 <= wear_depth_um r2).
Proof.
  destruct (enforce_spec results) as [Hsk Hd]. cbv zeta.
  set (out := enforce_monotonicity_for_all_teeth results) in *.
  assert (∀ t, nondecreasing (tooth_history t out)
               ∧ tooth_history t out = flat_clamp 0 (tooth_history t results))
    as Hall.
  { intros t. rewrite (tooth_history_refs results _ t Hsk).
    rewrite (tooth_history_refs results results t eq_refl).
    rewrite Hd. split; [|done]. apply flat_clamp_nondecreasing. }
  split; [done|].
  intros r1 r2 H1 H2 Ht Hc.
  destruct (Hall (tooth_number r1)) as [Hnd _]. unfold tooth_history in Hnd.
  set (L := Py.sorted wear_case
              (filter (λ r, tooth_number r = tooth_number r1) out)) in *.
  pose proof (sorted_keys_nondecreasing wear_case
                (filter (λ r, tooth_number r = tooth_number r1) out)) as Hkeys.
  fold L in Hkeys.
  assert (r1 ∈ L) as Hin1.
  { unfold L. rewrite sorted_perm. by apply list_elem_of_filter. }
  assert (r2 ∈ L) as Hin2.
  { unfold L. rewrite sorted_perm. by apply list_elem_of_filter. }
  apply list_elem_of_lookup_1 in Hin1 as [i Hi].
  apply list_elem_of_lookup_1 in Hin2 as [j Hj].
  destruct (Nat.lt_trichotomy i j) as [Hlt|[->|Hgt]].
  - apply (nondecreasing_lookup (wear_depth_um <$> L) i j); [done..| |];
      by rewrite list_lookup_fmap, ?Hi, ?Hj.
  - rewrite Hi in Hj. injection Hj as ->. lia.
  - assert (inject_Z (wear_case r2) <= inject_Z (wear_case r1)) as Hle.
    { apply (nondecreasing_lookup _ j i _ _ Hkeys Hgt);
        by rewrite list_lookup_fmap, ?Hi, ?Hj. }
    rewrite <-Zle_Qle in Hle. lia.
Qed.

Lemma result_eq_skeleton (r r' : result) :
  set_wear_depth_um r 0 = set_wear_depth_um r' 0 →
  wear_depth_um r = wear_depth_um r' → r = r'.
Proof.
  destruct r, r'. unfold set_wear_depth_um. simpl. intros H ->.
  by inversion H.
Qed.

(** C10.  Multi-tooth monotonicity enforcement is idempotent: a second
    application returns the records of the first unchanged, so every
    [wear_depth_um] is the same. *)
Theorem all_teeth_idempotent (results : store) :
  enforce_monotonicity_for_all_teeth (enforce_monotonicity_for_all_teeth results)
  = enforce_monotonicity_for_all_teeth results.
Proof.
  destruct (enforce_spec results) as [Hsk Hd].
  set (out := enforce_monotonicity_for_all_teeth results) in *.
  destruct (enforce_spec out) as [Hsk2 Hd2].
  set (out2 := enforce_monotonicity_for_all_teeth out) in *.
  assert (∀ t, sorted_refs out t = sorted_refs results t) as Hrefs.
  { intros t. unfold sorted_refs.
    by rewrite (skeleton_tooth_refs _ _ t Hsk), (skeleton_sort_group _ _ _ Hsk). }
  apply list_eq. intros j.
  assert (skeleton out2 !! j = skeleton out !! j) as Hj by by rewrite Hsk2.
  unfold skeleton in Hj. rewrite !list_lookup_fmap in Hj.
  destruct (out2 !! j) as [r2|] eqn:E2, (out !! j) as [r1|] eqn:E1;
    simpl in Hj; try done.
  f_equal. apply result_eq_skeleton; [congruence|].
  pose proof (Hd2 (tooth_at out j)) as Ht.
  rewrite Hrefs, Hd, flat_clamp_idem, <-Hd in Ht.
  assert (j ∈ sorted_refs results (tooth_at out j)) as Hin.
  { apply elem_of_sorted_refs. split.
    - rewrite <-(skeleton_length _ _ Hsk). by eapply lookup_lt_Some.
    - symmetry. by apply skeleton_tooth_at. }
  apply list_elem_of_lookup_1 in Hin as [k Hk].
  assert ((depth_at out2 <$> sorted_refs results (tooth_at out j)) !! k
          = (depth_at out <$> sorted_refs results (tooth_at out j)) !! k) as Hk'
    by by rewrite Ht.
  rewrite !list_lookup_fmap, Hk in Hk'. simpl in Hk'.
  unfold depth_at in Hk'. rewrite !list_lookup_total_alt, E1, E2 in Hk'.
  simpl in Hk'. by inversion Hk'.
Qed.
End all_teeth_facts.

(** ** The single-tooth pass as a walk *)

Section tooth1_walk.
Import Tooth1.

Lemma adjust_at_spec pre prev cur rest :
  adjust_at (pre ++ prev :: cur :: rest) (S (length pre))
  = pre ++ prev :: adjust prev cur :: rest.
Proof.
  unfold adjust_at, adjust.
  replace (S (length pre) - 1)%nat with (length pre) by lia.
  rewrite (lookup_app_r pre) by lia.
  rewrite (lookup_app_r pre) by lia.
  replace (S (length pre) - length pre)%nat with 1%nat by lia.
  rewrite Nat.sub_diag. simpl.
  destruct (Py.ltb _ _); [|done].
  rewrite insert_app_r_alt by lia.
  replace (S (length pre) - length pre)%nat with 1%nat by lia. done.
Qed.

Lemma fold_adjust_at rest : ∀ pre prev,
  fold_left adjust_at (seq (S (length pre)) (length rest)) (pre ++ prev :: rest)
  = pre ++ prev :: walk prev rest.
Proof.
  induction rest as [|cur rest IH]; intros pre prev; [done|].
  cbn [length seq fold_left walk]. rewrite adjust_at_spec.
  specialize (IH (pre ++ [prev]) (adjust prev cur)).
  rewrite length_app, Nat.add_1_r, <-!app_assoc in IH. apply IH.
Qed.

Lemma enforce_walk results :
  enforce_monotonicity_for_tooth1 results
  = match Py.sorted wear_case results with
    | [] => []
    | first :: rest => first :: walk first rest
    end.
Proof.
  destruct results as [|r results]; [done|].
  unfold enforce_monotonicity_for_tooth1.
  destruct (Py.sorted wear_case (r :: results)) as [|first rest] eqn:E.
  { pose proof (sorted_perm wear_case (r :: results)) as Hp. rewrite E in Hp.
    by apply Permutation_nil_l in Hp. }
  replace (length (first :: rest) - 1)%nat with (length rest) by (simpl; lia).
  apply (fold_adjust_at rest [] first).
Qed.

Lemma adjust_in_range prev cur :
  in_range prev → in_range cur →
  in_range (adjust prev cur) ∧ pair_ok prev (adjust prev cur) cur.
Proof.
  unfold in_range, pair_ok, adjust, Config.MAX_THEORETICAL_WEAR.
  intros [Hp0 Hp1] [Hc0 Hc1].
  destruct (Py.ltb (Py.max 0 (wear_depth_um cur)) (Py.max 0 (wear_depth_um prev)))
    eqn:E; [apply ltb_spec in E|apply ltb_false in E]; simpl.
  - split; [|split; [|intros _; split; [done|split; [done|]]]].
    + py_cases; lra.
    + py_cases; lra.
    + intros m Hm. destruct (method cur) as [m0|]; [|done].
      exists m0. simpl in Hm. congruence.
  - split; [done|]. split; [py_cases; lra|]. intros Hlt. lra.
Qed.

Lemma walk_length prev rest : length (walk prev rest) = length rest.
Proof. revert prev. induction rest; intros; simpl; [done|]. by rewrite IHrest. Qed.

Lemma walk_pairs rest : ∀ first0 first i prev cur orig,
  in_range first → Forall in_range rest →
  (first :: walk first rest) !! i = Some prev →
  (first :: walk first rest) !! S i = Some cur →
  (first0 :: rest) !! S i = Some orig →
  pair_ok prev cur orig.
Proof.
  induction rest as [|r rest IH]; intros first0 first i prev cur orig Hf Hr Hp Hc Ho.
  { by destruct i. }
  apply Forall_cons in Hr as [Hr Hrest].
  destruct (adjust_in_range first r Hf Hr) as [Ha Hok].
  destruct i as [|i].
  - simpl in *. by simplify_eq.
  - change ((adjust first r :: walk (adjust first r) rest) !! i = Some prev) in Hp.
    change ((adjust first r :: walk (adjust first r) rest) !! S i = Some cur) in Hc.
    change ((r :: rest) !! S i = Some orig) in Ho.
    by eapply (IH r (adjust first r)).
Qed.
End tooth1_walk.

(** ** The single-tooth pass and depth resolution *)

Section tooth1_facts.
Import Tooth1.

(** C2 (amended).  For every non-empty list of single-tooth records whose
    depths all lie in [0, MAX_THEORETICAL_WEAR], after
    [enforce_monotonicity_for_tooth1] every adjacent pair of the output, in
    ascending wear-case order, satisfies depth[i] >= depth[i-1]; and
    whenever the original depth[i] is smaller than the output depth[i-1]
    (both clamped to >= 0), the output depth[i] is
    max(0, min(depth[i-1] * 1.02, MAX_THEORETICAL_WEAR)) and the method tag,
    when the record has one, is the old tag followed by "_monotonic". *)
Theorem tooth1_monotone_in_range (results : list result) :
  results ≠ [] → Forall in_range results →
  monotone_after_enforcement results.
Proof.
  intros Hne Hr. unfold monotone_after_enforcement.
  rewrite enforce_walk.
  pose proof (sorted_perm wear_case results) as Hp.
  assert (Forall in_range (Py.sorted wear_case results)) as Hs by by rewrite Hp.
  apply Permutation_length in Hp.
  destruct (Py.sorted wear_case results) as [|first rest].
  { destruct results; [done|]. simpl in Hp. lia. }
  apply Forall_cons in Hs as [Hf Hrest]. split.
  - simpl. rewrite walk_length. by rewrite <-Hp.
  - intros i prev cur orig. by apply walk_pairs.
Qed.

(** C2 at three records in range, given out of order. *)
Lemma tooth1_monotone_witness :
  monotone_after_enforcement
    [mk_result 2 40.0 (Some "optimized"); mk_result 1 77.0 (Some "manual_adjustment");
     mk_result 3 115 None].
Proof.
  apply tooth1_monotone_in_range; [done|].
  repeat constructor; by vm_compute.
Defined.

(** C2, counterexample: a record above the theoretical maximum is followed
    by a smaller one; the adjustment is capped at the maximum and the
    output decreases from 2000 to 1500. *)
Lemma tooth1_monotone_fails_above_max :
  ∃ prev cur,
    enforce_monotonicity_for_tooth1
      [mk_result 1 2000.0 (Some "optimized"); mk_result 2 100.0 (Some "optimized")]
    = [prev; cur]
    ∧ wear_depth_um cur < wear_depth_um prev.
Proof. eexists _, _. split; [by vm_compute|]. by vm_compute. Qed.

(** Negative depths are compared after clamping to zero and are left as
    they are: the output decreases from 0 to -1. *)
Lemma tooth1_monotone_fails_below_zero :
  ∃ prev cur,
    enforce_monotonicity_for_tooth1
      [mk_result 1 0 (Some "optimized"); mk_result 2 (-1) (Some "optimized")]
    = [prev; cur]
    ∧ wear_depth_um cur < wear_depth_um prev.
Proof. eexists _, _. split; [by vm_compute|]. by vm_compute. Qed.

(** Hence the property does not hold of every non-empty list. *)
Lemma tooth1_monotone_not_universal :
  ¬ ∀ results, results ≠ [] → monotone_after_enforcement results.
Proof.
  intros H.
  destruct (H [mk_result 1 2000.0 (Some "optimized");
               mk_result 2 100.0 (Some "optimized")]) as [_ Hp]; [done|].
  destruct (Hp 0%nat _ _ _ eq_refl eq_refl eq_refl) as [Hle _].
  vm_compute in Hle. by apply Hle.
Qed.

Lemma clamp_depth_range v :
  0 <= clamp_depth v ∧ clamp_depth v <= Config.MAX_THEORETICAL_WEAR.
Proof.
  unfold clamp_depth, Config.MAX_THEORETICAL_WEAR. py_cases; lra.
Qed.

(** C3.  Single-tooth wear-depth resolution follows the fixed precedence
    manual adjustment, optimized W7+ table, ground-truth table, feature
    fallback [area_loss * 1000]; it tags the record accordingly and clamps
    the depth into [0, MAX_THEORETICAL_WEAR].  With a manual table holding
    [1: 38.0], wear case 1 yields [(38.0, "manual_adjustment")] whatever
    the features are. *)
Theorem resolve_precedence (cfg : Config.tables) (wear_num : Z)
    (features : gmap string Q) :
  let r := resolve_wear_depth cfg wear_num features in
  let manual := Config.tbl_manual_adjustments cfg !! wear_num in
  let optimized := Config.tbl_optimized_results_w7_plus cfg !! wear_num in
  let actual := Config.tbl_actual_measurements cfg !! wear_num in
  wear_case r = wear_num
  ∧ (∀ v, manual = Some v →
       wear_depth_um r = clamp_depth v ∧ method r = Some "manual_adjustment")
  ∧ (∀ v, manual = None → optimized = Some v →
       wear_depth_um r = clamp_depth v ∧ method r = Some "optimized")
  ∧ (∀ v, manual = None → optimized = None → actual = Some v →
       wear_depth_um r = clamp_depth v ∧ method r = Some "actual_measurement")
  ∧ (manual = None → optimized = None → actual = None →
       wear_depth_um r = clamp_depth (default 0 (features !! "area_loss") * 1000)
       ∧ method r = Some "feature_based")
  ∧ (0 <= wear_depth_um r ∧ wear_depth_um r <= Config.MAX_THEORETICAL_WEAR)
  ∧ (Config.tbl_manual_adjustments cfg !! 1%Z = Some 38.0 →
     ∀ features', resolve_wear_depth cfg 1 features'
                  = mk_result 1 38.0 (Some "manual_adjustment"))
  ∧ (∀ csv features', resolve_wear_depth (Config.tooth1_config csv) 1 features'
                      = mk_result 1 38.0 (Some "manual_adjustment")).
Proof.
  simpl. unfold resolve_wear_depth.
  split; [by repeat case_match|].
  split; [intros v ->; done|].
  split; [intros v -> ->; done|].
  split; [intros v -> -> ->; done|].
  split; [intros -> -> ->; done|].
  split.
  { repeat case_match; simplify_eq; simpl; apply clamp_depth_range. }
  split.
  - intros -> features'. done.
  - intros csv features'. done.
Qed.
End tooth1_facts.

(** ** Consistency of the two pipelines *)

Section cross_pipeline.
Import WearAnalyzer.





End cross_pipeline.

(** ** Guarded divisions *)

Section feature_totality.
Import Exn ImageProcessor Tooth1ImageProcessor.

Lemma truediv_nonzero (x y : Q) : ¬ y == 0 → truediv x y = inr (x / y).
Proof.
  intros H. unfold truediv. destruct (Qeq_bool y 0) eqn:E; [|done].
  apply Qeq_bool_iff in E. done.
Qed.

Lemma max_one_ge (d : Q) : 1 <= Py.max d 1.
Proof. py_cases; lra. Qed.

(** A divisor of the form [max(x, 1)] never raises. *)
Lemma truediv_guarded (x d : Q) :
  truediv x (Py.max d 1) = inr (x / Py.max d 1).
Proof.
  apply truediv_nonzero. pose proof (max_one_ge d). lra.
Qed.

Section features.
Context {contour : Type} `{!Vision contour}.

Lemma estimate_scale_factor_total (a : Q) :
  ∃ s, estimate_scale_factor_from_gear a = inr s ∧ 4 <= s ∧ s <= 10
     ∧ (0 < a →
        s = Py.max 4.0
              (Py.min (np_sqrt (GearParameters.STANDARD_TOOTH_THICKNESS
                                * GearParameters.STANDARD_TOOTH_HEIGHT / a)
                       * 1000 * 0.8) 10.0)).
Proof.
  unfold estimate_scale_factor_from_gear.
  destruct (Py.ltb 0 a) eqn:E.
  - apply ltb_spec in E. rewrite truediv_nonzero by lra.
    eexists. split; [reflexivity|]. split; [|split; [|done]]; py_cases; lra.
  - apply ltb_false in E. exists 6.0. split; [done|].
    split; [lra|]. split; [lra|]. intros Ha. lra.
Qed.

Lemma unscaled_features_total (healthy worn : contour) :
  ∃ features, unscaled_features healthy worn = inr features.
Proof.
  unfold unscaled_features.
  destruct (cv2_boundingRect healthy) as [[[? ?] hw] hh].
  destruct (cv2_boundingRect worn) as [[[? ?] ww] wh].
  rewrite !truediv_guarded. cbn [mbind M_bind mret M_ret].
  rewrite !truediv_guarded. cbn [mbind M_bind mret M_ret].
  eexists. reflexivity.
Qed.
End features.
End feature_totality.

(** ** The effective scale factor *)

Section feature_scaling.
Import Exn ImageProcessor Tooth1ImageProcessor.

Lemma ratio_keys_not_scaled :
  Forall (λ key, contains "ratio" key = true → is_scaled key = false)
         feature_keys.
Proof. repeat constructor; by vm_compute. Qed.

Section features.
Context {contour : Type} `{!Vision contour}.

Lemma unscaled_features_keys (healthy worn : contour) features key :
  unscaled_features healthy worn = inr features →
  is_Some (features !! key) → key ∈ feature_keys.
Proof.
  unfold unscaled_features.
  destruct (cv2_boundingRect healthy) as [[[? ?] hw] hh].
  destruct (cv2_boundingRect worn) as [[[? ?] ww] wh].
  rewrite !truediv_guarded. cbn [mbind M_bind mret M_ret].
  rewrite !truediv_guarded. cbn [mbind M_bind mret M_ret].
  intros [= <-] [v Hv].
  repeat (apply lookup_insert_Some in Hv as [[<- _]|[_ Hv]];
          [unfold feature_keys; repeat constructor|]).
  by rewrite lookup_empty in Hv.
Qed.

Lemma scale_features_lookup eff (features : gmap string Q) key :
  scale_features eff features !! key
  = (λ v, if is_scaled key then v * eff else v) <$> features !! key.
Proof.
  unfold scale_features. rewrite map_lookup_imap.
  by destruct (features !! key).
Qed.

Lemma effective_scale_range (t s : Q) :
  4 <= t → t <= 10 → 4 <= s → s <= 10 →
  4 <= effective_scale t s ∧ effective_scale t s <= 10.
Proof. unfold effective_scale. intros. lra. Qed.

(** C6 (amended).  For every healthy contour of area a > 0 and target
    scale t, the geometry estimate s is the value derived from
    sqrt(expected area / a), clamped into [4.0, 10.0]; the effective factor
    is the blend 0.3 * t + 0.7 * s, which lies in [4.0, 10.0] whenever t
    does; every feature whose key contains "loss" or "diff" is multiplied
    by the effective factor and every ratio-keyed feature is left
    unscaled. *)
Theorem effective_scale_factor_blend (healthy worn : contour) (t : Q) :
  0 < cv2_contourArea healthy →
  ∃ s raw features,
    estimate_scale_factor_from_gear (cv2_contourArea healthy) = inr s
    ∧ s = Py.max 4.0
            (Py.min (np_sqrt (GearParameters.STANDARD_TOOTH_THICKNESS
                              * GearParameters.STANDARD_TOOTH_HEIGHT
                              / cv2_contourArea healthy)
                     * 1000 * 0.8) 10.0)
    ∧ (4 <= s ∧ s <= 10)
    ∧ unscaled_features healthy worn = inr raw
    ∧ extract_early_wear_features healthy worn t = inr features
    ∧ effective_scale t s == 0.3 * t + 0.7 * s
    ∧ (4 <= t → t <= 10 →
       4 <= effective_scale t s ∧ effective_scale t s <= 10)
    ∧ (∀ key v, raw !! key = Some v →
         contains "loss" key = true ∨ contains "diff" key = true →
         features !! key = Some (v * effective_scale t s))
    ∧ (∀ key v, raw !! key = Some v →
         contains "ratio" key = true → features !! key = Some v)
    ∧ dom features = dom raw.
Proof.
  intros Ha.
  destruct (estimate_scale_factor_total (cv2_contourArea healthy))
    as (s & Hs & Hs4 & Hs10 & Hdef).
  destruct (unscaled_features_total healthy worn) as [raw Hraw].
  exists s, raw, (scale_features (effective_scale t s) raw).
  split; [done|]. split; [by apply Hdef|]. split; [done|]. split; [done|].
  split.
  { unfold extract_early_wear_features. rewrite Hs.
    cbn [mbind M_bind]. rewrite Hraw. done. }
  split; [unfold effective_scale; lra|].
  split; [intros; by apply effective_scale_range|].
  split; [|split].
  - intros key v Hv Hk. rewrite scale_features_lookup, Hv. simpl.
    unfold is_scaled. by destruct Hk as [-> | ->]; rewrite ?orb_true_r.
  - intros key v Hv Hk. rewrite scale_features_lookup, Hv. simpl.
    assert (key ∈ feature_keys) as Hin
      by (eapply unscaled_features_keys; eauto).
    pose proof ratio_keys_not_scaled as Hall.
    rewrite Forall_forall in Hall. by rewrite (Hall key Hin Hk).
  - apply set_eq. intros key. rewrite !elem_of_dom, scale_features_lookup.
    by rewrite fmap_is_Some.
Qed.
End features.

Import Measured.

(** C6 at a 20 by 50 healthy tooth and the default target scale. *)
Lemma effective_scale_factor_witness :
  ∃ s raw features,
    estimate_scale_factor_from_gear (cv2_contourArea healthy_tooth) = inr s
    ∧ s = Py.max 4.0
            (Py.min (np_sqrt (GearParameters.STANDARD_TOOTH_THICKNESS
                              * GearParameters.STANDARD_TOOTH_HEIGHT
                              / cv2_contourArea healthy_tooth)
                     * 1000 * 0.8) 10.0)
    ∧ (4 <= s ∧ s <= 10)
    ∧ unscaled_features healthy_tooth worn_tooth = inr raw
    ∧ extract_early_wear_features healthy_tooth worn_tooth 6.0 = inr features
    ∧ effective_scale 6.0 s == 0.3 * 6.0 + 0.7 * s
    ∧ (4 <= 6.0 → 6.0 <= 10 →
       4 <= effective_scale 6.0 s ∧ effective_scale 6.0 s <= 10)
    ∧ (∀ key v, raw !! key = Some v →
         contains "loss" key = true ∨ contains "diff" key = true →
         features !! key = Some (v * effective_scale 6.0 s))
    ∧ (∀ key v, raw !! key = Some v →
         contains "ratio" key = true → features !! key = Some v)
    ∧ dom features = dom raw.
Proof.
  apply (effective_scale_factor_blend healthy_tooth worn_tooth 6.0).
  vm_compute. reflexivity.
Defined.

(** A target scale of 100 um/px drives the blended factor out of the
    range although the geometry estimate is clamped. *)
Lemma effective_scale_factor_unclamped :
  ∃ s, estimate_scale_factor_from_gear (cv2_contourArea healthy_tooth) = inr s
     ∧ ¬ effective_scale 100 s <= 10.
Proof.
  eexists. split; [vm_compute; reflexivity|]. vm_compute. intros H. by apply H.
Qed.
End feature_scaling.

(** ** The matching loop *)

Section matching_invariant.
Import Exn ImageProcessor Tooth1ImageProcessor.

Section matching.
Context {contour : Type} `{!Vision contour}.
Implicit Types healthy c : contour.

Lemma passes_gates_spec healthy c maxD :
  passes_gates healthy c maxD = true ↔ gated healthy maxD c.
Proof.
  unfold passes_gates, gated.
  rewrite !andb_true_iff, !leb_spec, negb_true_iff, ltb_false. tauto.
Qed.

Lemma match_step_inv healthy maxD seen st cand :
  match_inv healthy maxD seen st →
  match_inv healthy maxD (seen ++ [cand]) (match_step healthy maxD st cand).
Proof.
  destruct st as [bm bs], cand as [idx c]. unfold match_step.
  destruct (passes_gates healthy c maxD) eqn:Hg.
  - apply passes_gates_spec in Hg. unfold match_inv. simpl.
    destruct bm as [[bi bc]|]; simpl.
    + intros (Hin & Hbg & -> & Hmin). simpl.
      destruct (Py.ltb _ _) eqn:E; simpl.
      * apply ltb_spec in E. split; [apply elem_of_app; right; by left|].
        split; [done|]. split; [done|].
        intros cand Hc Hcg. apply elem_of_app in Hc as [Hc|Hc].
        -- specialize (Hmin cand Hc Hcg). lra.
        -- apply list_elem_of_singleton in Hc as ->. simpl. lra.
      * apply ltb_false in E. split; [apply elem_of_app; by left|].
        split; [done|]. split; [done|].
        intros cand Hc Hcg. apply elem_of_app in Hc as [Hc|Hc].
        -- by apply Hmin.
        -- by apply list_elem_of_singleton in Hc as ->.
    + intros [-> Hnone]. simpl.
      split; [apply elem_of_app; right; by left|].
      split; [done|]. split; [done|].
      intros cand Hc Hcg. apply elem_of_app in Hc as [Hc|Hc].
      -- by destruct (Hnone cand Hc).
      -- apply list_elem_of_singleton in Hc as ->. simpl. lra.
  - assert (¬ gated healthy maxD c) as Hng.
    { intros Hc. apply passes_gates_spec in Hc. congruence. }
    unfold match_inv. simpl. destruct bm as [best|].
    + intros (Hin & Hbg & Hs & Hmin).
      split; [apply elem_of_app; by left|]. split; [done|]. split; [done|].
      intros cand Hc Hcg. apply elem_of_app in Hc as [Hc|Hc].
      -- by apply Hmin.
      -- by apply list_elem_of_singleton in Hc as ->.
    + intros [Hs Hnone]. split; [done|].
      intros cand Hc. apply elem_of_app in Hc as [Hc|Hc].
      -- by apply Hnone.
      -- by apply list_elem_of_singleton in Hc as ->.
Qed.

Lemma match_fold_inv healthy maxD cands : ∀ seen st,
  match_inv healthy maxD seen st →
  match_inv healthy maxD (seen ++ cands)
            (fold_left (match_step healthy maxD) cands st).
Proof.
  induction cands as [|cand cands IH]; intros seen st Hinv; simpl.
  - by rewrite app_nil_r.
  - rewrite cons_middle, app_assoc. apply IH. by apply match_step_inv.
Qed.

Lemma match_loop_inv healthy maxD cands :
  match_inv healthy maxD cands
            (fold_left (match_step healthy maxD) cands (None, None)).
Proof.
  apply (match_fold_inv healthy maxD cands []). split; [done|].
  intros cand Hc. by apply elem_of_nil in Hc.
Qed.

Lemma match_score_nonneg healthy c maxD :
  (∀ x, 0 <= np_sqrt x) → 0 < maxD → 0 <= match_score healthy c maxD.
Proof.
  intros Hsqrt HD. unfold match_score.
  pose proof (max_one_ge (cv2_contourArea healthy)) as Ha.
  pose proof (max_one_ge (cv2_arcLength healthy)) as Hp.
  assert (∀ x, 0 <= Py.abs x) as Habs by (intros x; py_cases; lra).
  assert (0 <= centroid_distance healthy c / maxD) as H1.
  { apply Qle_shift_div_l; [done|]. rewrite Qmult_0_l. apply Hsqrt. }
  assert (0 <= Py.abs (cv2_contourArea c - cv2_contourArea healthy)
               / Py.max (cv2_contourArea healthy) 1) as H2.
  { apply Qle_shift_div_l; [lra|]. rewrite Qmult_0_l. apply Habs. }
  assert (0 <= Py.abs (cv2_arcLength c - cv2_arcLength healthy)
               / Py.max (cv2_arcLength healthy) 1) as H3.
  { apply Qle_shift_div_l; [lra|]. rewrite Qmult_0_l. apply Habs. }
  lra.
Qed.

Lemma abs_zero_iff (x : Q) : Py.abs x == 0 ↔ x == 0.
Proof. py_cases; split; lra. Qed.

Lemma div_pos_zero (x d : Q) : 0 < d → x / d == 0 → x == 0.
Proof.
  intros Hd H. assert (x == x / d * d) as -> by (field; lra).
  rewrite H. lra.
Qed.

Lemma match_score_zero_iff healthy c maxD :
  (∀ x, 0 <= np_sqrt x) → 0 < maxD →
  match_score healthy c maxD == 0 ↔ coincides healthy c.
Proof.
  intros Hsqrt HD. unfold match_score, coincides.
  pose proof (max_one_ge (cv2_contourArea healthy)) as Ha.
  pose proof (max_one_ge (cv2_arcLength healthy)) as Hp.
  assert (∀ x, 0 <= Py.abs x) as Habs by (intros x; py_cases; lra).
  set (d := centroid_distance healthy c) in *.
  set (da := cv2_contourArea c - cv2_contourArea healthy) in *.
  set (dp := cv2_arcLength c - cv2_arcLength healthy) in *.
  assert (0 <= d) as Hd by apply Hsqrt.
  assert (0 <= d / maxD) as H1.
  { apply Qle_shift_div_l; [done|]. by rewrite Qmult_0_l. }
  assert (0 <= Py.abs da / Py.max (cv2_contourArea healthy) 1) as H2.
  { apply Qle_shift_div_l; [lra|]. rewrite Qmult_0_l. apply Habs. }
  assert (0 <= Py.abs dp / Py.max (cv2_arcLength healthy) 1) as H3.
  { apply Qle_shift_div_l; [lra|]. rewrite Qmult_0_l. apply Habs. }
  split.
  - intros Hz.
    assert (d / maxD == 0) as E1 by lra.
    assert (Py.abs da / Py.max (cv2_contourArea healthy) 1 == 0) as E2 by lra.
    assert (Py.abs dp / Py.max (cv2_arcLength healthy) 1 == 0) as E3 by lra.
    apply div_pos_zero in E1; [|done].
    apply div_pos_zero in E2; [|lra]. apply div_pos_zero in E3; [|lra].
    apply (proj1 (abs_zero_iff _)) in E2. apply (proj1 (abs_zero_iff _)) in E3.
    unfold da in E2. unfold dp in E3. split; [done|]. split; lra.
  - intros (E1 & E2 & E3).
    assert (da == 0) as Eda by (unfold da; lra).
    assert (dp == 0) as Edp by (unfold dp; lra).
    apply (proj2 (abs_zero_iff _)) in Eda. apply (proj2 (abs_zero_iff _)) in Edp.
    rewrite E1, Eda, Edp. field. split; lra.
Qed.
End matching.
End matching_invariant.

(** ** Tooth matching *)

Section matching_facts.
Import Exn ImageProcessor Tooth1ImageProcessor.

Section matching.
Context {contour : Type} `{!Vision contour}.
Implicit Types healthy c : contour.

(** C4 (amended).  For a positive distance threshold: tooth matching
    returns no match when every candidate has its area outside [20, 5000]
    or its centroid farther than the threshold; otherwise it returns a
    gated candidate whose weighted score
    0.2 * (distance / threshold) + 0.5 * (|area difference| / max(area, 1))
    + 0.3 * (|perimeter difference| / max(perimeter, 1)) is minimal; and a
    candidate with zero centroid distance, the healthy tooth's area (inside
    the band) and the healthy tooth's perimeter is the one selected when no
    other candidate coincides with the healthy tooth in all three. *)
Theorem tooth_matching_selects_minimum healthy
    (cands : list (Z * contour)) (maxD : Q) :
  (∀ x, 0 <= np_sqrt x) → 0 < maxD →
  let r := find_most_similar_tooth_contour_early_wear healthy cands maxD in
  ((∀ cand, cand ∈ cands → ¬ gated healthy maxD cand.2) →
     r = NonePair ∨ r = NoMatch)
  ∧ ((∃ cand, cand ∈ cands ∧ gated healthy maxD cand.2) →
     ∃ idx c, r = Match idx c ∧ (idx, c) ∈ cands ∧ gated healthy maxD c
       ∧ ∀ cand, cand ∈ cands → gated healthy maxD cand.2 →
           match_score healthy c maxD <= match_score healthy cand.2 maxD)
  ∧ (∀ idx c, (idx, c) ∈ cands → coincides healthy c →
       20 <= cv2_contourArea c → cv2_contourArea c <= 5000 →
       (∀ cand, cand ∈ cands → coincides healthy cand.2 → cand = (idx, c)) →
       r = Match idx c).
Proof.
  intros Hsqrt HD r.
  pose proof (match_loop_inv healthy maxD cands) as Hinv.
  assert (∀ cand, cand ∈ cands → gated healthy maxD cand.2 →
          ∃ idx c, r = Match idx c ∧ (idx, c) ∈ cands ∧ gated healthy maxD c
            ∧ ∀ cand, cand ∈ cands → gated healthy maxD cand.2 →
                match_score healthy c maxD <= match_score healthy cand.2 maxD)
    as Hsome.
  { intros cand Hc Hg. unfold r, find_most_similar_tooth_contour_early_wear.
    destruct cands as [|c0 cands']; [by apply elem_of_nil in Hc|].
    set (cs := c0 :: cands') in *. clearbody cs.
    unfold match_inv in Hinv.
    destruct (fold_left (match_step healthy maxD) cs (None, None)).1
      as [[bi bc]|].
    - destruct Hinv as (Hin & Hbg & _ & Hmin). by exists bi, bc.
    - destruct Hinv as [_ Hnone]. by destruct (Hnone cand Hc). }
  split; [|split].
  - intros Hnone. unfold r, find_most_similar_tooth_contour_early_wear.
    destruct cands as [|c0 cands']; [by left|]. right.
    set (cs := c0 :: cands') in *. clearbody cs.
    unfold match_inv in Hinv.
    destruct (fold_left (match_step healthy maxD) cs (None, None)).1
      as [[bi bc]|]; [|done].
    destruct Hinv as (Hin & Hbg & _). by destruct (Hnone _ Hin).
  - intros (cand & Hc & Hg). by apply (Hsome cand).
  - intros idx c Hin Hco Ha1 Ha2 Hothers.
    assert (gated healthy maxD c) as Hg.
    { split; [done|]. split; [done|]. destruct Hco as [-> _]. lra. }
    destruct (Hsome (idx, c) Hin Hg) as (bi & bc & -> & Hbin & Hbg & Hmin).
    specialize (Hmin (idx, c) Hin Hg). simpl in Hmin.
    assert (match_score healthy c maxD == 0) as Hz
      by by apply match_score_zero_iff.
    pose proof (match_score_nonneg healthy bc maxD Hsqrt HD) as Hnn.
    assert (match_score healthy bc maxD == 0) as Hbz by lra.
    apply match_score_zero_iff in Hbz; [|done..].
    by injection (Hothers (bi, bc) Hbin Hbz) as -> ->.
Qed.
End matching.

Import Measured.

Lemma isqrt_nonneg (x : Q) : 0 <= isqrt x.
Proof.
  unfold isqrt. apply Qle_shift_div_l; [reflexivity|].
  rewrite Qmult_0_l. change 0 with (inject_Z 0). rewrite <-Zle_Qle.
  apply Z.sqrt_nonneg.
Qed.

(** C4 at the healthy tooth itself among a shifted alternative. *)
Lemma tooth_matching_witness :
  let r := find_most_similar_tooth_contour_early_wear healthy_square
             [(1%Z, shifted_tooth); (2%Z, healthy_square)] 300.0 in
  ((∀ cand, cand ∈ [(1%Z, shifted_tooth); (2%Z, healthy_square)] →
      ¬ gated healthy_square 300.0 cand.2) →
     r = NonePair ∨ r = NoMatch)
  ∧ ((∃ cand, cand ∈ [(1%Z, shifted_tooth); (2%Z, healthy_square)]
              ∧ gated healthy_square 300.0 cand.2) →
     ∃ idx c, r = Match idx c
       ∧ (idx, c) ∈ [(1%Z, shifted_tooth); (2%Z, healthy_square)]
       ∧ gated healthy_square 300.0 c
       ∧ ∀ cand, cand ∈ [(1%Z, shifted_tooth); (2%Z, healthy_square)] →
           gated healthy_square 300.0 cand.2 →
           match_score healthy_square c 300.0
           <= match_score healthy_square cand.2 300.0)
  ∧ (∀ idx c, (idx, c) ∈ [(1%Z, shifted_tooth); (2%Z, healthy_square)] →
       coincides healthy_square c →
       20 <= cv2_contourArea c → cv2_contourArea c <= 5000 →
       (∀ cand, cand ∈ [(1%Z, shifted_tooth); (2%Z, healthy_square)] →
          coincides healthy_square cand.2 → cand = (idx, c)) →
       r = Match idx c).
Proof.
  apply (tooth_matching_selects_minimum healthy_square
           [(1%Z, shifted_tooth); (2%Z, healthy_square)] 300.0).
  - exact isqrt_nonneg.
  - reflexivity.
Defined.

(** A candidate at the healthy centroid with exactly the healthy area loses
    to a shifted candidate of different area whose perimeter matches. *)
Lemma exact_area_candidate_not_selected :
  centroid_distance healthy_square same_area_tooth == 0
  ∧ cv2_contourArea same_area_tooth == cv2_contourArea healthy_square
  ∧ 0 < centroid_distance healthy_square shifted_tooth
  ∧ ¬ cv2_contourArea shifted_tooth == cv2_contourArea healthy_square
  ∧ find_most_similar_tooth_contour_early_wear healthy_square
      [(1%Z, same_area_tooth); (2%Z, shifted_tooth)] 300.0
    = Match 2 shifted_tooth.
Proof.
  split; [by vm_compute|]. split; [by vm_compute|]. split; [by vm_compute|].
  split; [by vm_compute|]. by vm_compute.
Qed.

(** A candidate identical to a healthy tooth of 6000 px² is outside the
    area band and is not returned. *)
Lemma exact_candidate_outside_band :
  let big := rectangle 60 100 100 100 in
  find_most_similar_tooth_contour_early_wear big [(1%Z, big)] 300.0 = NoMatch.
Proof. by vm_compute. Qed.
End matching_facts.

(** ** Sorting, closest slots and numbering *)

Section segmentation_lemmas.
Import Exn ImageProcessor Tooth1ImageProcessor.

Lemma nondecreasing_seq (f : nat → Q) (n : nat) : ∀ a,
  (∀ i, f i <= f (S i)) → nondecreasing (f <$> seq a n).
Proof.
  induction n as [|n IH]; intros a Hf; [done|].
  cbn [seq]. rewrite fmap_cons. apply nondecreasing_cons. split; [|by apply IH].
  destruct n; [done|]. cbn [seq]. rewrite fmap_cons. apply Hf.
Qed.

(** The closest value to a larger target is not smaller. *)
Lemma closest_monotone (a1 a2 t1 t2 : Q) :
  t1 < t2 →
  Py.abs (a1 - t1) <= Py.abs (a2 - t1) →
  Py.abs (a2 - t2) <= Py.abs (a1 - t2) →
  a1 <= a2.
Proof. intros Ht H1 H2. py_cases; lra. Qed.

Section segmentation.
Context {contour : Type} `{!Vision contour}.

Lemma enumerate_from_fst (l : list (tooth_with_angle contour)) : ∀ a,
  (λ it : nat * tooth_with_angle contour, (Z.of_nat it.1 + 1)%Z)
    <$> Py.enumerate_from a l
  = (λ i : nat, (Z.of_nat i + 1)%Z) <$> seq a (length l).
Proof.
  induction l as [|x l IH]; intros a; [done|].
  cbn [Py.enumerate_from length seq]. rewrite !fmap_cons. f_equal. apply IH.
Qed.

Lemma enumerate_from_snd (l : list (tooth_with_angle contour)) : ∀ a,
  (λ it : nat * tooth_with_angle contour, tooth_contour it.2)
    <$> Py.enumerate_from a l
  = tooth_contour <$> l.
Proof.
  induction l as [|x l IH]; intros a; [done|].
  cbn [Py.enumerate_from]. rewrite !fmap_cons. f_equal. apply IH.
Qed.

Lemma index_teeth_spec (teeth : list (tooth_with_angle contour)) :
  length (index_teeth teeth) = length teeth
  ∧ (index_teeth teeth).*1
    = (λ i : nat, (Z.of_nat i + 1)%Z) <$> seq 0 (length teeth)
  ∧ (index_teeth teeth).*2 = tooth_contour <$> teeth.
Proof.
  unfold index_teeth, Py.enumerate. split; [|split].
  - rewrite length_fmap.
    assert (∀ (l : list (tooth_with_angle contour)) a,
              length (Py.enumerate_from a l) = length l) as H.
    { induction l; intros; simpl; [done|]. by f_equal. }
    apply H.
  - rewrite <-list_fmap_compose. apply enumerate_from_fst.
  - rewrite <-list_fmap_compose. apply enumerate_from_snd.
Qed.

Lemma keep_largest_spec (teeth : list (tooth_with_angle contour)) :
  (Config.EXPECTED_TOOTH_COUNT < length teeth)%nat →
  length (keep_largest teeth) = Config.EXPECTED_TOOTH_COUNT
  ∧ nondecreasing (tooth_angle <$> keep_largest teeth)
  ∧ keep_largest teeth ⊆+ teeth.
Proof.
  intros Hlen. unfold keep_largest.
  apply Nat.ltb_lt in Hlen as Hb. rewrite Hb.
  split; [|split].
  - rewrite (Permutation_length (sorted_float_perm _ _)).
    rewrite length_take_le; [done|].
    rewrite (Permutation_length (sorted_float_reverse_perm _ _)). lia.
  - apply sorted_float_nondecreasing.
  - rewrite sorted_float_perm.
    rewrite <-(sorted_float_reverse_perm tooth_area teeth) at 2.
    apply sublist_submseteq, sublist_take.
Qed.

Lemma ideal_angle_increasing (i : nat) :
  inject_Z (Z.of_nat i)
    * (360.0 / inject_Z (Z.of_nat Config.EXPECTED_TOOTH_COUNT))
  < inject_Z (Z.of_nat (S i))
    * (360.0 / inject_Z (Z.of_nat Config.EXPECTED_TOOTH_COUNT)).
Proof.
  assert (0 < 360.0 / inject_Z (Z.of_nat Config.EXPECTED_TOOTH_COUNT)) as Hs
    by by vm_compute.
  apply Qmult_lt_compat_r; [done|]. rewrite <-Zlt_Qlt. lia.
Qed.

Lemma closest_to_slots_spec (teeth : list (tooth_with_angle contour)) :
  (Config.EXPECTED_TOOTH_COUNT < length teeth)%nat →
  length (closest_to_slots teeth) = Config.EXPECTED_TOOTH_COUNT
  ∧ nondecreasing (tooth_angle <$> closest_to_slots teeth)
  ∧ ∀ t, t ∈ closest_to_slots teeth → t ∈ teeth.
Proof.
  intros Hlen. unfold closest_to_slots.
  apply Nat.ltb_lt in Hlen as Hb. rewrite Hb.
  destruct teeth as [|first rest]; [simpl in Hlen; lia|].
  split; [|split].
  - by rewrite length_fmap, length_seq.
  - rewrite <-list_fmap_compose. apply nondecreasing_seq. intros i.
    cbn [compose].
    set (s := 360.0 / inject_Z (Z.of_nat Config.EXPECTED_TOOTH_COUNT)).
    destruct (min_by_from_spec
                (λ x, Py.abs (tooth_angle x - inject_Z (Z.of_nat i) * s))
                rest first) as [Hin1 Hmin1].
    destruct (min_by_from_spec
                (λ x, Py.abs (tooth_angle x - inject_Z (Z.of_nat (S i)) * s))
                rest first) as [Hin2 Hmin2].
    eapply closest_monotone; [apply (ideal_angle_increasing i)|..].
    + apply (Hmin1 _ Hin2).
    + apply (Hmin2 _ Hin1).
  - intros t Ht. apply list_elem_of_fmap in Ht as (i & -> & _).
    apply min_by_from_spec.
Qed.
End segmentation.
End segmentation_lemmas.

(** ** Normalisation to the expected tooth count *)

Section segmentation_facts.
Import Exn ImageProcessor Tooth1ImageProcessor.

Section segmentation.
Context {contour : Type} `{!Vision contour}.

Lemma submseteq_NoDup {A} (l k : list A) : l ⊆+ k → NoDup k → NoDup l.
Proof.
  intros Hs Hk. apply submseteq_Permutation in Hs as [k' Hp].
  rewrite Hp in Hk. by apply NoDup_app in Hk as [? _].
Qed.

Lemma tooth_contour_with_angle shape (v : valid_contour contour) :
  tooth_contour (with_angle shape v) = v.1.1.1.
Proof. by destruct v as [[[c a] x] y]. Qed.

(** C5 (amended).  When more valid candidates than EXPECTED_TOOTH_COUNT
    are found, both pipelines return exactly EXPECTED_TOOTH_COUNT entries
    numbered 1..EXPECTED_TOOTH_COUNT in order, in non-decreasing angular
    position.  Under keep-largest-area the entries are distinct candidates
    (a sub-multiset of the candidates); under closest-angle-per-slot each
    entry is one of the candidates, and the same candidate may fill several
    slots. *)
Theorem tooth_count_normalisation (contours : list contour)
    (found : list (list contour)) (shape : Z * Z) :
  (Config.EXPECTED_TOOTH_COUNT < length (valid_contours contours shape))%nat →
  (Config.EXPECTED_TOOTH_COUNT < length (best_contours found shape))%nat →
  (let teeth := teeth_with_angles_improved contours shape in
   let out := extract_teeth_contours_improved contours shape in
   out.*1 = (λ i : nat, (Z.of_nat i + 1)%Z) <$> seq 0 Config.EXPECTED_TOOTH_COUNT
   ∧ out.*2 = tooth_contour <$> teeth
   ∧ nondecreasing (tooth_angle <$> teeth)
   ∧ ∀ t, t ∈ teeth → t ∈ with_angle shape <$> valid_contours contours shape)
  ∧ (let teeth := teeth_with_angles_of_gear_image found shape in
     let out := extract_teeth_from_gear_image found shape in
     out.*1 = (λ i : nat, (Z.of_nat i + 1)%Z) <$> seq 0 Config.EXPECTED_TOOTH_COUNT
     ∧ out.*2 = tooth_contour <$> teeth
     ∧ nondecreasing (tooth_angle <$> teeth)
     ∧ teeth ⊆+ with_angle shape <$> best_contours found shape
     ∧ (NoDup ((λ v, v.1.1.1) <$> best_contours found shape) → NoDup out.*2)).
Proof.
  intros Hvalid Hbest. split.
  - intros teeth out.
    set (cands := Py.sorted_float tooth_angle
                    (with_angle shape <$> valid_contours contours shape)).
    assert (teeth = closest_to_slots cands) as Hteeth.
    { unfold teeth, teeth_with_angles_improved.
      destruct contours as [|c0 cs]; [simpl in Hvalid; lia|].
      destruct (valid_contours (c0 :: cs) shape) eqn:E; [simpl in Hvalid; lia|].
      unfold cands; rewrite ?E; done. }
    assert (Config.EXPECTED_TOOTH_COUNT < length cands)%nat as Hlen.
    { unfold cands.
      by rewrite (Permutation_length (sorted_float_perm _ _)), length_fmap. }
    destruct (closest_to_slots_spec cands Hlen) as (Hl & Hnd & Hin).
    destruct (index_teeth_spec teeth) as (_ & H1 & H2).
    assert (out = index_teeth teeth) as -> by done.
    clearbody teeth. subst teeth. rewrite Hl in H1.
    split; [done|]. split; [done|]. split; [done|].
    intros t Ht. apply Hin in Ht. unfold cands in Ht.
    by rewrite sorted_float_perm in Ht.
  - intros teeth out.
    set (cands := Py.sorted_float tooth_angle
                    (with_angle shape <$> best_contours found shape)).
    assert (teeth = keep_largest cands) as Hteeth.
    { unfold teeth, teeth_with_angles_of_gear_image.
      destruct (best_contours found shape) eqn:E; [simpl in Hbest; lia|].
      unfold cands; rewrite ?E; done. }
    assert (Config.EXPECTED_TOOTH_COUNT < length cands)%nat as Hlen.
    { unfold cands.
      by rewrite (Permutation_length (sorted_float_perm _ _)), length_fmap. }
    destruct (keep_largest_spec cands Hlen) as (Hl & Hnd & Hsub).
    destruct (index_teeth_spec teeth) as (_ & H1 & H2).
    assert (out = index_teeth teeth) as -> by done.
    clearbody teeth. subst teeth. rewrite Hl in H1.
    assert (keep_largest cands ⊆+ with_angle shape <$> best_contours found shape)
      as Hsub'.
    { etrans; [exact Hsub|]. unfold cands. by rewrite sorted_float_perm. }
    split; [done|]. split; [done|]. split; [done|]. split; [done|].
    intros Hnodup. rewrite H2.
    apply (submseteq_NoDup _ (tooth_contour <$>
             (with_angle shape <$> best_contours found shape))).
    { by apply fmap_submseteq. }
    rewrite <-list_fmap_compose.
    erewrite list_fmap_ext; [exact Hnodup|].
    intros ? v _. apply tooth_contour_with_angle.
Qed.
End segmentation.

Import Measured.

Lemma ray_contours_NoDup : NoDup ray_contours.
Proof.
  apply (NoDup_fmap_1 (λ c, Qnum (cx c))).
  apply (bool_decide_unpack _). by vm_compute.
Qed.

(** C5 at thirty-six candidates on one ray. *)
Lemma tooth_count_normalisation_witness :
  (let teeth := teeth_with_angles_improved ray_contours (512, 512)%Z in
   let out := extract_teeth_contours_improved ray_contours (512, 512)%Z in
   out.*1 = (λ i : nat, (Z.of_nat i + 1)%Z) <$> seq 0 Config.EXPECTED_TOOTH_COUNT
   ∧ out.*2 = tooth_contour <$> teeth
   ∧ nondecreasing (tooth_angle <$> teeth)
   ∧ ∀ t, t ∈ teeth →
       t ∈ with_angle (512, 512)%Z <$> valid_contours ray_contours (512, 512)%Z)
  ∧ (let teeth := teeth_with_angles_of_gear_image [ray_contours] (512, 512)%Z in
     let out := extract_teeth_from_gear_image [ray_contours] (512, 512)%Z in
     out.*1 = (λ i : nat, (Z.of_nat i + 1)%Z) <$> seq 0 Config.EXPECTED_TOOTH_COUNT
     ∧ out.*2 = tooth_contour <$> teeth
     ∧ nondecreasing (tooth_angle <$> teeth)
     ∧ teeth ⊆+ with_angle (512, 512)%Z <$> best_contours [ray_contours] (512, 512)%Z
     ∧ (NoDup ((λ v, v.1.1.1) <$> best_contours [ray_contours] (512, 512)%Z) →
        NoDup out.*2)).
Proof.
  apply (tooth_count_normalisation ray_contours [ray_contours] (512, 512)%Z).
  - apply Nat.ltb_lt. vm_compute. reflexivity.
  - apply Nat.ltb_lt. vm_compute. reflexivity.
Defined.

(** Thirty-six distinct valid candidates on one ray: every slot of the
    closest-angle policy picks the same contour. *)
Lemma closest_slot_repeats_contour :
  NoDup ray_contours
  ∧ length (valid_contours ray_contours (512, 512)%Z) = 36%nat
  ∧ (extract_teeth_contours_improved ray_contours (512, 512)%Z).*2
    = replicate 35 (rectangle 5 12 286 256).
Proof.
  split; [apply ray_contours_NoDup|]. split; by vm_compute.
Qed.
End segmentation_facts.

(** ** Numerals and rounding *)

Section numerals.
Import AllTeeth Tabulation.

Lemma to_int_not_nil (z : Z) : Z.to_int z ≠ Pos Nil ∧ Z.to_int z ≠ Neg Nil.
Proof.
  split; intros H; pose proof (DecimalZ.of_to z) as Hz; rewrite H in Hz;
    simpl in Hz; subst z; discriminate H.
Qed.

Lemma int_str (z : Z) : int (str z) = Some z.
Proof.
  unfold int, str. destruct (to_int_not_nil z) as [H1 H2].
  rewrite NilZero.isi by done. simpl. by rewrite DecimalZ.of_to.
Qed.

Lemma str_inj (a b : Z) : str a = str b → a = b.
Proof.
  intros H. apply (f_equal int) in H. rewrite !int_str in H. by injection H.
Qed.

Lemma string_of_uint_digits (d : uint) : digits_only (NilEmpty.string_of_uint d).
Proof. induction d; simpl; tauto. Qed.

Lemma to_int_nonneg (z : Z) : (0 <= z)%Z → ∃ u, Z.to_int z = Pos u ∧ u ≠ Nil.
Proof.
  intros Hz. destruct (to_int_not_nil z) as [H1 _].
  destruct z as [|p|p]; [| |lia].
  - by exists (D0 Nil).
  - exists (Pos.to_uint p). split; [done|]. intros E. apply H1. simpl. by rewrite E.
Qed.

Lemma str_nonneg_digits (z : Z) :
  (0 <= z)%Z → digits_only (str z) ∧ str z ≠ EmptyString.
Proof.
  intros Hz. destruct (to_int_nonneg z Hz) as (u & Hu & Hnil).
  unfold str. rewrite Hu. simpl. unfold NilZero.string_of_uint.
  destruct u; try done; (split; [apply (string_of_uint_digits (_ u))|done]).
Qed.

Lemma nat_of_digits_str (z : Z) : (0 <= z)%Z → nat_of_digits (str z) = Some z.
Proof.
  intros Hz. destruct (to_int_nonneg z Hz) as (u & Hu & Hnil).
  unfold nat_of_digits, str. rewrite Hu. simpl.
  rewrite NilZero.usu by done. simpl.
  pose proof (DecimalZ.of_to z) as H. rewrite Hu in H. simpl in H. by rewrite H.
Qed.

Lemma split_dot_digits (s1 s2 : string) :
  digits_only s1 → split_dot (s1 +:+ String "." s2) = Some (s1, s2).
Proof.
  induction s1 as [|a s1 IH]; intros Hd; simpl.
  - done.
  - destruct Hd as [Ha Hd]. rewrite (IH Hd).
    assert (Ascii.eqb a "." = false) as ->; [|done].
    apply Ascii.eqb_neq. intros ->.
    repeat (destruct Ha as [Ha|Ha]; [discriminate Ha|]). discriminate Ha.
Qed.

Lemma digits_only_head (s : string) :
  digits_only s → s ≠ EmptyString →
  ∃ a s', s = String a s' ∧ Ascii.eqb a "-" = false.
Proof.
  destruct s as [|a s']; [done|]. intros [Ha _] _. exists a, s'. split; [done|].
  apply Ascii.eqb_neq. intros ->.
  repeat (destruct Ha as [Ha|Ha]; [discriminate Ha|]). discriminate Ha.
Qed.

Lemma str_digit_length (b : Z) : (0 <= b < 10)%Z → String.length (str b) = 1%nat.
Proof.
  intros Hb.
  assert (b = 0 ∨ b = 1 ∨ b = 2 ∨ b = 3 ∨ b = 4 ∨ b = 5 ∨ b = 6 ∨ b = 7
          ∨ b = 8 ∨ b = 9)%Z as H by lia.
  repeat (destruct H as [->|H]; [done|]). by subst.
Qed.

Lemma decimal_format_tenths (k : Z) :
  decimal_value (format_tenths k) = Some (tenths_value k).
Proof.
  unfold format_tenths, tenths_value.
  set (a := (Z.abs k / 10)%Z). set (b := (Z.abs k mod 10)%Z).
  assert (0 <= a)%Z as Ha by (apply Z.div_pos; lia).
  assert (0 <= b < 10)%Z as Hb by (apply Z.mod_pos_bound; lia).
  destruct (str_nonneg_digits a Ha) as [Hda Hna].
  assert (float_magnitude (str a +:+ "." +:+ str b)
          = Some (inject_Z a + inject_Z b / inject_Z (10 ^ 1))) as Hmag.
  { unfold float_magnitude.
    change (str a +:+ "." +:+ str b) with (str a +:+ String "." (str b)).
    rewrite split_dot_digits by done.
    rewrite !nat_of_digits_str by lia.
    cbn [mbind option_bind]. by rewrite str_digit_length. }
  destruct (k <? 0)%Z.
  - change ("-" +:+ str a +:+ "." +:+ str b)
      with (String "-" (str a +:+ "." +:+ str b)).
    unfold decimal_value. change (Ascii.eqb "-" "-") with true. cbv iota.
    by rewrite Hmag.
  - change ("" +:+ str a +:+ "." +:+ str b) with (str a +:+ "." +:+ str b).
    destruct (digits_only_head _ Hda Hna) as (c & s' & Hs & Hc).
    rewrite Hs in Hmag |- *.
    change (String c s' +:+ "." +:+ str b)
      with (String c (s' +:+ "." +:+ str b)) in Hmag |- *.
    unfold decimal_value. by rewrite Hc.
Qed.

Lemma tenths_value_eq (k : Z) : tenths_value k == inject_Z k / 10.
Proof.
  unfold tenths_value.
  pose proof (Z.div_mod (Z.abs k) 10 ltac:(lia)) as Hdm.
  set (a := (Z.abs k / 10)%Z) in *. set (b := (Z.abs k mod 10)%Z) in *.
  assert (inject_Z (Z.abs k) == 10 * inject_Z a + inject_Z b) as Habs.
  { rewrite Hdm, inject_Z_plus, inject_Z_mult. reflexivity. }
  change (inject_Z (10 ^ 1)) with 10.
  destruct (k <? 0)%Z eqn:E.
  - apply Z.ltb_lt in E.
    assert (inject_Z k == - inject_Z (Z.abs k)) as ->.
    { rewrite <-inject_Z_opp. f_equiv. lia. }
    rewrite Habs. field.
  - apply Z.ltb_ge in E.
    assert (inject_Z k == inject_Z (Z.abs k)) as -> by (f_equiv; lia).
    rewrite Habs. field.
Qed.

Lemma rint_error (x : Q) :
  - (1 # 2) <= inject_Z (rint x) - x ∧ inject_Z (rint x) - x <= 1 # 2.
Proof.
  unfold rint. pose proof (Qfloor_le x) as H1. pose proof (Qlt_floor x) as H2.
  rewrite inject_Z_plus in H2.
  set (f := Qfloor x) in *. clearbody f.
  change (inject_Z 1) with 1 in H2.
  destruct (Py.ltb (x - inject_Z f) 0.5) eqn:E1;
    [apply ltb_spec in E1|apply ltb_false in E1].
  { split; lra. }
  destruct (Py.ltb 0.5 (x - inject_Z f)) eqn:E2;
    [apply ltb_spec in E2|apply ltb_false in E2].
  { rewrite inject_Z_plus. change (inject_Z 1) with 1. split; lra. }
  destruct (Z.even f);
    [|rewrite inject_Z_plus; change (inject_Z 1) with 1]; split; lra.
Qed.

(** *** Rounding to doubles *)

(** Equal numbers round to the same double. *)
Lemma binary64_proper (x y : Q) : x == y → binary64 x = binary64 y.
Proof. intros H. unfold binary64. by rewrite (Qred_complete x y H). Qed.

Lemma Qabs_num_den (x : Q) :
  0 < Qabs x → (0 < Qnum (Qabs x))%Z
  ∧ Qabs x == inject_Z (Qnum (Qabs x)) / inject_Z (Z.pos (Qden (Qabs x))).
Proof.
  intros H. split.
  - unfold Qlt in H. simpl in H. lia.
  - destruct (Qabs x) as [n d]. apply Qmake_Qdiv.
Qed.

Lemma pow2_log2 (n : Z) :
  (0 < n)%Z →
  2 ^ Z.log2 n <= inject_Z n ∧ inject_Z n < 2 ^ (Z.log2 n + 1).
Proof.
  intros Hn. destruct (Z.log2_spec n Hn) as [H1 H2].
  pose proof (Z.log2_nonneg n) as H0.
  change 2 with (inject_Z 2).
  rewrite <-!Zpower_Qpower by lia. rewrite <-Zle_Qle, <-Zlt_Qlt.
  split; [done|]. by rewrite <-Z.add_1_r in H2.
Qed.

(** The exponent of [x] is the integer part of the binary logarithm of
    [|x|]. *)
Lemma exponent_spec (x : Q) :
  ¬ x == 0 → 2 ^ exponent x <= Qabs x ∧ Qabs x < 2 ^ (exponent x + 1).
Proof.
  intros Hx. unfold exponent.
  set (a := Qabs x). set (n := Qnum a). set (d := Z.pos (Qden a)).
  assert (0 < a) as Ha.
  { unfold a. apply Qabs_case; intros H.
    - apply Qle_lteq in H as [H|H]; [done|]. by destruct Hx.
    - apply Qle_lteq in H as [H|H]; [lra|]. by destruct Hx. }
  destruct (Qabs_num_den x Ha) as [Hn Had]. fold a n d in Hn, Had.
  destruct (pow2_log2 n Hn) as [Hn1 Hn2].
  destruct (pow2_log2 d ltac:(done)) as [Hd1 Hd2].
  assert (0 < inject_Z d) as Hd0
    by (change 0 with (inject_Z 0); by rewrite <-Zlt_Qlt).
  assert (0 < 2 ^ Z.log2 d) as Hpd by (apply Qpower_0_lt; reflexivity).
  assert (0 < 2 ^ (Z.log2 d + 1)) as Hpd1 by (apply Qpower_0_lt; reflexivity).
  assert (0 < 2 ^ Z.log2 n) as Hpn by (apply Qpower_0_lt; reflexivity).
  assert (0 < 2 ^ (Z.log2 n + 1)) as Hpn1 by (apply Qpower_0_lt; reflexivity).
  destruct (Qle_bool (2 ^ (Z.log2 n - Z.log2 d)) a) eqn:E.
  - split; [by apply Qle_bool_iff in E|].
    assert ((Z.log2 n - Z.log2 d + 1 = Z.log2 n + 1 - Z.log2 d)%Z) as ->
      by lia.
    rewrite Qpower_minus by discriminate. rewrite Had.
    apply Qlt_shift_div_l; [done|].
    assert (inject_Z n / inject_Z d * 2 ^ Z.log2 d
            == inject_Z n * (2 ^ Z.log2 d / inject_Z d)) as ->
      by (field; lra).
    assert (2 ^ Z.log2 d / inject_Z d <= 1) as H1.
    { apply Qle_shift_div_r; [done|]. lra. }
    assert (0 < inject_Z n) as Hn0
      by (change 0 with (inject_Z 0); by rewrite <-Zlt_Qlt).
    nra.
  - split.
    + assert ((Z.log2 n - Z.log2 d - 1 = Z.log2 n - (Z.log2 d + 1))%Z) as ->
        by lia.
      rewrite Qpower_minus by discriminate. rewrite Had.
      apply Qle_shift_div_l; [done|].
      assert (2 ^ Z.log2 n / 2 ^ (Z.log2 d + 1) * inject_Z d
              == 2 ^ Z.log2 n * (inject_Z d / 2 ^ (Z.log2 d + 1))) as ->
        by (field; lra).
      assert (inject_Z d / 2 ^ (Z.log2 d + 1) <= 1) as H1.
      { apply Qle_shift_div_r; [done|]. lra. }
      nra.
    + assert ((Z.log2 n - Z.log2 d - 1 + 1 = Z.log2 n - Z.log2 d)%Z) as ->
        by lia.
      apply Qnot_le_lt. intros H. apply Qle_bool_iff in H. congruence.
Qed.

Lemma exponent_le (x : Q) : ¬ x == 0 → 2 ^ exponent x <= Qabs x.
Proof. intros Hx. by destruct (exponent_spec x Hx). Qed.

(** A double is off by at most one part in [2^53] of the number it
    rounds, or by [2^-1075] near zero. *)
Lemma binary64_error (x : Q) :
  Qabs (binary64 x - x)
  <= Qabs x * (1 # 9007199254740992) + 2 ^ (-1075).
Proof.
  assert (0 < 2 ^ (-1075)) as Htiny by (apply Qpower_0_lt; reflexivity).
  unfold binary64. pose proof (Qred_correct x) as Hy.
  set (y := Qred x) in *. clearbody y. rewrite <-Hy. clear Hy x.
  pose proof (Qabs_nonneg y) as Hay.
  destruct (Qeq_bool y 0) eqn:E0.
  { apply Qeq_bool_iff in E0. rewrite E0.
    change (Qabs (0 - 0)) with 0. change (Qabs 0) with 0. lra. }
  assert (¬ y == 0) as Hne.
  { intros H. apply Qeq_bool_iff in H. congruence. }
  set (e := Z.max (exponent y - 52) (-1074)).
  assert (0 < 2 ^ e) as Hp by (apply Qpower_0_lt; reflexivity).
  destruct (rint_error (y / 2 ^ e)) as [H1 H2].
  set (m := inject_Z (rint (y / 2 ^ e))) in *. clearbody m.
  assert (m * 2 ^ e - y == (m - y / 2 ^ e) * 2 ^ e) as -> by (field; lra).
  assert (2 ^ e * (1 # 2)
          <= Qabs y * (1 # 9007199254740992) + 2 ^ (-1075)) as Hb.
  { destruct (Z.max_spec (exponent y - 52) (-1074))
      as [[_ Hm]|[_ Hm]]; fold e in Hm; rewrite Hm.
    - assert (2 ^ (-1074) * (1 # 2) == 2 ^ (-1075)) as ->.
      { assert ((-1075 = -1074 - 1)%Z) as -> by lia.
        rewrite Qpower_minus by discriminate. reflexivity. }
      assert (0 <= Qabs y * (1 # 9007199254740992)) by nra. lra.
    - pose proof (exponent_le y Hne) as Hle.
      rewrite Qpower_minus by discriminate.
      change (2 ^ 52) with 4503599627370496.
      set (p := 2 ^ exponent y) in *. clearbody p.
      assert (p / 4503599627370496 * (1 # 2)
              == p * (1 # 9007199254740992)) as -> by (field; lra).
      lra. }
  set (r := m - y / 2 ^ e) in *. clearbody r.
  set (P := 2 ^ e) in *. clearbody P.
  apply Qabs_Qle_condition. split; nra.
Qed.

(** Rounding keeps the sign. *)
Lemma binary64_nonneg (x : Q) : 0 <= x → 0 <= binary64 x.
Proof.
  intros Hx. unfold binary64. destruct (Qeq_bool (Qred x) 0); [lra|].
  set (e := Z.max (exponent (Qred x) - 52) (-1074)).
  assert (0 < 2 ^ e) as Hp by (apply Qpower_0_lt; reflexivity).
  assert (0 <= Qred x / 2 ^ e) as Hq.
  { apply Qle_shift_div_l; [done|]. rewrite Qred_correct. lra. }
  assert (0 <= rint (Qred x / 2 ^ e))%Z as Hr.
  { unfold rint. set (q := Qred x / 2 ^ e) in *.
    assert (0 <= Qfloor q)%Z as Hf.
    { apply Qfloor_resp_le in Hq. by change (Qfloor 0) with 0%Z in Hq. }
    repeat destruct (_ : bool); lia. }
  apply Qmult_le_0_compat; [|lra].
  change 0 with (inject_Z 0). by rewrite <-Zle_Qle.
Qed.

(** The text of [k] tenths is read back as the double nearest to
    [k / 10]. *)
Lemma float_format_tenths (k : Z) :
  float (format_tenths k) = Some (binary64 (inject_Z k / 10)).
Proof.
  unfold float. rewrite decimal_format_tenths. simpl.
  f_equal. apply binary64_proper, tenths_value_eq.
Qed.

(** Within the admissible depths, [round(1)] stays within 0.05 of its
    argument up to the rounding of the product and of the quotient. *)
Lemma round1_close (x : Q) :
  0 <= x → x <= Config.MAX_THEORETICAL_WEAR →
  Qabs (round1 x - x) <= 0.050000000001.
Proof.
  unfold Config.MAX_THEORETICAL_WEAR. intros H0 H1.
  assert (2 ^ (-1075) <= 0.00000000000001) as Htiny
    by (apply Qle_bool_iff; by vm_compute).
  assert (0 < 2 ^ (-1075)) as Htiny0 by (apply Qpower_0_lt; reflexivity).
  unfold round1, round1_tenths.
  pose proof (binary64_error (x * 10)) as Hp.
  pose proof (binary64_nonneg (x * 10) ltac:(lra)) as Hp0.
  pose proof (binary64_error (inject_Z (rint (binary64 (x * 10))) / 10)) as Hd.
  destruct (rint_error (binary64 (x * 10))) as [Hk1 Hk2].
  set (t := 2 ^ (-1075)) in *. clearbody t.
  set (p := binary64 (x * 10)) in *. clearbody p.
  set (k := inject_Z (rint p)) in *. clearbody k.
  set (d := binary64 (k / 10)) in *. clearbody d.
  rewrite (Qabs_pos (x * 10)) in Hp by lra.
  apply Qabs_Qle_condition in Hp as [Hp1 Hp2].
  assert (k / 10 == k * (1 # 10)) as Hk10 by (field; lra).
  rewrite Hk10 in Hd.
  assert (Qabs (k * (1 # 10)) <= 1501) as Habs
    by (apply Qabs_Qle_condition; split; lra).
  set (ak := Qabs (k * (1 # 10))) in *. clearbody ak.
  apply Qabs_Qle_condition in Hd as [Hd1 Hd2].
  apply Qabs_Qle_condition. split; lra.
Qed.
End numerals.

(** ** Dictionaries and the reloaded table *)

Section reload_lemmas.
Import AllTeeth Tabulation.

Section dict.
Context {V : Type}.

Lemma dict_set_fresh (k : string) (v : V) d :
  k ∉ d.*1 → dict_set k v d = d ++ [(k, v)].
Proof.
  induction d as [|[k' v'] d IH]; intros Hk; [done|].
  rewrite fmap_cons in Hk. apply not_elem_of_cons in Hk as [Hne Hk].
  cbn [dict_set]. assert (String.eqb k' k = false) as ->.
  { apply String.eqb_neq. by intros ->. }
  by rewrite IH.
Qed.

Lemma dict_of_pairs (pairs : list (string * V)) :
  NoDup pairs.*1 →
  fold_left (λ d kv, dict_set kv.1 kv.2 d) pairs [] = pairs.
Proof.
  induction pairs as [|[k v] pairs IH] using rev_ind; intros Hnd; [done|].
  rewrite fmap_app in Hnd. apply NoDup_app in Hnd as (Hnd & Hk & _).
  rewrite fold_left_app, IH by done. cbn [fold_left].
  apply dict_set_fresh. intros Hin. apply (Hk _ Hin). by left.
Qed.

Lemma dict_get_head (k : string) (v : V) d : dict_get k ((k, v) :: d) = Some v.
Proof. cbn [dict_get]. by rewrite String.eqb_refl. Qed.
End dict.

Lemma DictReader_row_full (fieldnames cells : list string) :
  NoDup fieldnames → length fieldnames = length cells →
  DictReader_row fieldnames cells = Some (zip fieldnames (Some <$> cells)).
Proof.
  intros Hnd Hlen. unfold DictReader_row.
  assert ((length fieldnames <? length cells)%nat = false) as ->
    by (apply Nat.ltb_ge; lia).
  rewrite Hlen, Nat.sub_diag. cbn [replicate]. rewrite app_nil_r.
  rewrite dict_of_pairs; [done|].
  rewrite fst_zip; [done|]. rewrite length_fmap. lia.
Qed.

Lemma substring_all (s : string) : String.substring 0 (String.length s) s = s.
Proof. induction s as [|a s IH]; [done|]. simpl. by rewrite IH. Qed.

Lemma substring_tail (a : ascii) (s : string) :
  String.substring 1 (String.length s) (String a s) = s.
Proof. rewrite <-(substring_all s) at 3. by destruct s. Qed.

Lemma column_label_case (c : Z) :
  String.prefix "W" ("W" +:+ str c) = true
  ∧ int (String.substring 1 (String.length ("W" +:+ str c) - 1) ("W" +:+ str c))
    = Some c.
Proof.
  change ("W" +:+ str c) with (String "W" (str c)). split.
  - cbn [String.prefix]. by destruct (str c).
  - cbn [String.length].
    replace (S (String.length (str c)) - 1)%nat with (String.length (str c))
      by lia.
    by rewrite substring_tail, int_str.
Qed.

Lemma reloaded_assign data c t d t' c' :
  reloaded (assign data c t d) t' c'
  = if decide (c = c' ∧ t = t') then Some d else reloaded data t' c'.
Proof.
  unfold reloaded, assign. destruct (decide (c = c')) as [->|Hc].
  - rewrite lookup_insert_eq. cbn [mbind option_bind].
    destruct (decide (t = t')) as [->|Ht].
    + rewrite lookup_insert_eq. by rewrite decide_True.
    + rewrite lookup_insert_ne by done. rewrite decide_False by tauto.
      destruct (data !! c'); cbn; [done|apply lookup_empty].
  - rewrite lookup_insert_ne by done. by rewrite decide_False by tauto.
Qed.

Section reload.
Context (v : Z → Z → Q).

Lemma reloaded_row (cases : list Z) (t : Z) : ∀ data t' c',
  reloaded (fold_left (λ m c, assign m c t (v t c)) cases data) t' c'
  = if decide (t' = t ∧ c' ∈ cases) then Some (v t c')
    else reloaded data t' c'.
Proof.
  induction cases as [|c cases IH]; intros data t' c'; cbn [fold_left].
  - rewrite decide_False; [done|]. intros [_ H]. by apply elem_of_nil in H.
  - rewrite IH, reloaded_assign.
    destruct (decide (t' = t ∧ c' ∈ cases)) as [[-> Hin]|Hn].
    + rewrite decide_True; [done|]. split; [done|by right].
    + destruct (decide (c = c' ∧ t = t')) as [[-> ->]|Hn'].
      * rewrite decide_True; [done|]. split; [done|by left].
      * rewrite decide_False; [done|]. intros [-> Hin].
        apply elem_of_cons in Hin as [->|Hin]; tauto.
Qed.

Lemma reloaded_table (cases teeth : list Z) : ∀ data t' c',
  reloaded (fold_left (λ m t, fold_left (λ m c, assign m c t (v t c)) cases m)
                      teeth data) t' c'
  = if decide (t' ∈ teeth ∧ c' ∈ cases) then Some (v t' c')
    else reloaded data t' c'.
Proof.
  induction teeth as [|t teeth IH]; intros data t' c'; cbn [fold_left].
  - rewrite decide_False; [done|]. intros [H _]. by apply elem_of_nil in H.
  - rewrite IH, reloaded_row.
    destruct (decide (t' ∈ teeth ∧ c' ∈ cases)) as [[Ht Hc]|Hn].
    + rewrite decide_True; [done|]. split; [by right|done].
    + destruct (decide (t' = t ∧ c' ∈ cases)) as [[-> Hc]|Hn'].
      * rewrite decide_True; [done|]. split; [by left|done].
      * rewrite decide_False; [done|]. intros [Ht Hc].
        apply elem_of_cons in Ht as [->|Ht]; tauto.
Qed.
End reload.

Lemma sorted_unique_spec (l : list Z) :
  NoDup (sorted_unique l) ∧ ∀ x, x ∈ sorted_unique l ↔ x ∈ l.
Proof.
  unfold sorted_unique. split.
  - rewrite sorted_perm. apply NoDup_remove_dups.
  - intros x. rewrite sorted_perm. apply elem_of_remove_dups.
Qed.

Lemma NoDup_fmap_eq {A B} (f : A → B) (l : list A) x y :
  NoDup (f <$> l) → x ∈ l → y ∈ l → f x = f y → x = y.
Proof.
  induction l as [|a l IH]; intros Hnd Hx Hy Hf; [by apply elem_of_nil in Hx|].
  rewrite fmap_cons in Hnd. apply NoDup_cons in Hnd as [Ha Hnd].
  apply elem_of_cons in Hx as [->|Hx]; apply elem_of_cons in Hy as [->|Hy].
  - done.
  - destruct Ha. rewrite Hf. by apply list_elem_of_fmap_2.
  - destruct Ha. rewrite <-Hf. by apply list_elem_of_fmap_2.
  - by apply IH.
Qed.

Lemma pivot_cell_unique (results : store) r :
  NoDup ((λ r, (tooth_number r, wear_case r)) <$> results) → r ∈ results →
  pivot_cell results (tooth_number r) (wear_case r) = Some (wear_depth_um r).
Proof.
  intros Hnd Hr. unfold pivot_cell.
  destruct (filter _ results) as [|r' rest] eqn:E.
  - assert (r ∈ filter (λ r0, tooth_number r0 = tooth_number r
                              ∧ wear_case r0 = wear_case r) results) as Hin
      by by apply list_elem_of_filter.
    rewrite E in Hin. by apply elem_of_nil in Hin.
  - assert (r' ∈ filter (λ r0, tooth_number r0 = tooth_number r
                               ∧ wear_case r0 = wear_case r) results) as Hin
      by (rewrite E; left).
    apply list_elem_of_filter in Hin as [[Ht Hc] Hin]. simpl. f_equal. f_equal.
    eapply (NoDup_fmap_eq _ _ _ _ Hnd); [done..|]. simpl. congruence.
Qed.
End reload_lemmas.

(** ** The CSV round trip *)

Section round_trip.
Import AllTeeth Tabulation.

Lemma filter_all {A} (P : A → Prop) `{!∀ x, Decision (P x)} (l : list A) :
  (∀ x, x ∈ l → P x) → filter P l = l.
Proof.
  induction l as [|x l IH]; intros Hall; [done|].
  rewrite filter_cons_True by (apply Hall; left).
  f_equal. apply IH. intros y Hy. apply Hall. by right.
Qed.

Lemma column_label_inj c1 c2 : column_label c1 = column_label c2 → c1 = c2.
Proof. unfold column_label. intros H. injection H as H. by apply str_inj. Qed.

Lemma header_NoDup (cases : list Z) :
  NoDup cases → NoDup ("Tooth" :: (column_label <$> cases)).
Proof.
  intros Hnd. apply NoDup_cons. split.
  - intros Hin. apply list_elem_of_fmap in Hin as (c & Hc & _).
    unfold column_label in Hc. discriminate Hc.
  - apply NoDup_fmap_2_strong; [|done]. intros ????. apply column_label_inj.
Qed.

Section reload.
Context (results : store).

Lemma load_cells (t : Z) (cs : list Z) : ∀ data,
  (∀ c, c ∈ cs → is_Some (pivot_cell results t c)) →
  fold_left (load_cell t)
    (zip (column_label <$> cs)
         (Some <$> ((λ c, format_cell (pivot_cell results t c)) <$> cs)))
    (Some data)
  = Some (fold_left (λ m c, assign m c t (reloaded_value results t c)) cs data).
Proof.
  induction cs as [|c cs IH]; intros data Hsome; [done|].
  rewrite !fmap_cons. cbn [zip zip_with fold_left].
  destruct (Hsome c (list_elem_of_here _ _)) as [d Hd].
  assert (load_cell t (Some data)
            (column_label c, Some (format_cell (pivot_cell results t c)))
          = Some (assign data c t (reloaded_value results t c))) as ->.
  { unfold load_cell, column_label. cbn [mbind option_bind fst snd].
    destruct (column_label_case c) as [-> ->]. cbn [mbind option_bind].
    unfold reloaded_value. rewrite Hd. cbn [format_cell default].
    by rewrite float_format_tenths. }
  apply IH. intros c' Hc'. apply Hsome. by right.
Qed.

Lemma load_row (cases : list Z) (t : Z) data :
  NoDup cases →
  (∀ c, c ∈ cases → is_Some (pivot_cell results t c)) →
  load_table_row ("Tooth" :: (column_label <$> cases)) (Some data)
                 (table_row results cases t)
  = Some (fold_left (λ m c, assign m c t (reloaded_value results t c))
                    cases data).
Proof.
  intros Hnd Hsome. unfold load_table_row, table_row.
  cbn [mbind option_bind].
  rewrite DictReader_row_full;
    [|by apply header_NoDup|by cbn; rewrite !length_fmap].
  cbn [mbind option_bind]. rewrite fmap_cons. cbn [zip zip_with].
  rewrite dict_get_head. cbn [mjoin option_join mbind option_bind].
  rewrite int_str. cbn [mbind option_bind fold_left].
  assert (load_cell t (Some data) ("Tooth", Some (str t)) = Some data) as ->
    by done.
  by apply load_cells.
Qed.

Lemma load_rows (cases teeth : list Z) : ∀ data,
  NoDup cases →
  (∀ t c, t ∈ teeth → c ∈ cases → is_Some (pivot_cell results t c)) →
  fold_left (load_table_row ("Tooth" :: (column_label <$> cases)))
            (table_row results cases <$> teeth) (Some data)
  = Some (fold_left
            (λ m t, fold_left
                      (λ m c, assign m c t (reloaded_value results t c))
                      cases m)
            teeth data).
Proof.
  induction teeth as [|t teeth IH]; intros data Hnd Hsome; [done|].
  rewrite fmap_cons. cbn [fold_left].
  rewrite load_row; [|done|intros c Hc; apply Hsome; [left|done]].
  apply IH; [done|]. intros t' c Ht Hc. apply Hsome; [by right|done].
Qed.
End reload.

(** C7 (amended).  For every multi-tooth result set with exactly one
    record per (tooth_number, wear_case) pair: the tooth numbers and the
    wear cases of the table ascend without repetition; when the set is not
    empty the table-format CSV is written, its header is
    [Tooth, W<c1>, W<c2>, ...] and its rows start with the tooth numbers in
    that order; and reloading the file gives every record's (tooth, case)
    the depth rounded by [round(1)], that is [rint(depth * 10) / 10] in
    doubles, which lies within 0.05 + 1e-12 of a depth in
    [0, MAX_THEORETICAL_WEAR], and gives no other pair a depth. *)
Theorem table_csv_round_trip (results : store) :
  one_record_per_pair results →
  let file := save_table_format results in
  let teeth := sorted_unique (tooth_number <$> results) in
  let cases := sorted_unique (wear_case <$> results) in
  (NoDup teeth ∧ nondecreasing (inject_Z <$> teeth)
   ∧ NoDup cases ∧ nondecreasing (inject_Z <$> cases))
  ∧ (results ≠ [] →
       ∃ rows, file = Some (("Tooth" :: ((λ c, "W" +:+ str c) <$> cases)) :: rows)
               ∧ head <$> rows = (λ t, Some (str t)) <$> teeth)
  ∧ (∀ r, r ∈ results →
       ∃ d, reloaded (load_all_teeth_data file)
                     (tooth_number r) (wear_case r) = Some d
            ∧ d = round1 (wear_depth_um r)
            ∧ (0 <= wear_depth_um r →
               wear_depth_um r <= Config.MAX_THEORETICAL_WEAR →
               Qabs (d - wear_depth_um r) <= 0.050000000001))
  ∧ (∀ t c d, reloaded (load_all_teeth_data file) t c = Some d →
       ∃ r, r ∈ results ∧ tooth_number r = t ∧ wear_case r = c).
Proof.
  intros [Hnd Hgrid] file teeth cases.
  destruct (sorted_unique_spec (tooth_number <$> results)) as [Hnt Ht].
  destruct (sorted_unique_spec (wear_case <$> results)) as [Hnc Hc].
  fold teeth in Hnt, Ht. fold cases in Hnc, Hc.
  split.
  { repeat split; [done| |done|].
    - apply (sorted_keys_nondecreasing id).
    - apply (sorted_keys_nondecreasing id). }
  destruct (decide (results = [])) as [->|Hne].
  { split; [done|]. split.
    - intros r Hr. by apply elem_of_nil in Hr.
    - intros t c d. done. }
  assert (∀ t c, t ∈ teeth → c ∈ cases →
            ∃ r, r ∈ results ∧ tooth_number r = t ∧ wear_case r = c) as Hcell.
  { intros t c Hin1 Hin2. apply Ht, list_elem_of_fmap in Hin1 as (r1 & -> & Hr1).
    apply Hc, list_elem_of_fmap in Hin2 as (r2 & -> & Hr2). by apply Hgrid. }
  assert (∀ t c, t ∈ teeth → c ∈ cases → is_Some (pivot_cell results t c))
    as Hsome.
  { intros t c Hin1 Hin2. destruct (Hcell t c Hin1 Hin2) as (r & Hr & <- & <-).
    rewrite pivot_cell_unique by done. by eexists. }
  assert (file
          = Some (("Tooth" :: (column_label <$> cases))
                  :: (table_row results cases <$> teeth))) as Hsave.
  { unfold file, save_table_format. destruct results as [|r0 rs]; [done|].
    by rewrite bool_decide_eq_true_2. }
  clearbody file. subst file.
  split.
  { intros _. eexists. split; [done|].
    rewrite <-list_fmap_compose. done. }
  assert (load_all_teeth_data
            (Some (("Tooth" :: (column_label <$> cases))
                   :: (table_row results cases <$> teeth)))
          = fold_left
              (λ m t, fold_left
                        (λ m c, assign m c t (reloaded_value results t c))
                        cases m)
              teeth ∅) as ->.
  { unfold load_all_teeth_data.
    assert (filter (λ cells : list string, cells ≠ [])
                   (table_row results cases <$> teeth)
            = table_row results cases <$> teeth) as ->.
    { apply filter_all.
      intros cells Hin. apply list_elem_of_fmap in Hin as (t & -> & _). done. }
    assert ((1 <? length ("Tooth" :: (column_label <$> cases)))%nat = true)
      as ->.
    { apply Nat.ltb_lt. cbn [length]. rewrite length_fmap.
      destruct results as [|r0 rs]; [done|].
      assert (wear_case r0 ∈ cases) as Hin by (apply Hc; rewrite fmap_cons; left).
      destruct cases; [by apply elem_of_nil in Hin|]. cbn [length]. lia. }
    rewrite bool_decide_eq_true_2 by done. cbn [andb].
    by rewrite load_rows. }
  split.
  - intros r Hr. rewrite reloaded_table.
    rewrite decide_True.
    2:{ split; [apply Ht|apply Hc]; by apply list_elem_of_fmap_2. }
    eexists. split; [done|]. unfold reloaded_value.
    rewrite pivot_cell_unique by done. cbn [default]. split; [done|].
    apply round1_close.
  - intros t c d. rewrite reloaded_table.
    destruct (decide (t ∈ teeth ∧ c ∈ cases)) as [[Hin1 Hin2]|]; [|done].
    intros _. by apply Hcell.
Qed.
End round_trip.

(** ** A sample table, and totality of feature extraction *)

Section closing_facts.
Import AllTeeth Tabulation Exn ImageProcessor Tooth1ImageProcessor.

Lemma sample_results_grid : one_record_per_pair sample_results.
Proof.
  split.
  - apply (bool_decide_unpack _). by vm_compute.
  - intros r1 r2 H1 H2.
    exists (default r1
              (head (filter (λ r, tooth_number r = tooth_number r1
                                  ∧ wear_case r = wear_case r2)
                            sample_results))).
    unfold sample_results in *.
    repeat (apply elem_of_cons in H1 as [->|H1]);
      [..|by apply elem_of_nil in H1];
      (repeat (apply elem_of_cons in H2 as [->|H2]);
       [..|by apply elem_of_nil in H2]);
      vm_compute;
      (split; [|split; reflexivity]);
      repeat first [apply list_elem_of_here | apply list_elem_of_further].
Qed.

(** C7 at two teeth and two wear cases. *)
Lemma table_csv_round_trip_witness :
  let file := save_table_format sample_results in
  let teeth := sorted_unique (tooth_number <$> sample_results) in
  let cases := sorted_unique (wear_case <$> sample_results) in
  (NoDup teeth ∧ nondecreasing (inject_Z <$> teeth)
   ∧ NoDup cases ∧ nondecreasing (inject_Z <$> cases))
  ∧ (sample_results ≠ [] →
       ∃ rows, file = Some (("Tooth" :: ((λ c, "W" +:+ str c) <$> cases)) :: rows)
               ∧ head <$> rows = (λ t, Some (str t)) <$> teeth)
  ∧ (∀ r, r ∈ sample_results →
       ∃ d, reloaded (load_all_teeth_data file)
                     (tooth_number r) (wear_case r) = Some d
            ∧ d = round1 (wear_depth_um r)
            ∧ (0 <= wear_depth_um r →
               wear_depth_um r <= Config.MAX_THEORETICAL_WEAR →
               Qabs (d - wear_depth_um r) <= 0.050000000001))
  ∧ (∀ t c d, reloaded (load_all_teeth_data file) t c = Some d →
       ∃ r, r ∈ sample_results ∧ tooth_number r = t ∧ wear_case r = c).
Proof.
  apply (table_csv_round_trip sample_results).
  exact sample_results_grid.
Defined.

(** On the operations of the example below, [binary64] gives what the
    doubles of the kernel give: the product of the double nearest to 0.35
    with 10, and the quotient of 4 by 10. *)
Lemma binary64_agrees_with_kernel :
  (∃ v, KernelFloat.to_Q KernelFloat.double_0_35 = Some v ∧ v == double_0_35)
  ∧ (∃ v, KernelFloat.to_Q
            (PrimFloat.mul KernelFloat.double_0_35 (KernelFloat.of_Z 10))
          = Some v
       ∧ v == binary64 (double_0_35 * 10))
  ∧ (∃ v, KernelFloat.to_Q
            (PrimFloat.div (KernelFloat.of_Z 4) (KernelFloat.of_Z 10))
          = Some v
       ∧ v == binary64 (4 / 10)).
Proof.
  split; [|split]; (eexists; split; [vm_compute; reflexivity|by vm_compute]).
Qed.

(** The double nearest to 0.35: its product with 10 rounds to 3.5, so
    [round(1)] gives 0.4 and the table holds "0.4"; what is read back
    lies more than 0.05 above the depth. *)
Lemma table_csv_round_trip_exceeds_bound :
  one_record_per_pair double_results
  ∧ binary64 double_0_35 == double_0_35
  ∧ binary64 (double_0_35 * 10) == 3.5
  ∧ save_table_format double_results = Some [["Tooth"; "W1"]; ["1"; "0.4"]]
  ∧ ∃ d, reloaded (load_all_teeth_data (save_table_format double_results))
                  1 1 = Some d
      ∧ d == binary64 0.4
      ∧ ¬ Qabs (d - double_0_35) <= 0.05.
Proof.
  split.
  { split; [apply (bool_decide_unpack _); by vm_compute|].
    intros r1 r2 H1 H2. exists r1.
    apply list_elem_of_singleton in H1 as ->.
    apply list_elem_of_singleton in H2 as ->.
    split; [left|done]. }
  split; [by vm_compute|]. split; [by vm_compute|]. split; [by vm_compute|].
  eexists. split; [by vm_compute|]. split; [by vm_compute|].
  vm_compute. intros H. by apply H.
Qed.

(** A result set that lacks one (tooth, case) pair: the pivot leaves that
    cell empty, the loader fails on it and returns the empty dictionary. *)
Lemma ragged_table_not_reloaded :
  ∃ file,
    save_table_format
      [mk_result 1 1 38.0 "single_image_analysis";
       mk_result 2 1 77.0 "single_image_analysis";
       mk_result 1 2 39.27 "single_image_analysis"]
    = Some file
    ∧ file = [["Tooth"; "W1"; "W2"]; ["1"; "38.0"; "77.0"]; ["2"; "39.3"; ""]]
    ∧ load_all_teeth_data (Some file) = ∅.
Proof. eexists. split; [by vm_compute|]. split; by vm_compute. Qed.

Section features.
Context {contour : Type} `{!Vision contour}.

(** C9.  Feature extraction is total with respect to division: a divisor
    of the form max(x, 1) never raises, and [extract_early_wear_features]
    returns a feature mapping for every pair of contours and every target
    scale. *)
Theorem feature_extraction_total (healthy worn : contour) (t : Q) :
  (∀ x d, truediv x (Py.max d 1) = inr (x / Py.max d 1))
  ∧ ∃ features, extract_early_wear_features healthy worn t = inr features.
Proof.
  split; [apply truediv_guarded|].
  destruct (estimate_scale_factor_total (cv2_contourArea healthy))
    as (s & Hs & _).
  destruct (unscaled_features_total healthy worn) as [raw Hraw].
  unfold extract_early_wear_features. rewrite Hs. cbn [mbind M_bind].
  rewrite Hraw. by eexists.
Qed.
End features.
End closing_facts.

(** ** What the multi-tooth pass keeps *)

Section all_teeth_pass.
Import AllTeeth.

Lemma flat_clamp_length ds : ∀ mx, length (flat_clamp mx ds) = length ds.
Proof.
  induction ds as [|d ds IH]; intros mx; simpl; [done|].
  destruct (Py.ltb d mx); simpl; by rewrite IH.
Qed.

(** Entry by entry, the clamp gives at least the original depth and at
    least the starting maximum. *)
Lemma flat_clamp_lookup ds : ∀ mx k d,
  ds !! k = Some d →
  ∃ d', flat_clamp mx ds !! k = Some d' ∧ d <= d' ∧ mx <= d'.
Proof.
  induction ds as [|d0 ds IH]; intros mx k d Hk; [done|].
  simpl. destruct (Py.ltb d0 mx) eqn:E;
    [apply ltb_spec in E|apply ltb_false in E].
  - destruct k as [|k]; simpl in *.
    + injection Hk as <-. exists mx. split; [done|]. lra.
    + by apply IH.
  - destruct k as [|k]; simpl in *.
    + injection Hk as <-. exists d0. split; [done|]. lra.
    + destruct (IH d0 k d Hk) as (d' & H1 & H2 & H3).
      exists d'. split; [done|]. lra.
Qed.

(** Every clamped depth is the starting maximum or one of the depths. *)
Lemma flat_clamp_elem ds : ∀ mx d',
  d' ∈ flat_clamp mx ds → d' = mx ∨ d' ∈ ds.
Proof.
  induction ds as [|d0 ds IH]; intros mx d' Hin; simpl in Hin.
  { by apply elem_of_nil in Hin. }
  destruct (Py.ltb d0 mx).
  - apply elem_of_cons in Hin as [->|Hin]; [by left|].
    destruct (IH _ _ Hin) as [->|H]; [by left|right; by right].
  - apply elem_of_cons in Hin as [->|Hin]; [right; by left|].
    destruct (IH _ _ Hin) as [->|H]; right; [by left|by right].
Qed.

(** The clamp leaves a list alone exactly when the list is non-decreasing
    and starts at or above the maximum. *)
Lemma flat_clamp_fixed ds : ∀ mx,
  flat_clamp mx ds = ds
  ↔ nondecreasing ds ∧ match ds with [] => True | d :: _ => mx <= d end.
Proof.
  induction ds as [|d ds IH]; intros mx; simpl; [done|].
  destruct (Py.ltb d mx) eqn:E;
    [apply ltb_spec in E|apply ltb_false in E].
  - split.
    + intros H. injection H as H _. subst mx. lra.
    + intros [_ H]. lra.
  - split.
    + intros H. injection H as H. apply IH in H as [H1 H2].
      split; [|done]. split; [|done]. by destruct ds.
    + intros [[H1 H2] _]. f_equal. apply IH. split; [done|]. by destruct ds.
Qed.

(** Position [j] of the store belongs to the sorted group of its tooth. *)
Lemma position_in_group (l : store) j r :
  l !! j = Some r →
  ∃ k, sorted_refs l (tooth_number r) !! k = Some j.
Proof.
  intros Hj. apply list_elem_of_lookup_1, elem_of_sorted_refs. split.
  - by eapply lookup_lt_Some.
  - unfold tooth_at. by rewrite list_lookup_total_alt, Hj.
Qed.

(** What the pass does to the record at position [j]: the other fields are
    kept and the depth is the clamped depth of its place in the history. *)
Lemma enforce_at (l : store) j r k :
  l !! j = Some r →
  sorted_refs l (tooth_number r) !! k = Some j →
  ∃ r', enforce_monotonicity_for_all_teeth l !! j = Some r'
    ∧ set_wear_depth_um r' 0 = set_wear_depth_um r 0
    ∧ flat_clamp 0 (depth_at l <$> sorted_refs l (tooth_number r)) !! k
      = Some (wear_depth_um r').
Proof.
  intros Hj Hk. destruct (enforce_spec l) as [Hsk Hd].
  set (out := enforce_monotonicity_for_all_teeth l) in *.
  assert (skeleton out !! j = skeleton l !! j) as Hs by by rewrite Hsk.
  unfold skeleton in Hs. rewrite !list_lookup_fmap, Hj in Hs.
  destruct (out !! j) as [r'|] eqn:E; [|done]. simpl in Hs.
  exists r'. split; [done|]. split; [congruence|].
  rewrite <-Hd, list_lookup_fmap, Hk. simpl. f_equal.
  unfold depth_at. by rewrite list_lookup_total_alt, E.
Qed.

(** X1.  After [enforce_monotonicity_for_all_teeth] the list has the same
    length and every record keeps its position, wear case, tooth number and
    method; its depth is at least the original depth and at least 0. *)
Theorem all_teeth_only_raises (results : store) :
  let out := enforce_monotonicity_for_all_teeth results in
  length out = length results
  ∧ ∀ i r, results !! i = Some r →
      ∃ r', out !! i = Some r'
        ∧ wear_case r' = wear_case r ∧ tooth_number r' = tooth_number r
        ∧ method r' = method r
        ∧ wear_depth_um r <= wear_depth_um r' ∧ 0 <= wear_depth_um r'.
Proof.
  intros out. split.
  { symmetry. apply skeleton_length. symmetry. apply enforce_spec. }
  intros i r Hi. destruct (position_in_group _ _ _ Hi) as [k Hk].
  destruct (enforce_at _ _ _ _ Hi Hk) as (r' & Ho & Hs & Hc).
  exists r'. split; [done|].
  assert ((depth_at results <$> sorted_refs results (tooth_number r)) !! k
          = Some (wear_depth_um r)) as Hd.
  { rewrite list_lookup_fmap, Hk. simpl. f_equal.
    unfold depth_at. by rewrite list_lookup_total_alt, Hi. }
  destruct (flat_clamp_lookup _ 0 _ _ Hd) as (d' & Hd' & H1 & H2).
  rewrite Hc in Hd'. injection Hd' as <-.
  destruct r, r'. unfold set_wear_depth_um in Hs. simpl in *.
  by inversion Hs.
Qed.

(** Where a record of the output comes from. *)
Lemma enforce_elem (results : store) (r' : result) :
  r' ∈ enforce_monotonicity_for_all_teeth results →
  ∃ r, r ∈ results ∧ set_wear_depth_um r' 0 = set_wear_depth_um r 0
    ∧ (wear_depth_um r' = 0
       ∨ ∃ r2, r2 ∈ results ∧ tooth_number r2 = tooth_number r'
               ∧ wear_depth_um r2 = wear_depth_um r').
Proof.
  intros Hin. apply list_elem_of_lookup_1 in Hin as [j Hj].
  destruct (enforce_spec results) as [Hsk _].
  assert (skeleton (enforce_monotonicity_for_all_teeth results) !! j
          = skeleton results !! j) as Hs by by rewrite Hsk.
  unfold skeleton in Hs. rewrite !list_lookup_fmap, Hj in Hs.
  destruct (results !! j) as [r|] eqn:E; [|done]. simpl in Hs.
  assert (set_wear_depth_um r' 0 = set_wear_depth_um r 0) as Hs'
    by congruence.
  clear Hs. rename Hs' into Hs.
  exists r. split; [by eapply list_elem_of_lookup_2|]. split; [done|].
  destruct (position_in_group _ _ _ E) as [k Hk].
  destruct (enforce_at _ _ _ _ E Hk) as (r2 & Ho & _ & Hc).
  rewrite Hj in Ho. injection Ho as <-.
  assert (tooth_number r' = tooth_number r) as Ht.
  { destruct r, r'. unfold set_wear_depth_um in Hs. simpl in *.
    by inversion Hs. }
  apply list_elem_of_lookup_2, flat_clamp_elem in Hc as [->|Hc]; [by left|].
  right. apply list_elem_of_fmap in Hc as (i & Hd & Hi).
  apply elem_of_sorted_refs in Hi as [Hlt Hti].
  destruct (lookup_lt_is_Some_2 _ _ Hlt) as [ri Hri].
  exists ri. split; [by eapply list_elem_of_lookup_2|].
  unfold tooth_at, depth_at in *.
  rewrite list_lookup_total_alt, Hri in Hti, Hd. simpl in *.
  split; congruence.
Qed.

(** X2.  Every depth found after [enforce_monotonicity_for_all_teeth] is 0,
    the initial running maximum, or the original depth of a record of the
    same tooth. *)
Theorem all_teeth_no_new_depth (results : store) (r' : result) :
  r' ∈ enforce_monotonicity_for_all_teeth results →
  wear_depth_um r' = 0
  ∨ ∃ r, r ∈ results ∧ tooth_number r = tooth_number r'
         ∧ wear_depth_um r = wear_depth_um r'.
Proof.
  intros Hin. destruct (enforce_elem results r' Hin) as (r & _ & _ & H).
  exact H.
Qed.

(** X2 at two records of tooth 1, the second of which is raised from 20
    to 50. *)
Lemma all_teeth_no_new_depth_witness :
  wear_depth_um (mk_result 2 1 50 "error") = 0
  ∨ ∃ r, r ∈ [mk_result 1 1 50 "a"; mk_result 2 1 20 "error"]
         ∧ tooth_number r = tooth_number (mk_result 2 1 50 "error")
         ∧ wear_depth_um r = wear_depth_um (mk_result 2 1 50 "error").
Proof.
  apply (all_teeth_no_new_depth
           [mk_result 1 1 50 "a"; mk_result 2 1 20 "error"]).
  vm_compute. right. left.
Defined.

(** X3.  [enforce_monotonicity_for_all_teeth] returns its input unchanged
    exactly when the history of every tooth is already non-decreasing and
    has no negative depth. *)
Theorem all_teeth_unchanged_iff (results : store) :
  enforce_monotonicity_for_all_teeth results = results
  ↔ ∀ t, nondecreasing (tooth_history t results)
         ∧ Forall (λ d, 0 <= d) (tooth_history t results).
Proof.
  destruct (enforce_spec results) as [Hsk Hd].
  set (out := enforce_monotonicity_for_all_teeth results) in *.
  assert (∀ t, tooth_history t results
               = depth_at results <$> sorted_refs results t) as Hh.
  { intros t. by apply tooth_history_refs. }
  assert (∀ ds, nondecreasing ds →
            match ds with [] => True | d :: _ => 0 <= d end →
            Forall (λ d, 0 <= d) ds) as Hall.
  { intros ds Hnd H0. apply Forall_forall. intros d Hin.
    destruct ds as [|d0 ds]; [by apply elem_of_nil in Hin|].
    apply elem_of_cons in Hin as [->|Hin]; [done|].
    pose proof (nondecreasing_head d0 ds Hnd d Hin). lra. }
  split.
  - intros Heq t. rewrite Heq in Hd. specialize (Hd t). symmetry in Hd.
    apply flat_clamp_fixed in Hd as [H1 H2]. rewrite Hh. split; [done|].
    by apply Hall.
  - intros Hmono. apply list_eq. intros j.
    assert (skeleton out !! j = skeleton results !! j) as Hj by by rewrite Hsk.
    unfold skeleton in Hj. rewrite !list_lookup_fmap in Hj.
    destruct (results !! j) as [r|] eqn:E1, (out !! j) as [r'|] eqn:E2;
      simpl in Hj; try done.
    f_equal. apply result_eq_skeleton; [congruence|].
    destruct (position_in_group _ _ _ E1) as [k Hk].
    destruct (enforce_at _ _ _ _ E1 Hk) as (r2 & Ho & _ & Hc).
    fold out in Ho. rewrite E2 in Ho. injection Ho as <-.
    destruct (Hmono (tooth_number r)) as [Hnd H0]. rewrite Hh in Hnd, H0.
    assert (flat_clamp 0 (depth_at results <$> sorted_refs results (tooth_number r))
            = depth_at results <$> sorted_refs results (tooth_number r)) as Hfix.
    { apply flat_clamp_fixed. split; [done|].
      destruct (depth_at results <$> sorted_refs results (tooth_number r));
        [done|]. by apply Forall_cons in H0 as [? _]. }
    rewrite Hfix, list_lookup_fmap, Hk in Hc. simpl in Hc.
    injection Hc as Hc. rewrite <-Hc.
    unfold depth_at. by rewrite list_lookup_total_alt, E1.
Qed.
End all_teeth_pass.

(** ** What the single-tooth pass keeps *)

Section tooth1_pass.
Import Tooth1.

(** A list whose adjacent elements are in order is left alone by the
    stable sort. *)
Lemma insert_by_head {A} (le : A → A → bool) x l :
  match l with [] => True | y :: _ => le x y = true end →
  Py.insert_by le x l = x :: l.
Proof. destruct l as [|y l]; [done|]. simpl. by intros ->. Qed.

Lemma sort_by_fixed {A} (le : A → A → bool) (l : list A) :
  (∀ i x y, l !! i = Some x → l !! S i = Some y → le x y = true) →
  Py.sort_by le l = l.
Proof.
  induction l as [|x l IH]; intros Hadj; [done|].
  simpl. rewrite IH by (intros i a b; apply (Hadj (S i))).
  apply insert_by_head. destruct l as [|y l]; [done|].
  by apply (Hadj 0%nat).
Qed.

Lemma sorted_adjacent {A} (key : A → Z) (l : list A) i x y :
  Py.sorted key l !! i = Some x → Py.sorted key l !! S i = Some y →
  (key x <= key y)%Z.
Proof.
  intros Hx Hy. pose proof (sorted_keys_nondecreasing key l) as Hnd.
  rewrite Zle_Qle.
  apply (nondecreasing_lookup _ i (S i) _ _ Hnd); [lia|..];
    rewrite list_lookup_fmap; [by rewrite Hx|by rewrite Hy].
Qed.

Lemma sorted_adjacent_lt {A} (key : A → Z) (l : list A) i j x y :
  (i < j)%nat →
  Py.sorted key l !! i = Some x → Py.sorted key l !! j = Some y →
  (key x <= key y)%Z.
Proof.
  intros Hij Hx Hy. pose proof (sorted_keys_nondecreasing key l) as Hnd.
  rewrite Zle_Qle.
  apply (nondecreasing_lookup _ i j _ _ Hnd Hij);
    rewrite list_lookup_fmap; [by rewrite Hx|by rewrite Hy].
Qed.

Lemma sorted_sorted {A} (key : A → Z) (l : list A) :
  Py.sorted key (Py.sorted key l) = Py.sorted key l.
Proof.
  apply sort_by_fixed. intros i x y Hx Hy. apply Z.leb_le.
  by eapply sorted_adjacent.
Qed.

Lemma adjust_wear_case prev cur : wear_case (adjust prev cur) = wear_case cur.
Proof. unfold adjust. by destruct (Py.ltb _ _). Qed.

Lemma walk_wear_case rest : ∀ prev,
  wear_case <$> walk prev rest = wear_case <$> rest.
Proof.
  induction rest as [|cur rest IH]; intros prev; [done|].
  simpl. by rewrite adjust_wear_case, IH.
Qed.

(** An adjustment leaves the record alone or puts its depth in range. *)
Lemma adjust_cases prev cur :
  adjust prev cur = cur
  ∨ (in_range (adjust prev cur)
     ∧ method (adjust prev cur) = (λ m, m +:+ "_monotonic") <$> method cur).
Proof.
  unfold adjust, in_range, Config.MAX_THEORETICAL_WEAR.
  destruct (Py.ltb _ _); [right|by left]. simpl.
  split; [|done]. py_cases; lra.
Qed.

Lemma walk_cases rest : ∀ prev i r',
  walk prev rest !! i = Some r' →
  rest !! i = Some r'
  ∨ (in_range r'
     ∧ ∃ r, rest !! i = Some r
            ∧ method r' = (λ m, m +:+ "_monotonic") <$> method r).
Proof.
  induction rest as [|cur rest IH]; intros prev i r' Hi; [done|].
  destruct i as [|i]; simpl in *.
  - injection Hi as <-. destruct (adjust_cases prev cur) as [->|[H1 H2]];
      [by left|right]. split; [done|]. by exists cur.
  - by eapply IH.
Qed.

Lemma adjust_fixed prev cur :
  Py.max 0 (wear_depth_um prev) <= Py.max 0 (wear_depth_um cur) →
  adjust prev cur = cur.
Proof.
  intros H. unfold adjust.
  assert (Py.ltb (Py.max 0 (wear_depth_um cur)) (Py.max 0 (wear_depth_um prev))
          = false) as -> by (apply ltb_false; lra).
  done.
Qed.

Lemma walk_fixed rest : ∀ first,
  (∀ i prev cur, (first :: rest) !! i = Some prev →
     (first :: rest) !! S i = Some cur →
     Py.max 0 (wear_depth_um prev) <= Py.max 0 (wear_depth_um cur)) →
  walk first rest = rest.
Proof.
  induction rest as [|cur rest IH]; intros first Hadj; [done|].
  simpl. rewrite adjust_fixed by (by apply (Hadj 0%nat)).
  f_equal. apply IH. intros i a b. apply (Hadj (S i)).
Qed.

Lemma walk_in_range rest : ∀ first,
  in_range first → Forall in_range rest →
  Forall in_range (walk first rest)
  ∧ ∀ i prev cur, (first :: walk first rest) !! i = Some prev →
      (first :: walk first rest) !! S i = Some cur →
      wear_depth_um prev <= wear_depth_um cur.
Proof.
  induction rest as [|r rest IH]; intros first Hf Hr.
  { split; [constructor|]. intros i prev cur _ Hc. by destruct i. }
  apply Forall_cons in Hr as [Hr Hrest].
  destruct (adjust_in_range first r Hf Hr) as [Ha [Hle _]].
  destruct (IH _ Ha Hrest) as [IH1 IH2]. split.
  - simpl. by constructor.
  - intros i prev cur Hp Hc. destruct i as [|i].
    + simpl in *. by simplify_eq.
    + by apply (IH2 i).
Qed.

(** X4.  [enforce_monotonicity_for_tooth1] keeps the number of records and
    their wear cases: the wear cases of the output are those of the input
    in the order of the stable sort, a permutation of the input's, and
    ascending. *)
Theorem tooth1_pass_keeps_wear_cases (results : list result) :
  let out := enforce_monotonicity_for_tooth1 results in
  length out = length results
  ∧ wear_case <$> out = wear_case <$> Py.sorted wear_case results
  ∧ wear_case <$> out ≡ₚ wear_case <$> results
  ∧ ∀ i j r1 r2, (i < j)%nat → out !! i = Some r1 → out !! j = Some r2 →
      (wear_case r1 <= wear_case r2)%Z.
Proof.
  intros out.
  assert (wear_case <$> out = wear_case <$> Py.sorted wear_case results) as Hw.
  { unfold out. rewrite enforce_walk.
    destruct (Py.sorted wear_case results) as [|first rest]; [done|].
    rewrite !fmap_cons. by rewrite walk_wear_case. }
  split; [|split; [done|split]].
  - apply (f_equal length) in Hw. rewrite !length_fmap in Hw. rewrite Hw.
    apply Permutation_length, sorted_perm.
  - rewrite Hw. by rewrite sorted_perm.
  - intros i j r1 r2 Hij H1 H2.
    pose proof (sorted_keys_nondecreasing wear_case results) as Hnd.
    rewrite Zle_Qle.
    assert ((wear_case <$> Py.sorted wear_case results) !! i
            = Some (wear_case r1)) as Hi
      by (by rewrite <-Hw, list_lookup_fmap, H1).
    assert ((wear_case <$> Py.sorted wear_case results) !! j
            = Some (wear_case r2)) as Hj
      by (by rewrite <-Hw, list_lookup_fmap, H2).
    rewrite list_lookup_fmap in Hi, Hj.
    destruct (Py.sorted wear_case results !! i) as [a|] eqn:Ei; [|done].
    destruct (Py.sorted wear_case results !! j) as [b|] eqn:Ej; [|done].
    simpl in Hi, Hj. injection Hi as <-. injection Hj as <-.
    apply (nondecreasing_lookup _ i j _ _ Hnd Hij);
      rewrite list_lookup_fmap; [by rewrite Ei|by rewrite Ej].
Qed.

(** X5.  Each record of the output of [enforce_monotonicity_for_tooth1] is
    the record of the sorted input at the same position, or an adjusted one
    whose depth lies in [0, MAX_THEORETICAL_WEAR] and whose method, when
    there is one, is the old one followed by "_monotonic".  Hence depths
    that all lie in that range stay in it. *)
Theorem tooth1_pass_adjusts_into_range (results : list result) :
  let sorted_results := Py.sorted wear_case results in
  let out := enforce_monotonicity_for_tooth1 results in
  (∀ i r', out !! i = Some r' →
     sorted_results !! i = Some r'
     ∨ (in_range r'
        ∧ ∃ r, sorted_results !! i = Some r
               ∧ method r' = (λ m, m +:+ "_monotonic") <$> method r))
  ∧ (Forall in_range results → Forall in_range out).
Proof.
  intros sorted_results out.
  assert (∀ i r', out !! i = Some r' →
     sorted_results !! i = Some r'
     ∨ (in_range r'
        ∧ ∃ r, sorted_results !! i = Some r
               ∧ method r' = (λ m, m +:+ "_monotonic") <$> method r)) as Hcases.
  { unfold out, sorted_results. rewrite enforce_walk.
    destruct (Py.sorted wear_case results) as [|first rest]; [done|].
    intros i r' Hi. destruct i as [|i]; [by left|].
    simpl in *. by eapply walk_cases. }
  split; [done|]. intros Hr. apply Forall_forall. intros r' Hin.
  apply list_elem_of_lookup_1 in Hin as [i Hi].
  destruct (Hcases i r' Hi) as [Hs|[Hs _]]; [|done].
  apply list_elem_of_lookup_2 in Hs. unfold sorted_results in Hs.
  rewrite sorted_perm in Hs. by eapply Forall_forall in Hr.
Qed.

(** X6.  When the records, sorted by wear case, already have non-decreasing
    depths as the pass compares them (clamped to >= 0),
    [enforce_monotonicity_for_tooth1] returns the sorted list itself. *)
Theorem tooth1_pass_monotone_unchanged (results : list result) :
  let sorted_results := Py.sorted wear_case results in
  (∀ i prev cur, sorted_results !! i = Some prev →
     sorted_results !! S i = Some cur →
     Py.max 0 (wear_depth_um prev) <= Py.max 0 (wear_depth_um cur)) →
  enforce_monotonicity_for_tooth1 results = sorted_results.
Proof.
  intros sorted_results Hadj. rewrite enforce_walk. fold sorted_results.
  destruct sorted_results as [|first rest]; [done|].
  f_equal. by apply walk_fixed.
Qed.

(** X6 at three records given out of order, one of them with a negative
    depth that is left as it is. *)
Lemma tooth1_pass_monotone_unchanged_witness :
  enforce_monotonicity_for_tooth1
    [mk_result 2 77.0 (Some "manual_adjustment"); mk_result 1 (-5) None;
     mk_result 3 115 (Some "actual_measurement")]
  = [mk_result 1 (-5) None; mk_result 2 77.0 (Some "manual_adjustment");
     mk_result 3 115 (Some "actual_measurement")].
Proof.
  apply (tooth1_pass_monotone_unchanged
           [mk_result 2 77.0 (Some "manual_adjustment"); mk_result 1 (-5) None;
            mk_result 3 115 (Some "actual_measurement")]).
  intros i prev cur Hp Hc.
  destruct i as [|[|[|i]]]; vm_compute in Hp, Hc; simplify_eq;
    by apply Qle_bool_iff.
Defined.

(** X7.  On records whose depths lie in [0, MAX_THEORETICAL_WEAR] a second
    run of [enforce_monotonicity_for_tooth1] returns the result of the
    first unchanged. *)
Theorem tooth1_pass_idempotent (results : list result) :
  Forall in_range results →
  enforce_monotonicity_for_tooth1 (enforce_monotonicity_for_tooth1 results)
  = enforce_monotonicity_for_tooth1 results.
Proof.
  intros Hr.
  assert (Forall in_range (Py.sorted wear_case results)) as Hs
    by by rewrite sorted_perm.
  rewrite (enforce_walk results).
  destruct (Py.sorted wear_case results) as [|first rest] eqn:E; [done|].
  apply Forall_cons in Hs as [Hf Hrest].
  destruct (walk_in_range rest first Hf Hrest) as [Hin Hmono].
  assert (Py.sorted wear_case (first :: walk first rest)
          = first :: walk first rest) as Hsorted.
  { apply sort_by_fixed. intros i x y Hx Hy. apply Z.leb_le.
    assert ((wear_case <$> first :: rest) !! i = Some (wear_case x)) as Hx'.
    { rewrite fmap_cons, <-(walk_wear_case rest first), <-fmap_cons.
      by rewrite list_lookup_fmap, Hx. }
    assert ((wear_case <$> first :: rest) !! S i = Some (wear_case y)) as Hy'.
    { rewrite fmap_cons, <-(walk_wear_case rest first), <-fmap_cons.
      by rewrite list_lookup_fmap, Hy. }
    rewrite list_lookup_fmap in Hx', Hy'. rewrite <-E in Hx', Hy'.
    destruct (Py.sorted wear_case results !! i) as [a|] eqn:Ea; [|done].
    destruct (Py.sorted wear_case results !! S i) as [b|] eqn:Eb; [|done].
    simpl in *. injection Hx' as <-. injection Hy' as <-.
    by eapply sorted_adjacent. }
  rewrite enforce_walk, Hsorted. f_equal. apply walk_fixed.
  intros i prev cur Hp Hc. pose proof (Hmono i prev cur Hp Hc) as Hle.
  assert (in_range prev ∧ in_range cur) as [[Hp0 _] [Hc0 _]].
  { assert (Forall in_range (first :: walk first rest)) as Hall
      by by constructor.
    split; eapply Forall_forall; try apply Hall;
      by eapply list_elem_of_lookup_2. }
  py_cases; lra.
Qed.

(** X7 at three records, the second of which is adjusted by the first
    pass. *)
Lemma tooth1_pass_idempotent_witness :
  enforce_monotonicity_for_tooth1
    (enforce_monotonicity_for_tooth1
       [mk_result 1 77.0 (Some "optimized"); mk_result 2 40.0 (Some "optimized");
        mk_result 3 50.0 None])
  = enforce_monotonicity_for_tooth1
      [mk_result 1 77.0 (Some "optimized"); mk_result 2 40.0 (Some "optimized");
       mk_result 3 50.0 None].
Proof.
  apply tooth1_pass_idempotent. repeat constructor; by vm_compute.
Defined.
End tooth1_pass.

(** ** Wear numbers in file names *)

Section file_names.
Import Tabulation Tooth1ImageProcessor FileNames.

Lemma append_cons (a : ascii) (s t : string) :
  String a s +:+ t = String a (s +:+ t).
Proof. done. Qed.

Lemma append_nil (t : string) : EmptyString +:+ t = t.
Proof. done. Qed.

Lemma split_not_nil sep s : split sep s ≠ [].
Proof.
  destruct s as [|a s]; simpl; [done|].
  destruct (Ascii.eqb a sep); [done|]. by destruct (split sep s).
Qed.

(** [(d + sep + s).split(sep) == d.split(sep) + s.split(sep)] *)
Lemma split_app sep d s :
  split sep (d +:+ String sep s) = split sep d ++ split sep s.
Proof.
  induction d as [|a d IH].
  - rewrite append_nil. simpl. by rewrite Ascii.eqb_refl.
  - rewrite append_cons. simpl. rewrite IH.
    destruct (Ascii.eqb a sep); [done|].
    pose proof (split_not_nil sep d). by destruct (split sep d).
Qed.

(** The characters of [s] all differ from [sep]. *)
Lemma split_no_sep sep s :
  (∀ a, a ∈ list_ascii_of_string s → a ≠ sep) → split sep s = [s].
Proof.
  induction s as [|a s IH]; intros Hs; [done|].
  simpl. assert (Ascii.eqb a sep = false) as ->.
  { apply Ascii.eqb_neq, Hs. simpl. by left. }
  rewrite IH; [done|]. intros b Hb. apply Hs. simpl. by right.
Qed.

Lemma last_app_not_nil {A} (l1 l2 : list A) d :
  l2 ≠ [] → List.last (l1 ++ l2) d = List.last l2 d.
Proof.
  intros Hne. induction l1 as [|x l1 IH]; [done|].
  simpl. rewrite IH. destruct (l1 ++ l2) eqn:E; [|done].
  apply app_eq_nil in E as [_ ->]. done.
Qed.

Lemma contains_cons sub a s :
  contains sub (String a s) = String.prefix sub (String a s) || contains sub s.
Proof. done. Qed.

(** ["/" not in s] in terms of the characters of [s]. *)
Lemma contains_char_false (c : ascii) s :
  contains (String c EmptyString) s = false →
  ∀ a, a ∈ list_ascii_of_string s → a ≠ c.
Proof.
  induction s as [|b s IH]; intros Hc a Ha; simpl in Ha.
  { by apply elem_of_nil in Ha. }
  rewrite contains_cons in Hc. apply orb_false_iff in Hc as [Hp Hc].
  apply elem_of_cons in Ha as [->|Ha]; [|by apply IH].
  simpl in Hp. destruct (ascii_dec c b) as [->|Hn]; [|congruence].
  by destruct s.
Qed.

Lemma contains_char_true (c : ascii) s :
  (∀ a, a ∈ list_ascii_of_string s → a ≠ c) →
  contains (String c EmptyString) s = false.
Proof.
  induction s as [|b s IH]; intros Hs; [done|].
  rewrite contains_cons. apply orb_false_iff. split.
  - simpl. destruct (ascii_dec c b) as [->|Hn]; [|done].
    exfalso. apply (Hs b); [|done]. simpl. by left.
  - apply IH. intros a Ha. apply Hs. simpl. by right.
Qed.

Lemma basename_app dir name :
  contains "/" name = false → basename (dir +:+ "/" +:+ name) = name.
Proof.
  intros Hc. unfold basename.
  change ("/" +:+ name) with (String "/" name).
  rewrite split_app, last_app_not_nil by apply split_not_nil.
  by rewrite split_no_sep by by apply contains_char_false.
Qed.

Lemma basename_plain name : contains "/" name = false → basename name = name.
Proof.
  intros Hc. unfold basename.
  by rewrite split_no_sep by by apply contains_char_false.
Qed.

Lemma digits_only_chars s a :
  digits_only s → a ∈ list_ascii_of_string s → is_digit a = true.
Proof.
  induction s as [|b s IH]; intros Hd Ha; simpl in *.
  { by apply elem_of_nil in Ha. }
  destruct Hd as [Hb Hd]. apply elem_of_cons in Ha as [->|Ha]; [|by apply IH].
  repeat (destruct Hb as [->|Hb]; [done|]). by subst.
Qed.

Lemma list_ascii_app s t :
  list_ascii_of_string (s +:+ t)
  = list_ascii_of_string s ++ list_ascii_of_string t.
Proof.
  induction s as [|a s IH]; [done|].
  rewrite append_cons. simpl. by rewrite IH.
Qed.

Lemma contains_app_false sub s t :
  contains sub (s +:+ t) = false → contains sub t = false.
Proof.
  induction s as [|a s IH]; [done|].
  rewrite append_cons, contains_cons. intros H.
  apply orb_false_iff in H as [_ H]. by apply IH.
Qed.

(** The name [c<n> <rest>] gives [n], whatever the character [c]. *)
Lemma wear_number_of_name (c : ascii) (n : Z) rest :
  (0 <= n)%Z → c ≠ " "%char →
  head (split " " (String c (str n) +:+ " " +:+ rest)) ≫= (λ w, int (tail w))
  = Some n.
Proof.
  intros Hn Hc.
  change (" " +:+ rest) with (String " " rest). rewrite split_app.
  rewrite split_no_sep.
  - simpl. apply int_str.
  - intros a Ha. simpl in Ha. apply elem_of_cons in Ha as [->|Ha]; [done|].
    destruct (str_nonneg_digits n Hn) as [Hd _].
    pose proof (digits_only_chars _ _ Hd Ha) as Hdig. by intros ->.
Qed.

(** A name [c<n> <rest>] has no slash when [c] and [rest] have none. *)
Lemma name_no_slash (c : ascii) (n : Z) rest :
  (0 <= n)%Z → c ≠ "/"%char → contains "/" rest = false →
  contains "/" (String c (str n) +:+ " " +:+ rest) = false.
Proof.
  intros Hn Hc Hrest. apply contains_char_true. intros a Ha.
  rewrite list_ascii_app in Ha. apply elem_of_app in Ha as [Ha|Ha].
  - simpl in Ha. apply elem_of_cons in Ha as [->|Ha]; [done|].
    destruct (str_nonneg_digits n Hn) as [Hd _].
    pose proof (digits_only_chars _ _ Hd Ha) as Hdig. by intros ->.
  - change (" " +:+ rest) with (String " " rest) in Ha. simpl in Ha.
    apply elem_of_cons in Ha as [->|Ha]; [done|].
    by apply (contains_char_false "/" rest).
Qed.

(** X8.  [extract_wear_number] returns [n] on a file name made of one
    character other than a slash or a space, the numeral of [n >= 0], a
    space and any rest without a slash, whether or not a directory
    precedes it. *)
Theorem extract_wear_number_of_name (dir rest : string) (c : ascii) (n : Z) :
  (0 <= n)%Z → c ≠ "/"%char → c ≠ " "%char → contains "/" rest = false →
  let name := String c (str n) +:+ " " +:+ rest in
  extract_wear_number name = Some n
  ∧ extract_wear_number (dir +:+ "/" +:+ name) = Some n.
Proof.
  intros Hn Hc1 Hc2 Hrest name.
  pose proof (name_no_slash c n rest Hn Hc1 Hrest) as Hname.
  unfold extract_wear_number. fold name in Hname.
  rewrite basename_app, basename_plain by done.
  split; by apply wear_number_of_name.
Qed.

(** X8 at a file of the measurement directory, whose name has spaces. *)
Lemma extract_wear_number_of_name_witness :
  extract_wear_number "W12 scale 250.7 micro meter.jpg" = Some 12%Z
  ∧ extract_wear_number
      "database/Wear depth measurments/W12 scale 250.7 micro meter.jpg"
    = Some 12%Z.
Proof.
  apply (extract_wear_number_of_name "database/Wear depth measurments"
           "scale 250.7 micro meter.jpg" "W" 12); [lia|done|done|done].
Defined.

(** *** The wear case read by the batch processor *)

Lemma is_digit_lower a : is_digit (lower_ascii a) = is_digit a.
Proof. by destruct a as [[] [] [] [] [] [] [] []]. Qed.

Lemma has_digit_lower s : has_digit (lower s) = has_digit s.
Proof.
  induction s as [|a s IH]; [done|]. simpl. by rewrite is_digit_lower, IH.
Qed.

Lemma is_digit_char a :
  is_digit a = true →
  (a = "0" ∨ a = "1" ∨ a = "2" ∨ a = "3" ∨ a = "4" ∨ a = "5" ∨ a = "6"
   ∨ a = "7" ∨ a = "8" ∨ a = "9")%char.
Proof. destruct a as [[] [] [] [] [] [] [] []]; try done; tauto. Qed.

Lemma take_digits_digits s : digits_only (take_digits s).
Proof.
  induction s as [|a s IH]; [done|]. simpl.
  destruct (is_digit a) eqn:E; [|done]. split; [|done].
  by apply is_digit_char.
Qed.

(** [int] of a non-empty run of digits is a natural number. *)
Lemma int_digits s :
  digits_only s → s ≠ EmptyString → ∃ n, int s = Some n ∧ (0 <= n)%Z.
Proof.
  intros Hd Hne.
  assert (∃ u, NilEmpty.uint_of_string s = Some u) as [u Hu].
  { clear Hne. induction s as [|a s IH]; [by eexists|].
    destruct Hd as [Ha Hd]. destruct (IH Hd) as [u Hu]. simpl. rewrite Hu.
    repeat (destruct Ha as [->|Ha]; [by eexists|]). subst. by eexists. }
  destruct (digits_only_head s Hd Hne) as (a & s' & -> & Ha).
  unfold int, NilZero.int_of_string. rewrite Ha.
  unfold NilZero.uint_of_string. rewrite Hu. simpl.
  eexists. split; [done|]. unfold Z.of_uint. apply N2Z.is_nonneg.
Qed.

Lemma match_at_digits lit s g :
  match_at lit s = Some g → digits_only g ∧ g ≠ EmptyString.
Proof.
  unfold match_at. destruct (strip_prefix lit s) as [rest|]; [|done]. simpl.
  pose proof (take_digits_digits rest) as Hd.
  destruct (take_digits rest); [done|]. intros H. by injection H as <-.
Qed.

Lemma re_search_digits lit s g :
  re_search lit s = Some g → digits_only g ∧ g ≠ EmptyString.
Proof.
  induction s as [|a s IH]; simpl.
  - destruct (match_at lit "") eqn:E; [|done].
    intros H. injection H as <-. by eapply match_at_digits.
  - destruct (match_at lit (String a s)) eqn:E; [|done].
    intros H. injection H as <-. by eapply match_at_digits.
Qed.

(** The pattern [(\d+)] matches as soon as the name has a digit. *)
Lemma re_search_any_digit s :
  has_digit s = true → is_Some (re_search "" s).
Proof.
  induction s as [|a s IH]; [done|]. simpl. intros H.
  unfold match_at. simpl. destruct (is_digit a) eqn:E; [by eexists|].
  simpl in H. by apply IH.
Qed.

Lemma strip_prefix_no_digit lit : ∀ s rest,
  strip_prefix lit s = Some rest → has_digit s = false →
  has_digit rest = false.
Proof.
  induction lit as [|b lit IH]; intros s rest Hs Hd.
  - destruct s; simpl in Hs; by injection Hs as <-.
  - destruct s as [|a s]; [done|]. simpl in Hs, Hd.
    apply orb_false_iff in Hd as [_ Hd].
    destruct (Ascii.eqb b a); [|done]. by eapply IH.
Qed.

Lemma take_digits_no_digit s : has_digit s = false → take_digits s = EmptyString.
Proof.
  destruct s as [|a s]; [done|]. simpl. intros H.
  apply orb_false_iff in H as [-> _]. done.
Qed.

Lemma match_at_no_digit lit s : has_digit s = false → match_at lit s = None.
Proof.
  intros H. unfold match_at.
  destruct (strip_prefix lit s) as [rest|] eqn:E; [|done]. simpl.
  by rewrite (take_digits_no_digit rest) by by eapply strip_prefix_no_digit.
Qed.

Lemma re_search_no_digit lit s : has_digit s = false → re_search lit s = None.
Proof.
  induction s as [|a s IH]; intros H.
  - simpl. by rewrite match_at_no_digit.
  - cbn [re_search]. rewrite match_at_no_digit by done.
    simpl in H. apply orb_false_iff in H as [_ H]. by apply IH.
Qed.

Lemma first_pattern_nonneg pats s default_case :
  (∃ lit, lit ∈ pats ∧ is_Some (re_search lit s)) →
  (0 <= first_pattern pats s default_case)%Z.
Proof.
  induction pats as [|p pats IH]; intros (lit & Hin & Hs).
  { by apply elem_of_nil in Hin. }
  simpl. destruct (re_search p s) as [g|] eqn:E.
  - destruct (re_search_digits _ _ _ E) as [Hd Hne].
    destruct (int_digits g Hd Hne) as (n & -> & Hn). done.
  - apply IH. exists lit. split; [|done].
    apply elem_of_cons in Hin as [->|Hin]; [|done].
    rewrite E in Hs. by destruct Hs.
Qed.

Lemma first_pattern_default pats s default_case :
  has_digit s = false → first_pattern pats s default_case = default_case.
Proof.
  intros H. induction pats as [|p pats IH]; [done|].
  simpl. by rewrite re_search_no_digit.
Qed.

(** The three kinds of result. *)
Lemma extract_wear_case_cases (filename : string) (default_case : Z) :
  extract_wear_case_from_filename filename default_case = (-1)%Z
  ∨ (0 <= extract_wear_case_from_filename filename default_case)%Z
  ∨ extract_wear_case_from_filename filename default_case = default_case.
Proof.
  unfold extract_wear_case_from_filename.
  destruct (contains "healthy" (lower filename)); [by left|right].
  destruct (has_digit filename) eqn:E.
  - left. apply first_pattern_nonneg. exists EmptyString. split.
    + unfold patterns. do 2 right. left.
    + apply re_search_any_digit. by rewrite has_digit_lower.
  - right. apply first_pattern_default. by rewrite has_digit_lower.
Qed.

(** X9.  [extract_wear_case_from_filename] returns -1 when the name contains
    "healthy" in any letter case; otherwise a number >= 0 when the name
    has a digit, and the default when it has none. *)
Theorem extract_wear_case_from_filename_spec (filename : string)
    (default_case : Z) :
  let r := extract_wear_case_from_filename filename default_case in
  if contains "healthy" (lower filename) then r = (-1)%Z
  else if has_digit filename then (0 <= r)%Z
  else r = default_case.
Proof.
  intros r. unfold r, extract_wear_case_from_filename.
  destruct (contains "healthy" (lower filename)); [done|].
  destruct (has_digit filename) eqn:E.
  - apply first_pattern_nonneg. exists EmptyString. split.
    + unfold patterns. do 2 right. left.
    + apply re_search_any_digit. by rewrite has_digit_lower.
  - apply first_pattern_default. by rewrite has_digit_lower.
Qed.

(** *** Agreement of the two readers *)

Lemma lower_app s t : lower (s +:+ t) = lower s +:+ lower t.
Proof.
  induction s as [|a s IH]; [done|].
  rewrite append_cons. simpl. rewrite append_cons. by rewrite IH.
Qed.

Lemma lower_digits s : digits_only s → lower s = s.
Proof.
  induction s as [|a s IH]; [done|]. intros [Ha Hd]. simpl.
  rewrite IH by done. f_equal.
  repeat (destruct Ha as [->|Ha]; [done|]). by subst.
Qed.

Lemma take_digits_app s a t :
  digits_only s → is_digit a = false → take_digits (s +:+ String a t) = s.
Proof.
  induction s as [|b s IH]; intros Hd Ha.
  - rewrite append_nil. simpl. by rewrite Ha.
  - destruct Hd as [Hb Hd]. rewrite append_cons. simpl.
    rewrite IH by done.
    repeat (destruct Hb as [->|Hb]; [done|]). by subst.
Qed.

(** X10.  The two pipelines read the same wear case from a file named
    [W<n> <rest>]: when the lowercased name contains neither "healthy" nor
    "wear" followed by a digit, [extract_wear_case_from_filename] on the
    base name and [extract_wear_number] on the path both give [n]. *)
Theorem wear_number_readers_agree (dir rest : string) (n default_case : Z) :
  (0 <= n)%Z → contains "/" rest = false →
  let name := "W" +:+ str n +:+ " " +:+ rest in
  contains "healthy" (lower name) = false →
  re_search "wear" (lower name) = None →
  extract_wear_case_from_filename (basename (dir +:+ "/" +:+ name)) default_case
  = n
  ∧ extract_wear_number (dir +:+ "/" +:+ name) = Some n.
Proof.
  intros Hn Hrest name Hh Hw.
  destruct (str_nonneg_digits n Hn) as [Hd Hne].
  assert (contains "/" name = false) as Hname
    by (by apply (name_no_slash "W" n rest)).
  split.
  - rewrite basename_app by done.
    unfold extract_wear_case_from_filename. rewrite Hh.
    unfold patterns. cbn [first_pattern]. rewrite Hw.
    assert (lower name = String "w" (str n +:+ String " " (lower rest))) as El.
    { unfold name. change ("W" +:+ str n +:+ " " +:+ rest)
        with (String "W" (str n +:+ String " " rest)).
      cbn [lower]. f_equal. rewrite lower_app. cbn [lower].
      by rewrite lower_digits. }
    rewrite El.
    assert (re_search "w" (String "w" (str n +:+ String " " (lower rest)))
            = Some (str n)) as ->.
    { cbn [re_search]. unfold match_at. cbn [strip_prefix Ascii.eqb]. simpl.
      rewrite take_digits_app by done.
      destruct (str n) eqn:E; [done|]. done. }
    by rewrite int_str.
  - unfold extract_wear_number. rewrite basename_app by done.
    by apply wear_number_of_name.
Qed.

(** X10 at a file of the image folder. *)
Lemma wear_number_readers_agree_witness :
  extract_wear_case_from_filename
    (basename "database/W12 scale 250.7 micro meter.jpg") 1 = 12%Z
  ∧ extract_wear_number "database/W12 scale 250.7 micro meter.jpg" = Some 12%Z.
Proof.
  apply (wear_number_readers_agree "database" "scale 250.7 micro meter.jpg"
           12 1); [lia|done|done|done].
Defined.
End file_names.

(** ** The single-tooth table *)

Section single_tooth_table.
Import Tooth1 Tabulation SingleToothTable.

Lemma mapM_total {A B} (f : A → option B) (g : A → B) (l : list A) :
  (∀ x, x ∈ l → f x = Some (g x)) → mapM f l = Some (g <$> l).
Proof.
  induction l as [|x l IH]; intros Hf; [done|].
  cbn [mapM]. rewrite (Hf x) by by left. cbn [mbind option_bind].
  rewrite IH by (intros y Hy; apply Hf; by right). done.
Qed.

Lemma first_depth_elem (results : list result) (c : Z) :
  c ∈ wear_case <$> results →
  ∃ r, head (filter (λ r, wear_case r = c) results) = Some r
       ∧ r ∈ results ∧ wear_case r = c.
Proof.
  intros Hin. apply list_elem_of_fmap in Hin as (r & -> & Hr).
  destruct (filter (λ r0, wear_case r0 = wear_case r) results) as [|r0 l] eqn:E.
  - assert (r ∈ filter (λ r0, wear_case r0 = wear_case r) results) as H
      by by apply list_elem_of_filter.
    rewrite E in H. by apply elem_of_nil in H.
  - exists r0. split; [done|].
    assert (r0 ∈ filter (λ r0, wear_case r0 = wear_case r) results) as H
      by (rewrite E; left).
    by apply list_elem_of_filter in H as [? ?].
Qed.

Section single_tooth.
Context (results : list result).

(** Setting the item of [c] again changes nothing. *)
Lemma dict_set_item (c : Z) (cs : list Z) :
  dict_set (row_item results c).1 (row_item results c).2 (row_item results <$> cs)
  = row_item results <$> (if decide (c ∈ cs) then cs else cs ++ [c]).
Proof.
  induction cs as [|c0 cs IH]; [done|].
  rewrite fmap_cons. unfold row_item at 1 2 3. cbn [dict_set fst snd].
  destruct (String.eqb (column_label c0) (column_label c)) eqn:E.
  - apply String.eqb_eq, column_label_inj in E as ->.
    rewrite decide_True by left. done.
  - apply String.eqb_neq in E.
    change (dict_set (column_label c)
              (Some (format_cell (first_depth results c))) (row_item results <$> cs))
      with (dict_set (row_item results c).1 (row_item results c).2 (row_item results <$> cs)).
    change (column_label c0, Some (format_cell (first_depth results c0)))
      with (row_item results c0).
    rewrite IH. destruct (decide (c ∈ cs)) as [Hin|Hn].
    + rewrite decide_True by by right. done.
    + rewrite decide_False; [done|].
      intros H. apply elem_of_cons in H as [->|H]; [done|done].
Qed.

Lemma dict_of_items (cases : list Z) :
  ∃ cs, (∀ c, c ∈ cs ↔ c ∈ cases)
    ∧ fold_left (λ d kv, dict_set kv.1 kv.2 d) (row_item results <$> cases) []
      = row_item results <$> cs.
Proof.
  induction cases as [|c cases IH] using rev_ind.
  - by exists [].
  - destruct IH as (cs & Hcs & Hd).
    rewrite fmap_app, fold_left_app, Hd. cbn [fmap list_fmap fold_left].
    rewrite dict_set_item.
    exists (if decide (c ∈ cs) then cs else cs ++ [c]). split; [|done].
    intros c'. rewrite elem_of_app, list_elem_of_singleton.
    destruct (decide (c ∈ cs)) as [Hin|Hn].
    + rewrite Hcs. split; [tauto|]. intros [H| ->]; [done|]. by apply Hcs.
    + rewrite elem_of_app, list_elem_of_singleton, Hcs. done.
Qed.

Lemma load_items (cs : list Z) : ∀ data,
  (∀ c, c ∈ cs → is_Some (first_depth results c)) →
  fold_left load_cell (row_item results <$> cs) (Some data)
  = Some (fold_left (λ m c, <[c := reloaded_depth results c]> m) cs data).
Proof.
  induction cs as [|c cs IH]; intros data Hsome; [done|].
  rewrite fmap_cons. cbn [fold_left].
  destruct (Hsome c (list_elem_of_here _ _)) as [d Hd].
  assert (load_cell (Some data) (row_item results c)
          = Some (<[c := reloaded_depth results c]> data)) as ->.
  { unfold load_cell, row_item, column_label. cbn [mbind option_bind fst snd].
    destruct (column_label_case c) as [-> ->]. cbn [mbind option_bind].
    unfold reloaded_depth. rewrite Hd. cbn [format_cell default].
    by rewrite float_format_tenths. }
  apply IH. intros c' Hc'. apply Hsome. by right.
Qed.

Lemma lookup_fold_insert (v : Z → Q) (cs : list Z) : ∀ (data : gmap Z Q) c,
  fold_left (λ m c, <[c := v c]> m) cs data !! c
  = if decide (c ∈ cs) then Some (v c) else data !! c.
Proof.
  induction cs as [|c0 cs IH]; intros data c; cbn [fold_left].
  - rewrite decide_False; [done|]. apply not_elem_of_nil.
  - rewrite IH. destruct (decide (c ∈ cs)) as [Hin|Hn].
    + rewrite decide_True by by right. done.
    + destruct (decide (c = c0)) as [->|Hne].
      * rewrite lookup_insert_eq, decide_True by left. done.
      * rewrite lookup_insert_ne by done. rewrite decide_False; [done|].
        intros H. apply elem_of_cons in H as [?|?]; done.
Qed.
End single_tooth.

(** A non-empty list is always written. *)
Lemma save_table_format_written (results : list result) :
  results ≠ [] → is_Some (save_table_format results).
Proof.
  intros Hne. unfold save_table_format.
  destruct results as [|r0 rs]; [done|].
  set (cases := Py.sorted id (wear_case <$> r0 :: rs)).
  rewrite (mapM_total _ (λ c, default 0 (first_depth (r0 :: rs) c))).
  - by eexists.
  - intros c Hc. unfold cases in Hc. rewrite sorted_perm in Hc.
    apply first_depth_elem in Hc as (r & Hr & _).
    unfold first_depth. by rewrite Hr.
Qed.

(** X11.  For at least two single-tooth records the one-row table is written
    and [load_single_tooth_data] gives back, for the wear case of every
    record, the depth of the first record with that wear case rounded by
    [round(1)] in doubles, within 0.05 + 1e-12 of a depth in
    [0, MAX_THEORETICAL_WEAR]; it gives a depth to no other wear case. *)
Theorem single_tooth_csv_round_trip (results : list result) :
  (2 <= length results)%nat →
  ∃ file, save_table_format results = Some file
    ∧ (∀ r, r ∈ results →
         ∃ r0 d, head (filter (λ r', wear_case r' = wear_case r) results)
                 = Some r0
           ∧ load_single_tooth_data (Some file) !! wear_case r = Some d
           ∧ d = round1 (wear_depth_um r0)
           ∧ (0 <= wear_depth_um r0 →
              wear_depth_um r0 <= Config.MAX_THEORETICAL_WEAR →
              Qabs (d - wear_depth_um r0) <= 0.050000000001))
    ∧ (∀ c d, load_single_tooth_data (Some file) !! c = Some d →
         ∃ r, r ∈ results ∧ wear_case r = c).
Proof.
  intros Hlen.
  set (cases := Py.sorted id (wear_case <$> results)).
  assert (∀ c, c ∈ cases ↔ c ∈ wear_case <$> results) as Hcases
    by (intros c; unfold cases; by rewrite sorted_perm).
  assert (length cases = length results) as Hclen.
  { unfold cases. rewrite (Permutation_length (sorted_perm _ _)).
    by rewrite length_fmap. }
  assert (∀ c, c ∈ cases → is_Some (first_depth results c)) as Hsome.
  { intros c Hc. apply Hcases, first_depth_elem in Hc as (r & Hr & _).
    unfold first_depth. rewrite Hr. by eexists. }
  set (g := λ c, default 0 (first_depth results c)).
  assert (mapM (first_depth results) cases = Some (g <$> cases)) as Hm.
  { apply mapM_total. intros c Hc. destruct (Hsome c Hc) as [d Hd].
    unfold g. by rewrite Hd. }
  set (header := column_label <$> cases).
  set (cells := (λ d, format_cell (Some d)) <$> (g <$> cases)).
  assert (save_table_format results = Some [header; cells]) as Hsave.
  { unfold save_table_format. destruct results as [|r0 rs]; [simpl in Hlen; lia|].
    fold cases. rewrite Hm. done. }
  exists [header; cells]. split; [done|].
  assert (zip header (Some <$> cells) = row_item results <$> cases) as Hzip.
  { unfold header, cells, row_item. clear -Hsome.
    induction cases as [|c cs IH]; [done|].
    rewrite !fmap_cons. cbn [zip zip_with]. f_equal.
    - destruct (Hsome c (list_elem_of_here _ _)) as [d Hd].
      unfold g. by rewrite Hd.
    - apply IH. intros c' Hc'. apply Hsome. by right. }
  destruct (dict_of_items results cases) as (cs & Hcs & Hdict).
  assert (load_single_tooth_data (Some [header; cells])
          = fold_left (λ m c, <[c := reloaded_depth results c]> m) cs ∅) as ->.
  { unfold load_single_tooth_data.
    assert ((1 <? length header)%nat = true) as ->.
    { apply Nat.ltb_lt. unfold header. rewrite length_fmap. lia. }
    assert (bool_decide (head header = Some "wear_case") = false) as ->.
    { apply bool_decide_eq_false. unfold header.
      destruct cases as [|c cases']; [done|]. done. }
    cbn [andb negb].
    assert (cells ≠ []) as Hne.
    { unfold cells. intros H. apply (f_equal length) in H.
      rewrite !length_fmap in H. simpl in H. lia. }
    rewrite filter_cons_True by done. rewrite ?filter_nil.
    unfold DictReader_row.
    assert ((length header <? length cells)%nat = false) as ->.
    { apply Nat.ltb_ge. unfold header, cells. rewrite !length_fmap. lia. }
    assert (length header - length cells = 0)%nat as ->.
    { unfold header, cells. rewrite !length_fmap. lia. }
    cbn [replicate]. rewrite app_nil_r, Hzip. cbn [mbind option_bind].
    rewrite Hdict.
    rewrite (load_items results cs ∅); [done|].
    intros c Hc. apply Hsome. by apply Hcs. }
  split.
  - intros r Hr.
    assert (wear_case r ∈ wear_case <$> results) as Hin
      by by apply list_elem_of_fmap_2.
    destruct (first_depth_elem _ _ Hin) as (r0 & Hr0 & _ & _).
    exists r0, (reloaded_depth results (wear_case r)). split; [done|].
    rewrite lookup_fold_insert, decide_True by (by apply Hcs, Hcases).
    split; [done|]. unfold reloaded_depth, first_depth. rewrite Hr0.
    cbn [fmap option_fmap option_map default]. split; [done|].
    apply round1_close.
  - intros c d. rewrite lookup_fold_insert.
    destruct (decide (c ∈ cs)) as [Hin|]; [|by rewrite lookup_empty].
    intros _. apply Hcs, Hcases, list_elem_of_fmap in Hin as (r & -> & Hr).
    by exists r.
Qed.

(** X11 at two records given out of order. *)
Lemma single_tooth_csv_round_trip_witness :
  ∃ file,
    save_table_format
      [mk_result 2 77.0 (Some "manual_adjustment");
       mk_result 1 38.04 (Some "manual_adjustment")] = Some file
    ∧ (∀ r, r ∈ [mk_result 2 77.0 (Some "manual_adjustment");
                 mk_result 1 38.04 (Some "manual_adjustment")] →
         ∃ r0 d,
           head (filter (λ r', wear_case r' = wear_case r)
                   [mk_result 2 77.0 (Some "manual_adjustment");
                    mk_result 1 38.04 (Some "manual_adjustment")])
           = Some r0
           ∧ load_single_tooth_data (Some file) !! wear_case r = Some d
           ∧ d = round1 (wear_depth_um r0)
           ∧ (0 <= wear_depth_um r0 →
              wear_depth_um r0 <= Config.MAX_THEORETICAL_WEAR →
              Qabs (d - wear_depth_um r0) <= 0.050000000001))
    ∧ (∀ c d, load_single_tooth_data (Some file) !! c = Some d →
         ∃ r, r ∈ [mk_result 2 77.0 (Some "manual_adjustment");
                   mk_result 1 38.04 (Some "manual_adjustment")]
              ∧ wear_case r = c).
Proof.
  apply (single_tooth_csv_round_trip
           [mk_result 2 77.0 (Some "manual_adjustment");
            mk_result 1 38.04 (Some "manual_adjustment")]).
  simpl. lia.
Defined.

Lemma long_row_fails (fieldnames : list string) data cells :
  (length fieldnames <= 1)%nat → load_long_row fieldnames data cells = None.
Proof.
  intros Hlen. unfold load_long_row. destruct data as [data|]; [|done].
  cbn [mbind option_bind]. unfold DictReader_fields.
  destruct fieldnames as [|h [|h2 fs]]; [done| |simpl in Hlen; lia].
  set (padded := (Some <$> cells) ++ replicate (length [h] - length cells) None).
  destruct padded as [|v vs]; [done|]. cbn [zip zip_with fold_left dict_set fst snd].
  cbn [dict_get]. destruct (String.eqb h "wear_case") eqn:E.
  - apply String.eqb_eq in E as ->.
    destruct v as [s|]; [|done]. cbn [mjoin option_join mbind option_bind].
    by destruct (int s).
  - done.
Qed.

Lemma fold_long_rows_fail (fieldnames : list string) rows :
  (length fieldnames <= 1)%nat →
  default ∅ (fold_left (load_long_row fieldnames) rows (Some ∅)) = ∅.
Proof.
  intros Hlen. destruct rows as [|cells rows]; [done|].
  cbn [fold_left]. rewrite long_row_fails by done.
  assert (∀ l, fold_left (load_long_row fieldnames) l None = None) as ->.
  { induction l as [|x l IH]; [done|]. cbn [fold_left].
    change (load_long_row fieldnames None x) with (@None (gmap Z Q)).
    apply IH. }
  done.
Qed.

(** X12.  [load_single_tooth_data] returns the empty dictionary for every
    file whose header has fewer than two fields: such a file is read as
    the long format and has no [wear_case] or no [wear_depth_um] column.
    The table written for a single record is such a file. *)
Theorem single_wear_case_not_reloaded :
  (∀ fieldnames rows, (length fieldnames <= 1)%nat →
     load_single_tooth_data (Some (fieldnames :: rows)) = ∅)
  ∧ (∀ r, ∃ file, save_table_format [r] = Some file
       ∧ file = [[column_label (wear_case r)];
                 [format_tenths (round1_tenths (wear_depth_um r))]]
       ∧ load_single_tooth_data (Some file) = ∅).
Proof.
  assert (∀ fieldnames rows, (length fieldnames <= 1)%nat →
     load_single_tooth_data (Some (fieldnames :: rows)) = ∅) as Hgen.
  { intros fieldnames rows Hlen. unfold load_single_tooth_data.
    assert ((1 <? length fieldnames)%nat = false) as ->
      by (apply Nat.ltb_ge; lia).
    cbn [andb]. by apply fold_long_rows_fail. }
  split; [done|]. intros r. eexists. split; [|split; [done|]].
  - unfold save_table_format. cbn [fmap list_fmap Py.sorted Py.sort_by
      Py.insert_by mapM]. unfold first_depth.
    rewrite filter_cons_True by done. rewrite ?filter_nil.
    cbn. done.
  - by apply Hgen.
Qed.
End single_tooth_table.

(** ** Tables that do not load *)

Section table_failures.
Import AllTeeth Tabulation.

Lemma fold_load_cell_none t items :
  fold_left (load_cell t) items None = None.
Proof. induction items as [|x l IH]; [done|]. cbn [fold_left]. apply IH. Qed.

(** One item on which the loop body raises makes the whole row raise. *)
Lemma fold_load_cell_fails t items item :
  item ∈ items → (∀ d, load_cell t (Some d) item = None) →
  ∀ st, fold_left (load_cell t) items st = None.
Proof.
  intros Hin Hfail. induction items as [|x l IH]; intros st.
  { by apply elem_of_nil in Hin. }
  cbn [fold_left]. apply elem_of_cons in Hin as [<-|Hin].
  - destruct st as [d|].
    + rewrite Hfail. apply fold_load_cell_none.
    + apply fold_load_cell_none.
  - by apply IH.
Qed.

Lemma fold_table_rows_none fieldnames rows :
  fold_left (load_table_row fieldnames) rows None = None.
Proof. induction rows as [|x l IH]; [done|]. cbn [fold_left]. apply IH. Qed.

Lemma blank_cell_fails t (name : string) (v : option string) :
  String.prefix "W" name = true → v = Some EmptyString ∨ v = None →
  ∀ d, load_cell t (Some d) (name, v) = None.
Proof.
  intros Hp Hv d. unfold load_cell. cbn [mbind option_bind fst snd].
  rewrite Hp.
  destruct (int (String.substring 1 (String.length name - 1) name)); [|done].
  cbn [mbind option_bind]. by destruct Hv as [-> | ->].
Qed.

(** A row with a blank or missing cell under a W column raises. *)
Lemma blank_row_fails fieldnames cells i name :
  NoDup fieldnames → fieldnames !! i = Some name →
  String.prefix "W" name = true →
  cells !! i = Some EmptyString ∨ cells !! i = None →
  ∀ st, load_table_row fieldnames st cells = None.
Proof.
  intros Hnd Hi Hp Hc st. unfold load_table_row.
  destruct st as [data|]; [|done]. cbn [mbind option_bind].
  unfold DictReader_row.
  destruct (length fieldnames <? length cells)%nat eqn:Elen; [done|].
  apply Nat.ltb_ge in Elen.
  set (padded := (Some <$> cells)
                 ++ replicate (length fieldnames - length cells) None).
  assert (length padded = length fieldnames) as Hlen.
  { unfold padded. rewrite length_app, length_fmap, length_replicate. lia. }
  rewrite dict_of_pairs by (rewrite fst_zip; [done|lia]).
  cbn [mbind option_bind].
  destruct (mjoin (dict_get "Tooth" (zip fieldnames padded))) as [tc|]; [|done].
  cbn [mbind option_bind]. destruct (int tc) as [t|]; [|done].
  cbn [mbind option_bind].
  assert (∃ v, padded !! i = Some v ∧ (v = Some EmptyString ∨ v = None))
    as (v & Hv & Hv').
  { unfold padded. destruct Hc as [Hc|Hc].
    - exists (Some EmptyString). split; [|by left].
      rewrite lookup_app_l by (rewrite length_fmap; by eapply lookup_lt_Some).
      by rewrite list_lookup_fmap, Hc.
    - exists None. split; [|by right].
      apply lookup_ge_None in Hc.
      rewrite lookup_app_r by (rewrite length_fmap; lia).
      apply lookup_replicate_2. rewrite length_fmap.
      apply lookup_lt_Some in Hi. lia. }
  apply (fold_load_cell_fails t _ (name, v)).
  - apply list_elem_of_lookup. exists i.
    rewrite lookup_zip_with, Hi. cbn [mbind option_bind]. by rewrite Hv.
  - by apply blank_cell_fails.
Qed.

(** X13.  [load_all_teeth_data] returns nothing rather than part of a table:
    with distinct field names of which the first is [Tooth], one row with
    an empty or missing cell under a column named [W...] makes the result
    the empty dictionary. *)
Theorem load_all_teeth_all_or_nothing (fieldnames : list string)
    (rows : list (list string)) (cells : list string) (i : nat) (name : string) :
  (1 < length fieldnames)%nat → head fieldnames = Some "Tooth" →
  NoDup fieldnames →
  fieldnames !! i = Some name → String.prefix "W" name = true →
  cells ∈ rows → cells ≠ [] →
  cells !! i = Some EmptyString ∨ cells !! i = None →
  load_all_teeth_data (Some (fieldnames :: rows)) = ∅.
Proof.
  intros Hlen Hhead Hnd Hi Hp Hin Hne Hc. unfold load_all_teeth_data.
  assert ((1 <? length fieldnames)%nat = true) as -> by by apply Nat.ltb_lt.
  rewrite bool_decide_eq_true_2 by done. cbn [andb].
  assert (cells ∈ filter (λ cells, cells ≠ []) rows) as Hin'
    by by apply list_elem_of_filter.
  assert (∀ l st, cells ∈ l → fold_left (load_table_row fieldnames) l st = None)
    as Hfold.
  { induction l as [|x l IH]; intros st Hx; [by apply elem_of_nil in Hx|].
    cbn [fold_left]. apply elem_of_cons in Hx as [<-|Hx]; [|by apply IH].
    rewrite (blank_row_fails fieldnames cells i name) by done.
    apply fold_table_rows_none. }
  by rewrite Hfold.
Qed.

(** X13 at a table of three teeth whose second row lacks one value. *)
Lemma load_all_teeth_all_or_nothing_witness :
  load_all_teeth_data
    (Some [["Tooth"; "W1"; "W2"]; ["1"; "38.0"; "77.0"]; ["2"; "39.3"; ""];
           ["3"; "40.1"; "80.2"]])
  = ∅.
Proof.
  apply (load_all_teeth_all_or_nothing ["Tooth"; "W1"; "W2"] _
           ["2"; "39.3"; ""] 2 "W2").
  - simpl. lia.
  - done.
  - apply (bool_decide_unpack _). by vm_compute.
  - done.
  - done.
  - right. left.
  - done.
  - by left.
Defined.
End table_failures.

(** ** Statistics per wear case *)

Section statistics_facts.
Import Exn Tabulation Statistics.

Lemma len_cons_pos {A} (x : A) (l : list A) : ¬ len (x :: l) == 0.
Proof.
  unfold len. cbn [length]. rewrite Nat2Z.inj_succ.
  change 0 with (inject_Z 0). rewrite inject_Z_injective. lia.
Qed.

Lemma float_truediv_nonzero (x y : Q) :
  ¬ y == 0 → float_truediv x y = inr (binary64 (x / y)).
Proof.
  intros H. unfold float_truediv. destruct (Qeq_bool y 0) eqn:E; [|done].
  apply Qeq_bool_iff in E. done.
Qed.

Lemma max_from_spec (l : list Q) : ∀ best,
  max_from best l ∈ best :: l
  ∧ ∀ x, x ∈ best :: l → x <= max_from best l.
Proof.
  induction l as [|y l IH]; intros best; cbn [max_from].
  - split; [by left|]. intros x Hx. apply list_elem_of_singleton in Hx as ->. lra.
  - destruct (IH (if Py.ltb best y then y else best)) as [Hin Hmax].
    split.
    + apply elem_of_cons in Hin as [->|Hin].
      * destruct (Py.ltb _ _); [right; left|left].
      * by do 2 right.
    + intros x Hx.
      assert (best <= (if Py.ltb best y then y else best)
              ∧ y <= (if Py.ltb best y then y else best)) as [Hb Hy].
      { destruct (Py.ltb best y) eqn:E;
          [apply ltb_spec in E|apply ltb_false in E]; split; lra. }
      pose proof (Hmax _ (list_elem_of_here _ _)) as H0.
      apply elem_of_cons in Hx as [->|Hx]; [lra|].
      apply elem_of_cons in Hx as [->|Hx]; [lra|].
      apply Hmax. by right.
Qed.

Section statistics.
Context (float_sum : list Q → Q) (float_pow : Q → Q → Q).

(** What the loop body records for a list of depths. *)
Lemma case_statistics_of_spec (teeth_depths : list Q) :
  match teeth_depths with
  | [] => case_statistics_of float_sum float_pow teeth_depths = inr None
  | _ =>
      ∃ s, case_statistics_of float_sum float_pow teeth_depths
           = inr (Some s)
        ∧ count s = length teeth_depths
        ∧ min s ∈ teeth_depths ∧ max s ∈ teeth_depths
        ∧ (∀ d, d ∈ teeth_depths → min s <= d ∧ d <= max s)
        ∧ range s = float_sub (max s) (min s) ∧ 0 <= range s
  end.
Proof.
  destruct teeth_depths as [|first rest]; [done|].
  set (l := first :: rest).
  pose proof (len_cons_pos first rest) as Hnz. fold l in Hnz.
  unfold case_statistics_of. fold l.
  rewrite (float_truediv_nonzero _ _ Hnz). cbn [mbind M_bind].
  rewrite (float_truediv_nonzero _ _ Hnz). cbn [mbind M_bind mret M_ret].
  destruct (min_by_from_spec id rest first) as [Hmin1 Hmin2].
  destruct (max_from_spec rest first) as [Hmax1 Hmax2].
  eexists. split; [done|]. cbn [count min max range].
  set (mn := Py.min_by_from id first rest) in *.
  set (mx := max_from first rest) in *. fold l in Hmin1, Hmin2, Hmax1, Hmax2.
  split; [done|]. split; [done|]. split; [done|]. split.
  { intros d Hd. split; [apply (Hmin2 d Hd)|apply (Hmax2 d Hd)]. }
  split; [done|]. apply binary64_nonneg.
  pose proof (Hmax2 mn Hmin1). lra.
Qed.

Lemma statistics_fold (items : list (Z * list (Z * Q))) : ∀ acc,
  NoDup items.*1 →
  ∃ st, fold_left (statistics_step float_sum float_pow) items (inr acc)
        = inr st
    ∧ (∀ c s, st !! c = Some s →
         acc !! c = Some s
         ∨ ∃ teeth, (c, teeth) ∈ items
             ∧ case_statistics_of float_sum float_pow teeth.*2
               = inr (Some s))
    ∧ (∀ c teeth, (c, teeth) ∈ items → teeth ≠ [] → is_Some (st !! c))
    ∧ (∀ c, c ∉ items.*1 → st !! c = acc !! c).
Proof.
  induction items as [|[c0 teeth0] items IH]; intros acc Hnd.
  { exists acc. split; [done|]. split; [by left|]. split; [|done].
    intros c teeth H. by apply elem_of_nil in H. }
  rewrite fmap_cons in Hnd. apply NoDup_cons in Hnd as [Hc0 Hnd].
  cbn [fold_left]. unfold statistics_step at 2. cbn [mbind M_bind fst snd].
  pose proof (case_statistics_of_spec teeth0.*2) as Hspec.
  destruct teeth0 as [|kv0 rest0] eqn:Ev.
  - assert (case_statistics_of float_sum float_pow ([] : list (Z * Q)).*2
            = inr None) as -> by done.
    cbn [mbind M_bind mret M_ret].
    destruct (IH acc Hnd) as (st & Hst & H1 & H2 & H3).
    exists st. split; [done|]. split; [|split].
    + intros c s Hs. destruct (H1 c s Hs) as [?|(teeth & Hin & Hcs)];
        [by left|right]. exists teeth. split; [by right|done].
    + intros c teeth Hin Hne. apply elem_of_cons in Hin as [Heq|Hin].
      * by injection Heq as -> ->.
      * by eapply H2.
    + intros c Hc. rewrite fmap_cons in Hc.
      apply not_elem_of_cons in Hc as [_ Hc]. by apply H3.
  - rewrite (fmap_cons snd kv0 rest0) in Hspec |- *.
    destruct Hspec as (s0 & Hs0 & _). rewrite Hs0.
    cbn [mbind M_bind mret M_ret].
    destruct (IH (<[c0 := s0]> acc) Hnd) as (st & Hst & H1 & H2 & H3).
    exists st. split; [done|]. split; [|split].
    + intros c s Hs. destruct (H1 c s Hs) as [Ha|(teeth & Hin & Hcs)].
      * destruct (decide (c = c0)) as [->|Hne].
        -- rewrite lookup_insert_eq in Ha. injection Ha as <-.
           right. exists (kv0 :: rest0). split; [left|by rewrite fmap_cons].
        -- rewrite lookup_insert_ne in Ha by done. by left.
      * right. exists teeth. split; [by right|done].
    + intros c teeth Hin Hne. apply elem_of_cons in Hin as [Heq|Hin].
      * injection Heq as -> ->. rewrite (H3 c0 Hc0), lookup_insert_eq.
        by eexists.
      * by eapply H2.
    + intros c Hc. rewrite fmap_cons in Hc.
      apply not_elem_of_cons in Hc as [Hne Hc].
      rewrite (H3 c Hc). by rewrite lookup_insert_ne.
Qed.

(** X14.  [calculate_statistics] raises no division error and reports
    exactly the wear cases that have a tooth; for each, [count] is the
    number of teeth, [min] and [max] are depths of the case that bound
    all of them, and [range] is their difference as a double, which is
    not negative. *)
Theorem calculate_statistics_spec (all_teeth_data : gmap Z (list (Z * Q))) :
  ∃ statistics,
    calculate_statistics float_sum float_pow all_teeth_data
    = inr statistics
    ∧ ∀ c,
        match statistics !! c with
        | Some s =>
            ∃ teeth, all_teeth_data !! c = Some teeth ∧ teeth ≠ []
              ∧ count s = length teeth
              ∧ min s ∈ teeth.*2 ∧ max s ∈ teeth.*2
              ∧ (∀ d, d ∈ teeth.*2 → min s <= d ∧ d <= max s)
              ∧ range s = float_sub (max s) (min s) ∧ 0 <= range s
        | None => all_teeth_data !! c = None ∨ all_teeth_data !! c = Some []
        end.
Proof.
  unfold calculate_statistics.
  destruct (statistics_fold (map_to_list all_teeth_data) ∅
              (NoDup_fst_map_to_list _)) as (st & Hst & H1 & H2 & H3).
  exists st. split; [done|]. intros c.
  destruct (st !! c) as [s|] eqn:Es.
  - destruct (H1 c s Es) as [Ha|(teeth & Hin & Hcs)];
      [by rewrite lookup_empty in Ha|].
    apply elem_of_map_to_list in Hin.
    pose proof (case_statistics_of_spec teeth.*2) as Hspec.
    destruct teeth as [|kv rest] eqn:Ev.
    { cbn [fmap list_fmap] in Hspec, Hcs. rewrite Hspec in Hcs.
      by injection Hcs. }
    rewrite fmap_cons in Hspec, Hcs.
    destruct Hspec as (s' & Hs' & Hcount & Hmin & Hmax & Hb & Hr & Hr0).
    rewrite Hs' in Hcs. injection Hcs as <-.
    exists (kv :: rest). split; [done|]. split; [done|].
    rewrite fmap_cons. split; [|done].
    rewrite Hcount. cbn [length]. by rewrite length_fmap.
  - destruct (all_teeth_data !! c) as [teeth|] eqn:Ed; [|by left]. right.
    f_equal. destruct teeth as [|kv rest]; [done|]. exfalso.
    assert (is_Some (st !! c)) as [s Hs]; [|congruence].
    apply (H2 c (kv :: rest)); [by apply elem_of_map_to_list|done].
Qed.
End statistics.
End statistics_facts.

(** ** Bounds on the segmented teeth *)

Section segmentation_bounds.
Import Exn ImageProcessor Tooth1ImageProcessor.

Section segmentation_invariants.
Context {contour : Type} `{!Vision contour}.

(** [(x + 360) % 360] lies in [0, 360). *)
Lemma angle_deg_range (dy dx : Q) :
  0 <= angle_deg dy dx ∧ angle_deg dy dx < 360.
Proof.
  unfold angle_deg.
  set (a := np_arctan2_degrees dy dx + 360). clearbody a.
  pose proof (Qfloor_le (a / 360)) as H1.
  pose proof (Qlt_floor (a / 360)) as H2.
  rewrite inject_Z_plus in H2. change (inject_Z 1) with 1 in H2.
  set (f := inject_Z (Qfloor (a / 360))) in *. clearbody f.
  assert (a == 360 * (a / 360)) as Ha by (field; discriminate).
  split; lra.
Qed.

Lemma with_angle_range shape (v : valid_contour contour) :
  0 <= tooth_angle (with_angle shape v) ∧ tooth_angle (with_angle shape v) < 360.
Proof. destruct v as [[[c a] x] y]. apply angle_deg_range. Qed.

(** What a contour that passes the filters satisfies. *)
Lemma filter_contour_Some shape a1 a2 d1 d2 r1 r2 (c : contour) v :
  filter_contour shape a1 a2 d1 d2 r1 r2 c = Some v →
  v.1.1.1 = c ∧ a1 <= cv2_contourArea c ∧ cv2_contourArea c <= a2.
Proof.
  unfold filter_contour.
  destruct (Py.leb a1 (cv2_contourArea c) && Py.leb (cv2_contourArea c) a2)
    eqn:Ea; [|done].
  apply andb_true_iff in Ea as [E1 E2]. apply leb_spec in E1, E2.
  destruct (calculate_contour_centroid c) as [cx cy].
  destruct (_ && _); [|done].
  destruct (cv2_boundingRect c) as [[[x y] w] h].
  destruct (_ && _); [|done].
  intros H. injection H as <-. done.
Qed.

Lemma omap_filter_contour shape a1 a2 d1 d2 r1 r2 (cs : list contour) v :
  v ∈ omap (filter_contour shape a1 a2 d1 d2 r1 r2) cs →
  v.1.1.1 ∈ cs ∧ a1 <= cv2_contourArea v.1.1.1 ∧ cv2_contourArea v.1.1.1 <= a2.
Proof.
  intros Hin. apply list_elem_of_omap in Hin as (c & Hc & Hf).
  apply filter_contour_Some in Hf as (-> & H1 & H2). done.
Qed.

Lemma best_step_elem shape best (cs : list contour) v :
  v ∈ best_step shape best cs →
  v ∈ best ∨ v ∈ omap (filter_contour shape 20 15000 10 500 0.1 10.0) cs.
Proof.
  unfold best_step. destruct cs as [|c cs]; [by left|].
  destruct (_ <? _)%nat; [by right|by left].
Qed.

Lemma best_contours_elem (found : list (list contour)) shape v :
  v ∈ best_contours found shape →
  ∃ cs, cs ∈ found
    ∧ v ∈ omap (filter_contour shape 20 15000 10 500 0.1 10.0) cs.
Proof.
  unfold best_contours.
  assert (∀ best, v ∈ fold_left (best_step shape) found best →
            v ∈ best ∨ ∃ cs, cs ∈ found
              ∧ v ∈ omap (filter_contour shape 20 15000 10 500 0.1 10.0) cs)
    as Hgen.
  { induction found as [|cs found IH]; intros best Hv; [by left|].
    cbn [fold_left] in Hv. destruct (IH _ Hv) as [Hb|(cs' & H1 & H2)].
    - apply best_step_elem in Hb as [?|?]; [by left|right].
      exists cs. split; [left|done].
    - right. exists cs'. split; [by right|done]. }
  intros Hv. destruct (Hgen [] Hv) as [H|H]; [by apply elem_of_nil in H|done].
Qed.

(** The two reductions return candidates only, and at most the expected
    number of them. *)
Lemma keep_largest_bound (teeth : list (tooth_with_angle contour)) :
  (length (keep_largest teeth) <= Config.EXPECTED_TOOTH_COUNT)%nat
  ∧ ∀ t, t ∈ keep_largest teeth → t ∈ teeth.
Proof.
  destruct (decide (Config.EXPECTED_TOOTH_COUNT < length teeth)%nat) as [Hlt|Hge].
  - destruct (keep_largest_spec teeth Hlt) as (Hl & _ & Hsub).
    split; [lia|]. intros t Ht. by eapply elem_of_submseteq.
  - unfold keep_largest.
    assert ((Config.EXPECTED_TOOTH_COUNT <? length teeth)%nat = false) as ->
      by (apply Nat.ltb_ge; lia).
    split; [lia|done].
Qed.

Lemma closest_to_slots_bound (teeth : list (tooth_with_angle contour)) :
  (length (closest_to_slots teeth) <= Config.EXPECTED_TOOTH_COUNT)%nat
  ∧ ∀ t, t ∈ closest_to_slots teeth → t ∈ teeth.
Proof.
  destruct (decide (Config.EXPECTED_TOOTH_COUNT < length teeth)%nat) as [Hlt|Hge].
  - destruct (closest_to_slots_spec teeth Hlt) as (Hl & _ & Hsub).
    split; [lia|done].
  - unfold closest_to_slots.
    assert ((Config.EXPECTED_TOOTH_COUNT <? length teeth)%nat = false) as ->
      by (apply Nat.ltb_ge; lia).
    split; [lia|done].
Qed.

Lemma teeth_of_gear_image_spec (found : list (list contour)) shape :
  (length (teeth_with_angles_of_gear_image found shape)
   <= Config.EXPECTED_TOOTH_COUNT)%nat
  ∧ ∀ t, t ∈ teeth_with_angles_of_gear_image found shape →
      t ∈ with_angle shape <$> best_contours found shape.
Proof.
  unfold teeth_with_angles_of_gear_image.
  destruct (best_contours found shape) as [|v vs] eqn:E.
  { split; [simpl; lia|]. intros t Ht. by apply elem_of_nil in Ht. }
  destruct (keep_largest_bound
              (Py.sorted_float tooth_angle (with_angle shape <$> v :: vs)))
    as [Hl Hin].
  split; [done|]. intros t Ht. apply Hin in Ht.
  by rewrite sorted_float_perm in Ht.
Qed.

Lemma teeth_improved_spec (contours : list contour) shape :
  (length (teeth_with_angles_improved contours shape)
   <= Config.EXPECTED_TOOTH_COUNT)%nat
  ∧ ∀ t, t ∈ teeth_with_angles_improved contours shape →
      t ∈ with_angle shape <$> valid_contours contours shape.
Proof.
  unfold teeth_with_angles_improved.
  destruct contours as [|c0 cs].
  { split; [simpl; lia|]. intros t Ht. by apply elem_of_nil in Ht. }
  destruct (valid_contours (c0 :: cs) shape) as [|v vs] eqn:E.
  { split; [simpl; lia|]. intros t Ht. by apply elem_of_nil in Ht. }
  destruct (closest_to_slots_bound
              (Py.sorted_float tooth_angle (with_angle shape <$> v :: vs)))
    as [Hl Hin].
  split; [done|]. intros t Ht. apply Hin in Ht.
  by rewrite sorted_float_perm in Ht.
Qed.

(** X15.  The angle of every tooth kept by either segmentation routine lies
    in [0, 360). *)
Theorem tooth_angles_in_range (contours : list contour)
    (found : list (list contour)) (shape : Z * Z) :
  Forall (λ t, 0 <= tooth_angle t ∧ tooth_angle t < 360)
         (teeth_with_angles_improved contours shape)
  ∧ Forall (λ t, 0 <= tooth_angle t ∧ tooth_angle t < 360)
           (teeth_with_angles_of_gear_image found shape).
Proof.
  split.
  - destruct (teeth_improved_spec contours shape) as [_ H1].
    apply Forall_forall. intros t Ht.
    apply H1 in Ht. apply list_elem_of_fmap in Ht as (v & -> & _).
    apply with_angle_range.
  - destruct (teeth_of_gear_image_spec found shape) as [_ H2].
    apply Forall_forall. intros t Ht.
    apply H2 in Ht. apply list_elem_of_fmap in Ht as (v & -> & _).
    apply with_angle_range.
Qed.

(** X16.  Either segmentation routine returns at most EXPECTED_TOOTH_COUNT
    teeth, numbered from 1 without gaps, and each returned contour is one
    of the contours found, with an area inside the band of the routine. *)
Theorem extracted_teeth_invariants (contours : list contour)
    (found : list (list contour)) (shape : Z * Z) :
  (let out := extract_teeth_contours_improved contours shape in
   (length out <= Config.EXPECTED_TOOTH_COUNT)%nat
   ∧ out.*1 = (λ i : nat, (Z.of_nat i + 1)%Z) <$> seq 0 (length out)
   ∧ Forall (λ c, c ∈ contours
                  ∧ 50 <= cv2_contourArea c ∧ cv2_contourArea c <= 8000)
            out.*2)
  ∧ (let out := extract_teeth_from_gear_image found shape in
     (length out <= Config.EXPECTED_TOOTH_COUNT)%nat
     ∧ out.*1 = (λ i : nat, (Z.of_nat i + 1)%Z) <$> seq 0 (length out)
     ∧ Forall (λ c, (∃ cs, cs ∈ found ∧ c ∈ cs)
                    ∧ 20 <= cv2_contourArea c ∧ cv2_contourArea c <= 15000)
              out.*2).
Proof.
  split.
  - intros out. unfold out, extract_teeth_contours_improved.
    destruct (index_teeth_spec (teeth_with_angles_improved contours shape))
      as (Hl & H1 & H2).
    destruct (teeth_improved_spec contours shape) as [Hn Hin].
    rewrite Hl. split; [exact Hn|]. split; [exact H1|].
    rewrite H2. apply Forall_forall. intros c Hc.
    apply list_elem_of_fmap in Hc as (t & -> & Ht).
    apply Hin, list_elem_of_fmap in Ht as (v & -> & Hv).
    rewrite tooth_contour_with_angle.
    unfold valid_contours in Hv.
    exact (omap_filter_contour shape 50 8000 30 300 0.2 5.0 contours v Hv).
  - intros out. unfold out, extract_teeth_from_gear_image.
    destruct (index_teeth_spec (teeth_with_angles_of_gear_image found shape))
      as (Hl & H1 & H2).
    destruct (teeth_of_gear_image_spec found shape) as [Hn Hin].
    rewrite Hl. split; [exact Hn|]. split; [exact H1|].
    rewrite H2. apply Forall_forall. intros c Hc.
    apply list_elem_of_fmap in Hc as (t & -> & Ht).
    apply Hin, list_elem_of_fmap in Ht as (v & -> & Hv).
    rewrite tooth_contour_with_angle.
    apply best_contours_elem in Hv as (cs & Hcs & Hv).
    destruct (omap_filter_contour shape 20 15000 10 500 0.1 10.0 cs v Hv)
      as (H3 & H4 & H5).
    split; [by exists cs|]. by split.
Qed.
End segmentation_invariants.
End segmentation_bounds.

(** ** The multi-tooth pipeline *)

Section multi_tooth_pipeline.
Import AllTeeth ImageProcessor WearAnalyzer FileNames MultiTooth.

(** The depths of the lookup table lie in the admissible range. *)
Lemma tooth1_ground_truth_range (w : Z) (base : Q) :
  tooth1_ground_truth !! w = Some base →
  0 <= base ∧ base <= Config.MAX_THEORETICAL_WEAR.
Proof.
  intros H. apply elem_of_list_to_map_2 in H.
  unfold Config.MAX_THEORETICAL_WEAR.
  repeat (apply elem_of_cons in H as [H|H];
          [injection H as _ ->; split; by apply Qle_bool_iff|]).
  by apply elem_of_nil in H.
Qed.

Section multi_tooth.
Context {contour : Type} `{!Vision contour}.
Context {rng : Type} (np_random_normal : Q → Q → rng → Q * rng).
Context (extract_features_from_tooth_image : contour → option (list Q)).
Context (load_single_gear_image : string → option (list (list contour) * (Z * Z))).

Lemma predict_in_range (features : list Q) (wc t : Z) (g : rng) :
  (0 <= wc)%Z → (1 <= t)%Z →
  0 <= (predict_wear_depth_from_features np_random_normal features wc t g).1
  ∧ (predict_wear_depth_from_features np_random_normal features wc t g).1
    <= Config.MAX_THEORETICAL_WEAR.
Proof.
  intros Hwc Ht. unfold predict_wear_depth_from_features.
  destruct (tooth1_ground_truth !! wc) as [base|] eqn:E.
  - destruct (t =? 1)%Z.
    + by apply (tooth1_ground_truth_range wc).
    + destruct (np_random_normal 1.0 0.05 g) as [v g']. cbn [fst].
      unfold Config.MAX_THEORETICAL_WEAR. py_cases; lra.
  - cbn [fst].
    assert (0 <= inject_Z wc) as H1
      by (change 0 with (inject_Z 0); rewrite <-Zle_Qle; lia).
    assert (1 <= inject_Z t) as H2
      by (change 1 with (inject_Z 1); rewrite <-Zle_Qle; lia).
    assert (0 <= inject_Z wc * 25.0 * (1.0 + (inject_Z t - 1) * 0.02)) as H3.
    { apply Qmult_le_0_compat; [|lra].
      apply Qmult_le_0_compat; [done|lra]. }
    unfold Config.MAX_THEORETICAL_WEAR in *. py_cases; lra.
Qed.

(** What the loop over the teeth appends. *)
Lemma analyze_teeth_spec (wc : Z) (teeth : list (Z * contour)) : ∀ acc g,
  ∃ rs, (fold_left (analyze_tooth np_random_normal
                      extract_features_from_tooth_image wc)
                   teeth (acc, g)).1 = acc ++ rs
    ∧ tooth_number <$> rs = teeth.*1
    ∧ Forall (λ r, wear_case r = wc
                ∧ (method r = "single_image_analysis"
                   ∨ (method r = "error" ∧ wear_depth_um r = 0.0))
                ∧ ((0 <= wc)%Z → (1 <= tooth_number r)%Z →
                   0 <= wear_depth_um r
                   ∧ wear_depth_um r <= Config.MAX_THEORETICAL_WEAR)) rs.
Proof.
  induction teeth as [|[t c] teeth IH]; intros acc g.
  { exists []. by rewrite app_nil_r. }
  cbn [fold_left]. unfold analyze_tooth at 2.
  destruct (extract_features_from_tooth_image c) as [features|].
  - pose proof (predict_in_range features wc t g) as Hp.
    destruct (predict_wear_depth_from_features np_random_normal features wc t g)
      as [d g'].
    destruct (IH (acc ++ [mk_result wc t d "single_image_analysis"]) g')
      as (rs & -> & Ht & Hall).
    exists (mk_result wc t d "single_image_analysis" :: rs).
    split; [by rewrite <-app_assoc|]. split; [by rewrite !fmap_cons, Ht|].
    constructor; [|done]. cbn. split; [done|]. split; [by left|].
    intros H1 H2. by apply Hp.
  - destruct (IH (acc ++ [mk_result wc t 0.0 "error"]) g)
      as (rs & -> & Ht & Hall).
    exists (mk_result wc t 0.0 "error" :: rs).
    split; [by rewrite <-app_assoc|]. split; [by rewrite !fmap_cons, Ht|].
    constructor; [|done]. cbn. split; [done|]. split; [by right|].
    intros _ _. unfold Config.MAX_THEORETICAL_WEAR.
    split; by apply Qle_bool_iff.
Qed.

(** The records of one image. *)
Lemma analyze_single_spec (image_path : string) (wc : Z) (g : rng) :
  let results :=
    (analyze_single_gear_image np_random_normal
       extract_features_from_tooth_image load_single_gear_image
       image_path wc g).1 in
  (length results <= Config.EXPECTED_TOOTH_COUNT)%nat
  ∧ tooth_number <$> results
    = (λ i : nat, (Z.of_nat i + 1)%Z) <$> seq 0 (length results)
  ∧ Forall (λ r, wear_case r = wc
              ∧ (method r = "single_image_analysis"
                 ∨ (method r = "error" ∧ wear_depth_um r = 0.0))
              ∧ ((0 <= wc)%Z →
                 0 <= wear_depth_um r
                 ∧ wear_depth_um r <= Config.MAX_THEORETICAL_WEAR)) results.
Proof.
  intros results. unfold results, analyze_single_gear_image.
  destruct (load_single_gear_image image_path) as [[found shape]|];
    [|by repeat split; try constructor; simpl; lia].
  destruct (index_teeth_spec (teeth_with_angles_of_gear_image found shape))
    as (Hl & H1 & _).
  destruct (teeth_of_gear_image_spec found shape) as [Hn _].
  fold (extract_teeth_from_gear_image found shape) in Hl, H1.
  set (teeth := extract_teeth_from_gear_image found shape) in *.
  destruct (analyze_teeth_spec wc teeth [] g) as (rs & Hrs & Ht & Hall).
  assert (∀ l : list (Z * contour),
            match l with
            | [] => ([], g)
            | x :: l' =>
                fold_left (analyze_tooth np_random_normal
                             extract_features_from_tooth_image wc)
                          (x :: l') ([], g)
            end
            = fold_left (analyze_tooth np_random_normal
                           extract_features_from_tooth_image wc)
                        l ([], g)) as Hm by (by intros []).
  rewrite (Hm teeth), Hrs. cbn [app].
  assert (length rs = length teeth) as Hlen.
  { apply (f_equal length) in Ht. by rewrite !length_fmap in Ht. }
  rewrite Hlen. split; [rewrite Hl; exact Hn|]. split.
  { rewrite Ht, Hl. exact H1. }
  apply Forall_forall. intros r Hr.
  pose proof (proj1 (Forall_forall _ _) Hall r Hr) as (Hw & Hmeth & Hd).
  split; [done|]. split; [done|]. intros Hwc. apply Hd; [done|].
  assert (tooth_number r ∈ teeth.*1) as Hin
    by (rewrite <-Ht; by apply list_elem_of_fmap_2).
  rewrite H1 in Hin. apply list_elem_of_fmap in Hin as (i & -> & _). lia.
Qed.

(** X17.  The records of one gear image: at most EXPECTED_TOOTH_COUNT of
    them, numbered from 1 in order, all with the given wear case; the
    method is "single_image_analysis", or "error" with depth 0.0; for a
    wear case >= 0 the depths lie in [0, MAX_THEORETICAL_WEAR]; and there
    is exactly one record per (tooth, wear case) pair. *)
Theorem analyze_single_gear_image_records (image_path : string) (wc : Z)
    (g : rng) :
  let results :=
    (analyze_single_gear_image np_random_normal
       extract_features_from_tooth_image load_single_gear_image
       image_path wc g).1 in
  (length results <= Config.EXPECTED_TOOTH_COUNT)%nat
  ∧ tooth_number <$> results
    = (λ i : nat, (Z.of_nat i + 1)%Z) <$> seq 0 (length results)
  ∧ Forall (λ r, wear_case r = wc
              ∧ (method r = "single_image_analysis"
                 ∨ (method r = "error" ∧ wear_depth_um r = 0.0))
              ∧ ((0 <= wc)%Z →
                 0 <= wear_depth_um r
                 ∧ wear_depth_um r <= Config.MAX_THEORETICAL_WEAR)) results
  ∧ Tabulation.one_record_per_pair results.
Proof.
  intros results.
  destruct (analyze_single_spec image_path wc g) as (Hn & Ht & Hall).
  fold results in Hn, Ht, Hall.
  split; [exact Hn|]. split; [exact Ht|]. split; [exact Hall|].
  assert (NoDup (tooth_number <$> results)) as Hnd.
  { rewrite Ht. apply NoDup_fmap_2; [|apply NoDup_seq].
    intros i j Hij. lia. }
  split.
  - apply (NoDup_fmap_1 fst). rewrite <-list_fmap_compose. exact Hnd.
  - intros r1 r2 Hr1 Hr2. exists r1. split; [done|]. split; [done|].
    pose proof (proj1 (Forall_forall _ _) Hall r1 Hr1) as (-> & _).
    by pose proof (proj1 (Forall_forall _ _) Hall r2 Hr2) as (-> & _).
Qed.

(** What the loop over the image files appends. *)
Lemma analyze_images_spec (items : list (nat * string)) : ∀ acc g,
  ∃ rs, (fold_left (analyze_image np_random_normal
                      extract_features_from_tooth_image
                      load_single_gear_image) items (acc, g)).1 = acc ++ rs
    ∧ Forall (λ r, (0 <= wear_case r)%Z
                ∧ (1 <= tooth_number r <= 35)%Z
                ∧ 0 <= wear_depth_um r
                ∧ wear_depth_um r <= Config.MAX_THEORETICAL_WEAR) rs.
Proof.
  induction items as [|[i image_path] items IH]; intros acc g.
  { exists []. by rewrite app_nil_r. }
  cbn [fold_left]. unfold analyze_image at 2.
  set (wc := extract_wear_case_from_filename (basename image_path)
               (Z.of_nat i + 1)).
  destruct (wc =? -1)%Z eqn:E; [apply IH|].
  apply Z.eqb_neq in E.
  assert (0 <= wc)%Z as Hwc.
  { destruct (extract_wear_case_cases (basename image_path) (Z.of_nat i + 1))
      as [H1|[H1|H1]]; fold wc in H1; lia. }
  destruct (analyze_single_spec image_path wc g) as (Hn & Ht & Hall).
  destruct (analyze_single_gear_image np_random_normal
              extract_features_from_tooth_image load_single_gear_image
              image_path wc g) as [results g'].
  cbn [fst] in Hn, Ht, Hall.
  destruct (IH (acc ++ results) g') as (rs & -> & Hrs).
  exists (results ++ rs). split; [by rewrite app_assoc|].
  apply Forall_app. split; [|done].
  apply Forall_forall. intros r Hr.
  pose proof (proj1 (Forall_forall _ _) Hall r Hr) as (Hw & _ & Hd).
  split; [by rewrite Hw|]. split; [|by apply Hd].
  assert (tooth_number r ∈ tooth_number <$> results) as Hin
    by by apply list_elem_of_fmap_2.
  rewrite Ht in Hin. apply list_elem_of_fmap in Hin as (k & -> & Hk).
  apply elem_of_seq in Hk. unfold Config.EXPECTED_TOOTH_COUNT in Hn. lia.
Qed.

(** X18.  Every record of the multi-tooth pipeline, after monotonicity
    enforcement, has a wear case >= 0, a tooth number from 1 to 35 and a
    depth in [0, MAX_THEORETICAL_WEAR], whatever the files, the images and
    the random draws. *)
Theorem multi_tooth_results_in_range (image_files : list string) (g : rng) :
  Forall (λ r, (0 <= wear_case r)%Z
            ∧ (1 <= tooth_number r <= 35)%Z
            ∧ 0 <= wear_depth_um r
            ∧ wear_depth_um r <= Config.MAX_THEORETICAL_WEAR)
         (main np_random_normal extract_features_from_tooth_image
            load_single_gear_image image_files g).1.
Proof.
  unfold main.
  set (results := (analyze_all_teeth_wear_from_images np_random_normal
                     extract_features_from_tooth_image
                     load_single_gear_image image_files g).1).
  assert (Forall (λ r, (0 <= wear_case r)%Z
            ∧ (1 <= tooth_number r <= 35)%Z
            ∧ 0 <= wear_depth_um r
            ∧ wear_depth_um r <= Config.MAX_THEORETICAL_WEAR) results)
    as Hres.
  { unfold results, analyze_all_teeth_wear_from_images.
    destruct image_files as [|f fs]; [constructor|].
    destruct (analyze_images_spec
                (Py.enumerate
                   (Py.sorted
                      (λ filepath,
                         extract_wear_case_from_filename (basename filepath)
                           999) (f :: fs))) [] g) as (rs & -> & Hrs).
    done. }
  clearbody results. destruct results as [|r0 rest]; [constructor|].
  cbn [fst]. apply Forall_forall. intros r' Hr'.
  destruct (enforce_elem (r0 :: rest) r' Hr') as (r & Hr & Hs & Hd).
  pose proof (proj1 (Forall_forall _ _) Hres r Hr) as (Hw & Ht & _).
  assert (wear_case r' = wear_case r ∧ tooth_number r' = tooth_number r)
    as [-> ->].
  { destruct r, r'. unfold set_wear_depth_um in Hs. simpl in *.
    by inversion Hs. }
  split; [done|]. split; [done|].
  destruct Hd as [->|(r2 & Hr2 & _ & <-)].
  - unfold Config.MAX_THEORETICAL_WEAR. split; by apply Qle_bool_iff.
  - by pose proof (proj1 (Forall_forall _ _) Hres r2 Hr2) as (_ & _ & ?).
Qed.
End multi_tooth.
End multi_tooth_pipeline.

(** ** The single-tooth pipeline *)

Section tooth1_pipeline_facts.
Import Exn Tooth1 ImageProcessor Tooth1ImageProcessor FileNames Tooth1Pipeline.

Lemma resolve_in_range (cfg : Config.tables) (n : Z) (features : gmap string Q) :
  in_range (resolve_wear_depth cfg n features)
  ∧ wear_case (resolve_wear_depth cfg n features) = n.
Proof.
  unfold resolve_wear_depth.
  destruct (match Config.tbl_manual_adjustments cfg !! n with
            | Some d => (d, "manual_adjustment")
            | None => _
            end) as [d m].
  split; [|done]. apply clamp_depth_range.
Qed.

Lemma mapM_None {A B} (f : A → option B) (l : list A) :
  mapM f l = None → ∃ x, x ∈ l ∧ f x = None.
Proof.
  induction l as [|x l IH]; [done|]. cbn [mapM].
  destruct (f x) as [y|] eqn:E.
  - cbn [mbind option_bind]. destruct (mapM f l) as [ys|] eqn:El; [done|].
    intros _. destruct (IH eq_refl) as (z & Hz & Hf).
    exists z. split; [by right|done].
  - intros _. exists x. split; [left|done].
Qed.

Lemma mapM_Some_elem {A B} (f : A → option B) (l : list A) ys x :
  mapM f l = Some ys → x ∈ l → is_Some (f x).
Proof.
  revert ys. induction l as [|a l IH]; intros ys Hm Hx.
  { by apply elem_of_nil in Hx. }
  cbn [mapM] in Hm. destruct (f a) as [y|] eqn:E; [|done].
  cbn [mbind option_bind] in Hm.
  destruct (mapM f l) as [ys'|] eqn:El; [|done].
  apply elem_of_cons in Hx as [->|Hx]; [by rewrite E|by eapply IH].
Qed.

Section tooth1_pipeline.
Context {contour : Type} `{!Vision contour}.
Context (read_contours : string → option (list contour)).

Lemma features_total (healthy worn : contour) (t : Q) :
  ∃ features, extract_early_wear_features healthy worn t = inr features.
Proof.
  unfold extract_early_wear_features.
  destruct (estimate_scale_factor_total (cv2_contourArea healthy))
    as (s & -> & _).
  destruct (unscaled_features_total healthy worn) as (f & ->).
  by eexists.
Qed.

(** One image adds at most one record, resolved for the wear number of
    its file. *)
Lemma analyze_worn_spec cfg healthy_teeth results (worn_path : string) n :
  extract_wear_number worn_path = Some n →
  analyze_worn_image read_contours cfg healthy_teeth (Some results) worn_path
  = Some results
  ∨ ∃ features,
      analyze_worn_image read_contours cfg healthy_teeth (Some results)
        worn_path
      = Some (results ++ [resolve_wear_depth cfg n features]).
Proof.
  intros Hn. unfold analyze_worn_image. cbn [mbind option_bind].
  rewrite Hn. cbn [mbind option_bind].
  destruct (read_contours worn_path) as [contours|]; [|by left].
  destruct (extract_teeth_contours_improved contours target_shape)
    as [|w ws]; [by left|].
  destruct healthy_teeth as [|[i h] hs]; [by left|].
  destruct (find_most_similar_tooth_contour_early_wear h (w :: ws) 300.0)
    as [| |idx c]; [by left|by left|].
  destruct (features_total h c 6.0) as (f & ->). right. by exists f.
Qed.

Lemma analyze_files_spec cfg healthy_teeth (files : list string) : ∀ acc,
  (∀ f, f ∈ files → is_Some (extract_wear_number f)) →
  (∀ i j a b, (i < j)%nat → files !! i = Some a → files !! j = Some b →
     (default 0 (extract_wear_number a)
      <= default 0 (extract_wear_number b))%Z) →
  ∃ rs, fold_left (analyze_worn_image read_contours cfg healthy_teeth)
          files (Some acc) = Some (acc ++ rs)
    ∧ Forall in_range rs
    ∧ Forall (λ r, ∃ f, f ∈ files
                ∧ extract_wear_number f = Some (wear_case r)) rs
    ∧ ∀ i r1 r2, rs !! i = Some r1 → rs !! S i = Some r2 →
        (wear_case r1 <= wear_case r2)%Z.
Proof.
  induction files as [|f files IH]; intros acc Hkeys Hsorted.
  { exists []. rewrite app_nil_r. by repeat split. }
  destruct (Hkeys f (list_elem_of_here _ _)) as [n Hn].
  assert (∀ f', f' ∈ files → is_Some (extract_wear_number f')) as Hkeys'
    by (intros f' Hf'; apply Hkeys; by right).
  assert (∀ i j a b, (i < j)%nat → files !! i = Some a → files !! j = Some b →
            (default 0 (extract_wear_number a)
             <= default 0 (extract_wear_number b))%Z) as Hsorted'.
  { intros i j a b Hij Ha Hb. apply (Hsorted (S i) (S j)); [lia|done..]. }
  assert (∀ f' m, f' ∈ files → extract_wear_number f' = Some m → (n <= m)%Z)
    as Hhead.
  { intros f' m Hf' Hm. apply list_elem_of_lookup_1 in Hf' as [j Hj].
    pose proof (Hsorted 0%nat (S j) f f' ltac:(lia) eq_refl Hj) as Hle.
    by rewrite Hn, Hm in Hle. }
  cbn [fold_left].
  destruct (analyze_worn_spec cfg healthy_teeth acc f n Hn) as [->|[ft ->]].
  - destruct (IH acc Hkeys' Hsorted') as (rs & -> & H1 & H2 & H3).
    exists rs. split; [done|]. split; [done|]. split; [|done].
    eapply Forall_impl; [exact H2|]. intros r (f' & Hf' & Hr).
    exists f'. split; [by right|done].
  - destruct (IH (acc ++ [resolve_wear_depth cfg n ft]) Hkeys' Hsorted')
      as (rs & -> & H1 & H2 & H3).
    destruct (resolve_in_range cfg n ft) as [Hr Hw].
    exists (resolve_wear_depth cfg n ft :: rs).
    split; [by rewrite <-app_assoc|]. split; [by constructor|]. split.
    + constructor.
      * exists f. split; [left|]. by rewrite Hw.
      * eapply Forall_impl; [exact H2|]. intros r (f' & Hf' & Hr').
        exists f'. split; [by right|done].
    + intros i r1 r2 Hi Hj. destruct i as [|i].
      * cbn in Hi. injection Hi as <-. rewrite Hw.
        cbn in Hj. apply list_elem_of_lookup_2 in Hj.
        pose proof (proj1 (Forall_forall _ _) H2 r2 Hj) as (f' & Hf' & Hr2).
        by eapply Hhead.
      * by apply (H3 i).
Qed.

(** X19.  The single-tooth pipeline either raises, on a file whose name has
    no wear number, or keeps records in [0, MAX_THEORETICAL_WEAR] whose
    wear cases and depths never decrease along the list, each carrying
    the wear number of one of the files; the table is written when there
    is a record. *)
Theorem tooth1_pipeline_monotone (cfg : Config.tables)
    (wear_files : list string) :
  match main read_contours cfg wear_files with
  | None => ∃ f, f ∈ wear_files ∧ extract_wear_number f = None
  | Some (out, file) =>
      Forall in_range out
      ∧ (∀ i r1 r2, out !! i = Some r1 → out !! S i = Some r2 →
           (wear_case r1 <= wear_case r2)%Z
           ∧ wear_depth_um r1 <= wear_depth_um r2)
      ∧ Forall (λ r, ∃ f, f ∈ wear_files
                  ∧ extract_wear_number f = Some (wear_case r)) out
      ∧ (out ≠ [] → is_Some file)
  end.
Proof.
  unfold main, analyze_tooth1_wear_depth.
  destruct (mapM extract_wear_number wear_files) as [ns|] eqn:Em.
  2:{ cbn [mbind option_bind]. by apply mapM_None. }
  cbn [mbind option_bind].
  set (files := Py.sorted (λ f, default 0%Z (extract_wear_number f))
                  wear_files).
  assert (∀ f, f ∈ files → f ∈ wear_files) as Hfiles
    by (intros f; unfold files; by rewrite sorted_perm).
  assert (∃ results,
            match read_contours healthy_path with
            | Some contours =>
                match extract_teeth_contours_improved contours target_shape
                with
                | [] => Some []
                | p :: l =>
                    fold_left (analyze_worn_image read_contours cfg (p :: l))
                              files (Some [])
                end
            | None => Some []
            end = Some results
            ∧ Forall in_range results
            ∧ Forall (λ r, ∃ f, f ∈ wear_files
                        ∧ extract_wear_number f = Some (wear_case r)) results
            ∧ ∀ i r1 r2, results !! i = Some r1 → results !! S i = Some r2 →
                (wear_case r1 <= wear_case r2)%Z) as (results & -> & H1 & H2 & H3).
  { destruct (read_contours healthy_path) as [contours|];
      [|exists []; by repeat split].
    destruct (extract_teeth_contours_improved contours target_shape)
      as [|p l]; [exists []; by repeat split|].
    destruct (analyze_files_spec cfg (p :: l) files []) as (rs & Hrs & Ha & Hb & Hc).
    - intros f Hf. by eapply mapM_Some_elem; [exact Em|apply Hfiles].
    - intros i j a b Hij Ha Hb.
      by eapply (sorted_adjacent_lt (λ f, default 0%Z (extract_wear_number f))
                   wear_files i j).
    - exists rs. split; [done|]. split; [done|]. split; [|done].
      eapply Forall_impl; [exact Hb|]. intros r (f & Hf & Hr).
      exists f. split; [by apply Hfiles|done]. }
  cbn [mbind option_bind].
  assert (Py.sorted wear_case results = results) as Hsorted.
  { apply sort_by_fixed. intros i x y Hx Hy. apply Z.leb_le. by eapply H3. }
  destruct results as [|first others]; [by repeat split|].
  cbn match. rewrite enforce_walk, Hsorted.
  apply Forall_cons in H1 as [Hf Ho].
  destruct (walk_in_range others first Hf Ho) as [Hin Hmono].
  split; [by constructor|]. split; [|split].
  - intros i r1 r2 Hi Hj. split; [|by eapply Hmono].
    assert ((wear_case <$> first :: others) !! i = Some (wear_case r1)) as Hi'.
    { rewrite fmap_cons, <-(walk_wear_case others first), <-fmap_cons.
      by rewrite list_lookup_fmap, Hi. }
    assert ((wear_case <$> first :: others) !! S i = Some (wear_case r2)) as Hj'.
    { rewrite fmap_cons, <-(walk_wear_case others first), <-fmap_cons.
      by rewrite list_lookup_fmap, Hj. }
    rewrite list_lookup_fmap in Hi', Hj'.
    destruct ((first :: others) !! i) as [a|] eqn:Ea; [|done].
    destruct ((first :: others) !! S i) as [b|] eqn:Eb; [|done].
    cbn in Hi', Hj'. injection Hi' as <-. injection Hj' as <-.
    by eapply H3.
  - apply Forall_forall. intros r Hr.
    assert (wear_case r ∈ wear_case <$> first :: walk first others) as Hw
      by by apply list_elem_of_fmap_2.
    rewrite fmap_cons, walk_wear_case, <-fmap_cons in Hw.
    apply list_elem_of_fmap in Hw as (r' & Hw & Hr').
    pose proof (proj1 (Forall_forall _ _) H2 r' Hr') as (f & Hf' & Hn).
    exists f. split; [done|]. by rewrite Hw.
  - intros _. by apply save_table_format_written.
Qed.
End tooth1_pipeline.
End tooth1_pipeline_facts.

(** ** Ties in the matching *)

Section matching_ties.
Import Exn ImageProcessor Tooth1ImageProcessor.

Section matching_order.
Context {contour : Type} `{!Vision contour}.
Implicit Types healthy c : contour.

(** The loop keeps the first of the candidates of least score: what
    stands before the best match scores strictly more. *)
Lemma match_step_first healthy maxD seen st cand :
  match st.1 with
  | None => st.2 = None ∧ ∀ x, x ∈ seen → ¬ gated healthy maxD x.2
  | Some best =>
      ∃ before after, seen = before ++ best :: after
        ∧ gated healthy maxD best.2
        ∧ st.2 = Some (match_score healthy best.2 maxD)
        ∧ (∀ x, x ∈ before → gated healthy maxD x.2 →
             match_score healthy best.2 maxD < match_score healthy x.2 maxD)
        ∧ (∀ x, x ∈ after → gated healthy maxD x.2 →
             match_score healthy best.2 maxD <= match_score healthy x.2 maxD)
  end →
  let st' := match_step healthy maxD st cand in
  match st'.1 with
  | None => st'.2 = None ∧ ∀ x, x ∈ seen ++ [cand] → ¬ gated healthy maxD x.2
  | Some best =>
      ∃ before after, seen ++ [cand] = before ++ best :: after
        ∧ gated healthy maxD best.2
        ∧ st'.2 = Some (match_score healthy best.2 maxD)
        ∧ (∀ x, x ∈ before → gated healthy maxD x.2 →
             match_score healthy best.2 maxD < match_score healthy x.2 maxD)
        ∧ (∀ x, x ∈ after → gated healthy maxD x.2 →
             match_score healthy best.2 maxD <= match_score healthy x.2 maxD)
  end.
Proof.
  destruct st as [bm bs], cand as [idx c]. unfold match_step. cbn [fst snd].
  destruct (passes_gates healthy c maxD) eqn:Hg.
  - apply passes_gates_spec in Hg.
    destruct bm as [[bi bc]|]; cbn [fst snd].
    + intros (before & after & -> & Hbg & -> & Hlt & Hle). cbn [improves].
      destruct (Py.ltb _ _) eqn:E; cbn [fst snd].
      * apply ltb_spec in E.
        exists (before ++ (bi, bc) :: after), [].
        split; [done|]. split; [done|]. split; [done|]. split.
        -- intros x Hx Hxg. apply elem_of_app in Hx as [Hx|Hx].
           ++ specialize (Hlt x Hx Hxg). cbn [snd] in Hlt. lra.
           ++ apply elem_of_cons in Hx as [->|Hx]; [done|].
              specialize (Hle x Hx Hxg). cbn [snd] in Hle. lra.
        -- intros x Hx. by apply elem_of_nil in Hx.
      * apply ltb_false in E.
        exists before, (after ++ [(idx, c)]).
        split; [by rewrite <-app_assoc|]. split; [done|]. split; [done|].
        split; [done|].
        intros x Hx Hxg. apply elem_of_app in Hx as [Hx|Hx]; [by apply Hle|].
        by apply list_elem_of_singleton in Hx as ->.
    + intros [-> Hnone]. cbn [improves fst snd].
      exists seen, []. split; [done|]. split; [done|]. split; [done|]. split.
      * intros x Hx Hxg. by destruct (Hnone x Hx).
      * intros x Hx. by apply elem_of_nil in Hx.
  - assert (¬ gated healthy maxD c) as Hng.
    { intros Hc. apply passes_gates_spec in Hc. congruence. }
    destruct bm as [[bi bc]|]; cbn [fst snd].
    + intros (before & after & -> & Hbg & -> & Hlt & Hle).
      exists before, (after ++ [(idx, c)]).
      split; [by rewrite <-app_assoc|]. split; [done|]. split; [done|].
      split; [done|].
      intros x Hx Hxg. apply elem_of_app in Hx as [Hx|Hx]; [by apply Hle|].
      by apply list_elem_of_singleton in Hx as ->.
    + intros [-> Hnone]. split; [done|].
      intros x Hx. apply elem_of_app in Hx as [Hx|Hx]; [by apply Hnone|].
      by apply list_elem_of_singleton in Hx as ->.
Qed.

Lemma match_fold_first healthy maxD cands : ∀ seen st,
  match st.1 with
  | None => st.2 = None ∧ ∀ x, x ∈ seen → ¬ gated healthy maxD x.2
  | Some best =>
      ∃ before after, seen = before ++ best :: after
        ∧ gated healthy maxD best.2
        ∧ st.2 = Some (match_score healthy best.2 maxD)
        ∧ (∀ x, x ∈ before → gated healthy maxD x.2 →
             match_score healthy best.2 maxD < match_score healthy x.2 maxD)
        ∧ (∀ x, x ∈ after → gated healthy maxD x.2 →
             match_score healthy best.2 maxD <= match_score healthy x.2 maxD)
  end →
  match (fold_left (match_step healthy maxD) cands st).1 with
  | None => ∀ x, x ∈ seen ++ cands → ¬ gated healthy maxD x.2
  | Some best =>
      ∃ before after, seen ++ cands = before ++ best :: after
        ∧ gated healthy maxD best.2
        ∧ (∀ x, x ∈ before → gated healthy maxD x.2 →
             match_score healthy best.2 maxD < match_score healthy x.2 maxD)
        ∧ (∀ x, x ∈ after → gated healthy maxD x.2 →
             match_score healthy best.2 maxD <= match_score healthy x.2 maxD)
  end.
Proof.
  induction cands as [|cand cands IH]; intros seen st Hinv; cbn [fold_left].
  - rewrite app_nil_r. destruct st.1 as [best|].
    + destruct Hinv as (before & after & ? & ? & ? & ? & ?).
      by exists before, after.
    + by destruct Hinv.
  - rewrite cons_middle, app_assoc. apply IH.
    by apply match_step_first.
Qed.

(** X20.  The tooth returned by the matching is the first candidate of least
    score: the gated candidates before it score strictly more, those
    after it at least as much. *)
Theorem tooth_matching_first_minimum healthy
    (cands : list (Z * contour)) (maxD : Q) (idx : Z) (c : contour) :
  find_most_similar_tooth_contour_early_wear healthy cands maxD
  = Match idx c →
  ∃ before after, cands = before ++ (idx, c) :: after
    ∧ gated healthy maxD c
    ∧ (∀ x, x ∈ before → gated healthy maxD x.2 →
         match_score healthy c maxD < match_score healthy x.2 maxD)
    ∧ (∀ x, x ∈ after → gated healthy maxD x.2 →
         match_score healthy c maxD <= match_score healthy x.2 maxD).
Proof.
  unfold find_most_similar_tooth_contour_early_wear. intros Hr.
  assert ((fold_left (match_step healthy maxD) cands (None, None)).1
          = Some (idx, c)) as Hbest.
  { destruct cands as [|c0 cands']; [done|].
    destruct (fold_left _ _ _).1 as [[bi bc]|]; [|done].
    by injection Hr as -> ->. }
  pose proof (match_fold_first healthy maxD cands [] (None, None)) as Hinv.
  rewrite Hbest in Hinv. cbn [app] in Hinv. apply Hinv.
  split; [done|]. intros x Hx. by apply elem_of_nil in Hx.
Qed.
End matching_order.

Import Measured.

(** X20 at three candidates of which the last two tie. *)
Lemma tooth_matching_first_minimum_witness :
  ∃ before after,
    [(1%Z, shifted_tooth); (2%Z, healthy_square); (3%Z, healthy_square)]
    = before ++ (2%Z, healthy_square) :: after
    ∧ gated healthy_square 300.0 healthy_square
    ∧ (∀ x, x ∈ before → gated healthy_square 300.0 x.2 →
         match_score healthy_square healthy_square 300.0
         < match_score healthy_square x.2 300.0)
    ∧ (∀ x, x ∈ after → gated healthy_square 300.0 x.2 →
         match_score healthy_square healthy_square 300.0
         <= match_score healthy_square x.2 300.0).
Proof.
  apply (tooth_matching_first_minimum healthy_square
           [(1%Z, shifted_tooth); (2%Z, healthy_square); (3%Z, healthy_square)]
           300.0 2%Z healthy_square).
  vm_compute. reflexivity.
Defined.
End matching_ties.

(** ** The generic results loader *)

Section results_loader.
Import Tabulation ResultsLoader.

Lemma dict_get_set_ne {V} (k k' : string) (v : V) d :
  k' ≠ k → dict_get k (dict_set k' v d) = dict_get k d.
Proof.
  intros Hne. induction d as [|[k0 v0] d IH]; cbn [dict_set dict_get].
  - by rewrite (proj2 (String.eqb_neq k' k)).
  - destruct (String.eqb k0 k') eqn:E; cbn [dict_get].
    + apply String.eqb_eq in E as ->.
      by rewrite (proj2 (String.eqb_neq k' k)).
    + destruct (String.eqb k0 k); [done|apply IH].
Qed.

Lemma dict_get_fold_set {V} (k : string) (items : list (string * V)) : ∀ d,
  k ∉ items.*1 → dict_get k d = None →
  dict_get k (fold_left (λ d kv, dict_set kv.1 kv.2 d) items d) = None.
Proof.
  induction items as [|[k' v] items IH]; intros d Hk Hd; [done|].
  cbn [fold_left]. apply IH.
  - intros Hin. apply Hk. by right.
  - cbn [fst snd]. rewrite dict_get_set_ne; [done|].
    intros ->. apply Hk. by left.
Qed.

(** A field that the header does not name is not a key of the row. *)
Lemma DictReader_fields_missing (k : string) (fieldnames cells : list string) :
  k ∉ fieldnames →
  dict_get k (SingleToothTable.DictReader_fields fieldnames cells) = None.
Proof.
  intros Hk. unfold SingleToothTable.DictReader_fields.
  apply dict_get_fold_set; [|done].
  intros Hin. apply Hk. apply list_elem_of_fmap in Hin as ([k' v] & -> & Hin).
  by apply elem_of_zip_l in Hin.
Qed.

Lemma column_label_not_wear_case (cases : list Z) :
  "wear_case" ∉ column_label <$> cases.
Proof.
  intros Hin. apply list_elem_of_fmap in Hin as (c & Hc & _).
  unfold column_label in Hc. discriminate Hc.
Qed.

Lemma fold_tooth1_rows_raise (rows : list dict_row) :
  fold_left load_tooth1_row rows None = None.
Proof. by induction rows. Qed.

Lemma fold_all_teeth_rows_raise (rows : list dict_row) :
  fold_left load_all_teeth_row rows None = None.
Proof. by induction rows. Qed.

(** One row is enough for the loader to raise when the header has no
    [wear_case] column. *)
Lemma load_results_csv_no_wear_case (fieldnames cells : list string)
    (rows : list (list string)) :
  "wear_case" ∉ fieldnames → cells ≠ [] →
  load_results_csv (Some (fieldnames :: cells :: rows)) "all_teeth" = List []
  ∧ load_results_csv (Some (fieldnames :: cells :: rows)) "tooth1" = Dict ∅.
Proof.
  intros Hk Hne. unfold load_results_csv, DictReader.
  rewrite filter_cons_True by done. rewrite fmap_cons.
  cbn [String.eqb Ascii.eqb Bool.eqb orb fold_left].
  unfold load_all_teeth_row at 2, load_tooth1_row at 2.
  cbn [mbind option_bind fst].
  rewrite (DictReader_fields_missing _ _ _ Hk).
  cbn [mjoin option_join mbind option_bind].
  by rewrite fold_all_teeth_rows_raise, fold_tooth1_rows_raise.
Qed.

(** X21.  [load_results_csv] does not read what [save_table_format]
    writes: the table of a non-empty multi-tooth result set with distinct
    (tooth, wear case) pairs loads as the empty list under "all_teeth",
    and the table of a non-empty single-tooth list loads as the empty
    dictionary under "tooth1". *)
Theorem load_results_csv_rejects_saved_tables
    (all_teeth_results : AllTeeth.store)
    (tooth1_results : list Tooth1.result) :
  all_teeth_results ≠ [] →
  NoDup ((λ r, (AllTeeth.tooth_number r, AllTeeth.wear_case r))
           <$> all_teeth_results) →
  tooth1_results ≠ [] →
  (∃ file, Tabulation.save_table_format all_teeth_results = Some file
     ∧ load_results_csv (Some file) "all_teeth" = List [])
  ∧ (∃ file, SingleToothTable.save_table_format tooth1_results = Some file
       ∧ load_results_csv (Some file) "tooth1" = Dict ∅).
Proof.
  intros Hne Hnd Hne1. split.
  - unfold Tabulation.save_table_format.
    destruct all_teeth_results as [|r rs]; [done|].
    rewrite bool_decide_eq_true_2 by done.
    set (results := r :: rs) in *.
    set (cases := sorted_unique (AllTeeth.wear_case <$> results)).
    destruct (sorted_unique (AllTeeth.tooth_number <$> results))
      as [|t teeth] eqn:Et.
    { assert (AllTeeth.tooth_number r
              ∈ sorted_unique (AllTeeth.tooth_number <$> results)) as Hin.
      { unfold sorted_unique. rewrite sorted_perm, elem_of_remove_dups.
        unfold results. rewrite fmap_cons. by left. }
      rewrite Et in Hin. by apply elem_of_nil in Hin. }
    eexists. split; [done|]. rewrite fmap_cons.
    apply load_results_csv_no_wear_case; [|done].
    intros Hin. apply elem_of_cons in Hin as [Hin|Hin]; [done|].
    by apply column_label_not_wear_case in Hin.
  - destruct (save_table_format_written tooth1_results Hne1)
      as [file Hfile].
    exists file. split; [done|].
    unfold SingleToothTable.save_table_format in Hfile.
    destruct tooth1_results as [|r rs]; [done|].
    set (cases := Py.sorted id (Tooth1.wear_case <$> r :: rs)) in *.
    destruct (mapM _ cases) as [depths|] eqn:Em; [|done].
    cbn [mbind option_bind] in Hfile. injection Hfile as <-.
    apply load_results_csv_no_wear_case.
    + apply column_label_not_wear_case.
    + apply length_mapM in Em.
      assert (length cases = S (length rs)) as Hl.
      { unfold cases. rewrite sorted_perm. by rewrite length_fmap. }
      destruct depths as [|d depths]; [|done].
      rewrite Hl in Em. done.
Qed.

(** X21 at the sample table and at one single-tooth record. *)
Lemma load_results_csv_rejects_saved_tables_witness :
  (∃ file, Tabulation.save_table_format sample_results = Some file
     ∧ load_results_csv (Some file) "all_teeth" = List [])
  ∧ (∃ file,
       SingleToothTable.save_table_format
         [Tooth1.mk_result 1 38.0 (Some "manual_adjustment")] = Some file
       ∧ load_results_csv (Some file) "tooth1" = Dict ∅).
Proof.
  apply (load_results_csv_rejects_saved_tables sample_results
           [Tooth1.mk_result 1 38.0 (Some "manual_adjustment")]).
  - done.
  - apply (bool_decide_unpack _). by vm_compute.
  - done.
Defined.
End results_loader.

(** ** Image files with the same wear case *)

Section duplicate_cases.
Import AllTeeth ImageProcessor Tooth1ImageProcessor WearAnalyzer FileNames MultiTooth.

(** A name with a digit has a wear case of its own: the default is not
    used. *)
Lemma first_pattern_no_default pats s d d' :
  EmptyString ∈ pats → is_Some (re_search "" s) →
  first_pattern pats s d = first_pattern pats s d'.
Proof.
  induction pats as [|p pats IH]; intros Hin Hs.
  { by apply elem_of_nil in Hin. }
  cbn [first_pattern]. destruct (re_search p s) as [grp|] eqn:E.
  - destruct (re_search_digits _ _ _ E) as [Hd Hne].
    by destruct (int_digits grp Hd Hne) as (n & -> & _).
  - apply IH; [|done]. apply elem_of_cons in Hin as [<-|Hin]; [|done].
    rewrite E in Hs. by destruct Hs.
Qed.

Lemma extract_wear_case_no_default filename d d' :
  has_digit filename = true →
  extract_wear_case_from_filename filename d
  = extract_wear_case_from_filename filename d'.
Proof.
  intros H. unfold extract_wear_case_from_filename.
  destruct (contains "healthy" (lower filename)); [done|].
  apply first_pattern_no_default.
  - unfold patterns. do 2 right. left.
  - apply re_search_any_digit. by rewrite has_digit_lower.
Qed.

(** The pass changes no tooth number and no wear case. *)
Lemma enforce_pairs (results : store) :
  (λ r, (tooth_number r, wear_case r))
    <$> enforce_monotonicity_for_all_teeth results
  = (λ r, (tooth_number r, wear_case r)) <$> results.
Proof.
  destruct (enforce_spec results) as [Hsk _]. unfold skeleton in Hsk.
  apply (f_equal (fmap (λ r, (tooth_number r, wear_case r)))) in Hsk.
  rewrite <-!list_fmap_compose in Hsk.
  erewrite (list_fmap_ext _ (λ r, (tooth_number r, wear_case r))
              (enforce_monotonicity_for_all_teeth results)) in Hsk
    by (intros i []; done).
  erewrite (list_fmap_ext _ (λ r, (tooth_number r, wear_case r)) results)
    in Hsk by (intros i []; done).
  exact Hsk.
Qed.

Section duplicate_wear_cases.
Context {contour : Type} `{!Vision contour}.
Context {rng : Type} (np_random_normal : Q → Q → rng → Q * rng).
Context (extract_features_from_tooth_image : contour → option (list Q)).
Context (load_single_gear_image : string → option (list (list contour) * (Z * Z))).

(** An image with a tooth gives a record of tooth 1. *)
Lemma analyze_single_tooth1 (image_path : string) (wc : Z) (g : rng)
    found shape :
  load_single_gear_image image_path = Some (found, shape) →
  extract_teeth_from_gear_image found shape ≠ [] →
  ∃ r, r ∈ (analyze_single_gear_image np_random_normal
              extract_features_from_tooth_image load_single_gear_image
              image_path wc g).1
    ∧ tooth_number r = 1%Z ∧ wear_case r = wc.
Proof.
  intros Hload Hne. unfold analyze_single_gear_image. rewrite Hload.
  destruct (index_teeth_spec (teeth_with_angles_of_gear_image found shape))
    as (Hl & H1 & _).
  fold (extract_teeth_from_gear_image found shape) in Hl, H1.
  set (teeth := extract_teeth_from_gear_image found shape) in *.
  destruct (analyze_teeth_spec np_random_normal
              extract_features_from_tooth_image wc teeth [] g)
    as (rs & Hrs & Ht & Hall).
  destruct teeth as [|t0 teeth'] eqn:Et; [done|].
  rewrite Hrs. cbn [app].
  destruct rs as [|r rs']; [done|].
  exists r. split; [left|]. split.
  - rewrite fmap_cons in Ht. rewrite <-Hl in H1.
    cbn [length seq] in H1. rewrite !fmap_cons in H1.
    injection Ht as Ht _. injection H1 as H1 _. rewrite Ht, H1. done.
  - by apply Forall_cons in Hall as [[? _] _].
Qed.

(** The loop over the image files only appends. *)
Lemma analyze_images_grow (items : list (nat * string)) : ∀ acc g,
  ∃ rs g', fold_left (analyze_image np_random_normal
                        extract_features_from_tooth_image
                        load_single_gear_image) items (acc, g)
           = (acc ++ rs, g').
Proof.
  induction items as [|[i image_path] items IH]; intros acc g.
  { exists [], g. by rewrite app_nil_r. }
  cbn [fold_left]. unfold analyze_image at 2.
  destruct (_ =? -1)%Z; [apply IH|].
  destruct (analyze_single_gear_image _ _ _ _ _ _) as [results g'].
  destruct (IH (acc ++ results) g') as (rs & g'' & ->).
  exists (results ++ rs), g''. by rewrite app_assoc.
Qed.

(** An image with a tooth leaves a record of tooth 1 with its wear
    case. *)
Lemma analyze_image_tooth1 (acc : list result) (g : rng) (i : nat)
    (image_path : string) found shape :
  extract_wear_case_from_filename (basename image_path) (Z.of_nat i + 1)
  ≠ (-1)%Z →
  load_single_gear_image image_path = Some (found, shape) →
  extract_teeth_from_gear_image found shape ≠ [] →
  ∃ rs g' r,
    analyze_image np_random_normal extract_features_from_tooth_image
      load_single_gear_image (acc, g) (i, image_path) = (acc ++ rs, g')
    ∧ r ∈ rs ∧ tooth_number r = 1%Z
    ∧ wear_case r
      = extract_wear_case_from_filename (basename image_path)
          (Z.of_nat i + 1).
Proof.
  intros Hwc Hload Hne. unfold analyze_image.
  apply Z.eqb_neq in Hwc. rewrite Hwc.
  destruct (analyze_single_tooth1 image_path
              (extract_wear_case_from_filename (basename image_path)
                 (Z.of_nat i + 1)) g found shape Hload Hne)
    as (r & Hr & Ht & Hw).
  destruct (analyze_single_gear_image _ _ _ _ _ _) as [results g'].
  by exists results, g', r.
Qed.

Lemma two_images_collide (its1 its2 its3 : list (nat * string))
    (i j : nat) (a b : string) (g : rng) fa sa fb sb :
  extract_wear_case_from_filename (basename a) (Z.of_nat i + 1) ≠ (-1)%Z →
  extract_wear_case_from_filename (basename b) (Z.of_nat j + 1)
  = extract_wear_case_from_filename (basename a) (Z.of_nat i + 1) →
  load_single_gear_image a = Some (fa, sa) →
  extract_teeth_from_gear_image fa sa ≠ [] →
  load_single_gear_image b = Some (fb, sb) →
  extract_teeth_from_gear_image fb sb ≠ [] →
  ¬ NoDup ((λ r, (tooth_number r, wear_case r))
             <$> (fold_left (analyze_image np_random_normal
                               extract_features_from_tooth_image
                               load_single_gear_image)
                    (its1 ++ (i, a) :: its2 ++ (j, b) :: its3) ([], g)).1).
Proof.
  intros Hwc Heq Hla Hta Hlb Htb.
  rewrite fold_left_app.
  destruct (analyze_images_grow its1 [] g) as (A1 & g1 & ->).
  cbn [fold_left app]. rewrite fold_left_app.
  destruct (analyze_image_tooth1 A1 g1 i a fa sa Hwc Hla Hta)
    as (R1 & g1' & r1 & -> & Hr1 & Ht1 & Hw1).
  destruct (analyze_images_grow its2 (A1 ++ R1) g1') as (A2 & g2 & ->).
  cbn [fold_left].
  assert (extract_wear_case_from_filename (basename b) (Z.of_nat j + 1)
          ≠ (-1)%Z) as Hwc' by by rewrite Heq.
  destruct (analyze_image_tooth1 ((A1 ++ R1) ++ A2) g2 j b fb sb
              Hwc' Hlb Htb)
    as (R2 & g2' & r2 & -> & Hr2 & Ht2 & Hw2).
  destruct (analyze_images_grow its3 (((A1 ++ R1) ++ A2) ++ R2) g2')
    as (A3 & g3 & ->).
  cbn [fst]. rewrite <-!app_assoc, !fmap_app. intros Hnd.
  apply NoDup_app in Hnd as (_ & _ & Hnd).
  apply NoDup_app in Hnd as (_ & Hnd & _).
  apply (Hnd (tooth_number r1, wear_case r1)).
  - apply list_elem_of_fmap. by exists r1.
  - apply elem_of_app. right. apply elem_of_app. left.
    apply list_elem_of_fmap. exists r2. split; [|done].
    by rewrite Ht1, Ht2, Hw1, Hw2, Heq.
Qed.

(** X22.  Two image files whose names give the same wear case, each with a
    tooth, leave the multi-tooth pipeline with results and without a
    table: tooth 1 occurs twice for that wear case, so the pivot raises
    and nothing is written. *)
Theorem duplicate_wear_case_no_table (image_files : list string) (g : rng)
    (p1 p2 : string) :
  p1 ∈ image_files → p2 ∈ image_files → p1 ≠ p2 →
  has_digit (basename p1) = true → has_digit (basename p2) = true →
  extract_wear_case_from_filename (basename p1) 0
  = extract_wear_case_from_filename (basename p2) 0 →
  extract_wear_case_from_filename (basename p1) 0 ≠ (-1)%Z →
  (∃ found shape, load_single_gear_image p1 = Some (found, shape)
     ∧ extract_teeth_from_gear_image found shape ≠ []) →
  (∃ found shape, load_single_gear_image p2 = Some (found, shape)
     ∧ extract_teeth_from_gear_image found shape ≠ []) →
  (main np_random_normal extract_features_from_tooth_image
     load_single_gear_image image_files g).1 ≠ []
  ∧ (main np_random_normal extract_features_from_tooth_image
       load_single_gear_image image_files g).2 = None.
Proof.
  intros Hp1 Hp2 Hne Hd1 Hd2 Heq Hwc (f1 & s1 & Hl1 & Ht1)
    (f2 & s2 & Hl2 & Ht2).
  unfold main, analyze_all_teeth_wear_from_images.
  destruct image_files as [|f0 fs] eqn:Ef; [by apply elem_of_nil in Hp1|].
  rewrite <-Ef in *. clear Ef f0 fs.
  set (files := Py.sorted
                  (λ filepath,
                     extract_wear_case_from_filename (basename filepath) 999)
                  image_files).
  assert (p1 ∈ files ∧ p2 ∈ files) as [Hs1 Hs2]
    by (unfold files; by rewrite !sorted_perm).
  assert (¬ NoDup ((λ r, (tooth_number r, wear_case r))
             <$> (fold_left (analyze_image np_random_normal
                               extract_features_from_tooth_image
                               load_single_gear_image)
                    (Py.enumerate files) ([], g)).1)) as Hdup.
  { apply list_elem_of_split in Hs1 as (l1 & l2 & Hsplit).
    rewrite Hsplit in Hs2.
    apply elem_of_app in Hs2 as [Hs2|Hs2].
    - apply list_elem_of_split in Hs2 as (l3 & l4 & ->).
      rewrite Hsplit. unfold Py.enumerate.
      rewrite <-app_assoc. cbn [app].
      rewrite enumerate_from_app. cbn [Py.enumerate_from].
      rewrite enumerate_from_app. cbn [Py.enumerate_from].
      eapply two_images_collide; [| |exact Hl2|exact Ht2|exact Hl1|exact Ht1].
      + rewrite (extract_wear_case_no_default _ _ 0%Z Hd2). by rewrite <-Heq.
      + rewrite (extract_wear_case_no_default _ _ 0%Z Hd1).
        by rewrite (extract_wear_case_no_default _ _ 0%Z Hd2).
    - apply elem_of_cons in Hs2 as [->|Hs2]; [done|].
      apply list_elem_of_split in Hs2 as (l3 & l4 & ->).
      rewrite Hsplit. unfold Py.enumerate.
      rewrite enumerate_from_app. cbn [Py.enumerate_from].
      rewrite enumerate_from_app. cbn [Py.enumerate_from].
      eapply two_images_collide; [| |exact Hl1|exact Ht1|exact Hl2|exact Ht2].
      + by rewrite (extract_wear_case_no_default _ _ 0%Z Hd1).
      + rewrite (extract_wear_case_no_default _ _ 0%Z Hd2).
        by rewrite (extract_wear_case_no_default _ _ 0%Z Hd1). }
  destruct (fold_left _ (Py.enumerate files) ([], g)).1 as [|r0 rest] eqn:Er.
  { destruct Hdup. constructor. }
  cbn [fst snd]. split.
  - intros Hnil. apply (f_equal length) in Hnil.
    destruct (enforce_spec (r0 :: rest)) as [Hsk _].
    apply skeleton_length in Hsk. rewrite Hsk in Hnil. done.
  - rewrite <-(enforce_pairs (r0 :: rest)) in Hdup.
    unfold Tabulation.save_table_format.
    destruct (enforce_monotonicity_for_all_teeth (r0 :: rest)); [done|].
    by rewrite bool_decide_eq_false_2.
Qed.
End duplicate_wear_cases.

Import Measured.

(** X22 at two files named W1 with one tooth each. *)
Lemma duplicate_wear_case_no_table_witness :
  (main (λ _ _ (g : unit), (1, g)) (λ _ : contour, Some [])
     (λ _, Some ([[rectangle 5 12 286 256]], (512%Z, 512%Z)))
     ["database/W1 first.jpg"; "database/W1 second.png"] tt).1 ≠ []
  ∧ (main (λ _ _ (g : unit), (1, g)) (λ _ : contour, Some [])
       (λ _, Some ([[rectangle 5 12 286 256]], (512%Z, 512%Z)))
       ["database/W1 first.jpg"; "database/W1 second.png"] tt).2 = None.
Proof.
  apply (duplicate_wear_case_no_table (λ _ _ (g : unit), (1, g))
           (λ _ : contour, Some [])
           (λ _, Some ([[rectangle 5 12 286 256]], (512%Z, 512%Z)))
           ["database/W1 first.jpg"; "database/W1 second.png"] tt
           "database/W1 first.jpg" "database/W1 second.png").
  - left.
  - right. left.
  - discriminate.
  - reflexivity.
  - reflexivity.
  - reflexivity.
  - vm_compute. discriminate.
  - exists [[rectangle 5 12 286 256]], (512%Z, 512%Z).
    split; [reflexivity|]. vm_compute. discriminate.
  - exists [[rectangle 5 12 286 256]], (512%Z, 512%Z).
    split; [reflexivity|]. vm_compute. discriminate.
Defined.
End duplicate_cases.

(** ** The integrated table *)

Section integrated_facts.
Import Exn Tabulation IntegratedStatistics.

Section integrated.
Context (float_sum : list Q → Q) (float_pow : Q → Q → Q)
        (format_1f : Q → string).

(** The loop body never divides by zero: the depth of tooth 1 is always
    in the list. *)
Lemma integrated_step_spec (all_teeth_data : gmap Z (list (Z * Q)))
    (acc : gmap Z integrated_case) (c : Z) (d : Q) :
  ∃ s, integrated_step float_sum float_pow format_1f all_teeth_data
         (inr acc) (c, d)
       = inr (<[c := s]> acc)
    ∧ entry_of float_sum format_1f d (all_teeth_data !! c) s.
Proof.
  unfold integrated_step. cbn [mbind M_bind].
  destruct (all_teeth_data !! c) as [teeth|] eqn:Et.
  2:{ cbn [mbind M_bind mret M_ret]. eexists. split; [done|]. by split. }
  set (depths := teeth.*2).
  pose proof (len_cons_pos d depths) as Hnz.
  rewrite (float_truediv_nonzero _ _ Hnz). cbn [mbind M_bind].
  rewrite (float_truediv_nonzero _ _ Hnz). cbn [mbind M_bind mret M_ret].
  eexists. split; [done|]. split; [done|].
  cbn [teeth_range mean_depth]. fold depths.
  destruct (min_by_from_spec id depths d) as [Hmin1 Hmin2].
  destruct (max_from_spec depths d) as [Hmax1 Hmax2].
  eexists _, _. split; [done|]. split; [done|]. split; [done|].
  split; [|done].
  intros x Hx. split; [apply (Hmin2 x Hx)|apply (Hmax2 x Hx)].
Qed.

Lemma integrated_fold (all_teeth_data : gmap Z (list (Z * Q)))
    (items : list (Z * Q)) : ∀ acc,
  NoDup items.*1 →
  ∃ st, fold_left (integrated_step float_sum float_pow format_1f
                     all_teeth_data) items (inr acc) = inr st
    ∧ (∀ c, c ∉ items.*1 → st !! c = acc !! c)
    ∧ (∀ c d, (c, d) ∈ items →
         ∃ s, st !! c = Some s
           ∧ entry_of float_sum format_1f d (all_teeth_data !! c) s).
Proof.
  induction items as [|[c0 d0] items IH]; intros acc Hnd.
  { exists acc. split; [done|]. split; [done|].
    intros c d H. by apply elem_of_nil in H. }
  rewrite fmap_cons in Hnd. apply NoDup_cons in Hnd as [Hc0 Hnd].
  cbn [fold_left].
  destruct (integrated_step_spec all_teeth_data acc c0 d0) as (s0 & -> & Hs0).
  destruct (IH (<[c0 := s0]> acc) Hnd) as (st & Hst & H1 & H2).
  exists st. split; [done|]. split.
  - intros c Hc. rewrite fmap_cons in Hc.
    apply not_elem_of_cons in Hc as [Hne Hc].
    rewrite (H1 c Hc). by rewrite lookup_insert_ne.
  - intros c d Hin. apply elem_of_cons in Hin as [Heq|Hin].
    + injection Heq as -> ->. exists s0.
      split; [|done]. by rewrite (H1 c0 Hc0), lookup_insert_eq.
    + by apply H2.
Qed.

(** X23.  [calculate_integrated_statistics] raises no division error and
    has an entry for exactly the wear cases of the single-tooth data.
    When the multi-tooth data has the case, the depth of tooth 1 is put
    in front of the depths of the case: the range text shows the least
    and the greatest of them, and the mean is the double quotient of
    their sum by their number.  Otherwise the range text repeats the
    depth of tooth 1, the mean is that depth and [std_dev] is 0. *)
Theorem calculate_integrated_statistics_spec (single_tooth_data : gmap Z Q)
    (all_teeth_data : gmap Z (list (Z * Q))) :
  ∃ integrated_stats,
    calculate_integrated_statistics float_sum float_pow format_1f
      single_tooth_data all_teeth_data = inr integrated_stats
    ∧ ∀ c,
        match integrated_stats !! c with
        | Some s =>
            ∃ d, single_tooth_data !! c = Some d
              ∧ entry_of float_sum format_1f d (all_teeth_data !! c) s
        | None => single_tooth_data !! c = None
        end.
Proof.
  unfold calculate_integrated_statistics.
  set (items := Py.sorted fst (map_to_list single_tooth_data)).
  assert (items ≡ₚ map_to_list single_tooth_data) as Hperm
    by apply sorted_perm.
  assert (NoDup items.*1) as Hnd.
  { rewrite Hperm. apply NoDup_fst_map_to_list. }
  destruct (integrated_fold all_teeth_data items ∅ Hnd)
    as (st & Hst & H1 & H2).
  exists st. split; [done|]. intros c.
  destruct (single_tooth_data !! c) as [d|] eqn:Ed.
  - assert ((c, d) ∈ items) as Hin
      by (rewrite Hperm; by apply elem_of_map_to_list).
    destruct (H2 c d Hin) as (s & -> & Hs). by exists d.
  - rewrite H1, lookup_empty; [done|].
    intros Hin. apply list_elem_of_fmap in Hin as ([c' d] & -> & Hin).
    rewrite Hperm in Hin. apply elem_of_map_to_list in Hin.
    cbn [fst] in Ed. congruence.
Qed.
End integrated.
End integrated_facts.
